(** * polyglot: the primitive decoders of decode.go

    A shallow embedding of the decoders of [decode.go] and the properties
    of the wire format that follow from the code.

    Conventions of the embedding.
    - A byte is [Byte.byte]; [u8] is its value as an integer.
    - Go's unsigned and signed fixed-width integers are [Z] with the
      wrap-around written out ([wrap], [sint]).
    - [int] is 64 bits wide (the usual targets of Go 1.21), so the
      conversion [int(size)] of a [uint32] is exact.  The three decoders
      that convert a length prefix are written a second time with the
      width of [int] as a parameter (section [IntWidth]).
    - A read-only cursor [[]byte] is the [list byte] of its contents.
      Indexing and slicing past the end raise a run-time panic in Go:
      they are written in the [go] monad, where [None] is the panic.
    - A Go function returning [(b, v, err)] returns the triple
      [(b, v, e)] with [e : option error]; [None] stands for [nil].
    - [decodeBytes] writes through its destination slice: it is embedded
      a second time over a store of backing arrays (module [Mem]). *)

From Stdlib Require Import ZArith List Bool Lia.
From Stdlib.Strings Require Import Byte.
Import ListNotations.

Local Open Scope Z_scope.

(** ** Bytes and machine integers *)

Definition byte : Set := Byte.byte.

Definition u8 (c : byte) : Z := Z.of_N (Byte.to_N c).

(** [uintW(z)]: the low [w] bits of [z]. *)
Definition wrap (w z : Z) : Z := z mod 2 ^ w.

(** [intW(z)]: the low [w] bits of [z] read in two's complement. *)
Definition sint (w z : Z) : Z := (z + 2 ^ (w - 1)) mod 2 ^ w - 2 ^ (w - 1).

(** [x << s] at an unsigned type of [w] bits. *)
Definition shl (w x s : Z) : Z := wrap w (Z.shiftl x s).

(** ** Constants of decode.go *)

Definition VarIntLen16 : nat := 3.
Definition VarIntLen32 : nat := 5.
Definition VarIntLen64 : nat := 10.
Definition continuation : Z := 0x80.

Definition emptyString : list byte := [].

Inductive error : Set :=
| InvalidSlice | InvalidMap | InvalidBytes | InvalidString | InvalidError
| InvalidBool | InvalidUint8 | InvalidUint16 | InvalidUint32 | InvalidUint64
| InvalidInt32 | InvalidInt64 | InvalidFloat32 | InvalidFloat64.

(** The value built by [Error(val)]: an error that carries its message. *)
Inductive domain_error : Set := Error (msg : list byte).

(** [Kind] is a one-byte type: [byte(kind)] is the kind itself. *)
Definition Kind : Set := byte.

(** The tag constants ([...RawKind]) and the sentinel [trueBool] are used
    by decode.go and declared elsewhere in the package.  The decoders take
    them as a parameter. *)
Record Registry : Set := {
  NilRawKind : byte;
  MapRawKind : byte;
  SliceRawKind : byte;
  BytesRawKind : byte;
  StringRawKind : byte;
  ErrorRawKind : byte;
  BoolRawKind : byte;
  Uint8RawKind : byte;
  Uint16RawKind : byte;
  Uint32RawKind : byte;
  StaticUint32RawKind : byte;
  Uint64RawKind : byte;
  Int32RawKind : byte;
  Int64RawKind : byte;
  Float32RawKind : byte;
  Float64RawKind : byte;
  trueBool : byte
}.

(** Modelled from the spec: the kind registry is not part of decode.go.
    The spec lists the kinds (Nil, Map, Slice, Bytes, String, Error, Bool,
    Uint8, Uint16, Uint32, StaticUint32, Uint64, Int32, Int64, Float32,
    Float64) and asks for pairwise distinct tags; this table numbers them
    in that order, with an explicit true sentinel of 1.  It is used for
    concrete runs only; every general statement holds for any registry. *)
Definition sampleRegistry : Registry := {|
  NilRawKind := x00; MapRawKind := x01; SliceRawKind := x02;
  BytesRawKind := x03; StringRawKind := x04; ErrorRawKind := x05;
  BoolRawKind := x06; Uint8RawKind := x07; Uint16RawKind := x08;
  Uint32RawKind := x09; StaticUint32RawKind := x0a; Uint64RawKind := x0b;
  Int32RawKind := x0c; Int64RawKind := x0d; Float32RawKind := x0e;
  Float64RawKind := x0f; trueBool := x01
|}.

(** ** Run-time panics *)

Definition go (A : Type) : Type := option A.

Definition ret {A} (a : A) : go A := Some a.
Definition panic {A} : go A := None.
Definition bind {A B} (m : go A) (k : A -> go B) : go B :=
  match m with
  | Some a => k a
  | None => None
  end.

Notation "x <- m ;; k" := (bind m (fun x => k))
  (at level 61, m at next level, right associativity).

(** [b[i]] *)
Definition index (b : list byte) (i : nat) : go byte := nth_error b i.

(** [b[lo:]]; panics unless [lo <= len(b)]. *)
Definition slice_from (b : list byte) (lo : nat) : go (list byte) :=
  if (lo <=? length b)%nat then ret (skipn lo b) else panic.

(** [b[:hi]].  Go allows [hi] up to the capacity; a cursor's capacity is
    not part of its contents, and every use below is guarded by
    [hi <= len(b)], where the two agree. *)
Definition slice_to (b : list byte) (hi : nat) : go (list byte) :=
  if (hi <=? length b)%nat then ret (firstn hi b) else panic.

(** [p && q], which evaluates [q] only when [p] holds. *)
Definition and_then (p : bool) (q : go bool) : go bool :=
  if p then q else ret false.

(** [b[i] == k] *)
Definition index_is (b : list byte) (i : nat) (k : byte) : go bool :=
  c <- index b i ;; ret (Byte.eqb c k).

Definition len (b : list byte) : Z := Z.of_nat (length b).

(** What a decoder returns: the cursor, the value and the error. *)
Definition out (A : Type) : Type := (list byte * A * option error)%type.

(** ** The decoders *)

Section Decoders.

Variable K : Registry.

Definition decodeNil (b : list byte) : go (list byte * bool) :=
  c <- and_then (0 <? len b) (index_is b 0 (NilRawKind K)) ;;
  if c then
    b1 <- slice_from b 1 ;; ret (b1, true)
  else ret (b, false).

(** [uint32(b[4]) | uint32(b[3])<<8 | uint32(b[2])<<16 | uint32(b[1])<<24] *)
Definition be32 (b1 b2 b3 b4 : byte) : Z :=
  Z.lor (Z.lor (Z.lor (u8 b4) (shl 32 (u8 b3) 8)) (shl 32 (u8 b2) 16))
        (shl 32 (u8 b1) 24).

Definition decodeStaticUint32 (b : list byte) : go (out Z) :=
  c <- and_then (4 <? len b) (index_is b 0 (StaticUint32RawKind K)) ;;
  if c then
    b5 <- slice_from b 5 ;;
    b4 <- index b 4 ;; b3 <- index b 3 ;;
    b2 <- index b 2 ;; b1 <- index b 1 ;;
    ret (b5, be32 b1 b2 b3 b4, None)
  else ret (b, 0, Some InvalidUint32).

Definition decodeMap (b : list byte) (keyKind valueKind : Kind)
  : go (out Z) :=
  if 2 <? len b then
    c <- (t <- index_is b 0 (MapRawKind K) ;;
          and_then t (k <- index_is b 1 keyKind ;;
                      and_then k (index_is b 2 valueKind))) ;;
    if c then
      b3 <- slice_from b 3 ;;
      r <- decodeStaticUint32 b3 ;;
      let '(b, size, err) := r in
      match err with
      | Some _ => ret (b, 0, Some InvalidMap)
      | None => ret (b, size, None)
      end
    else ret (b, 0, Some InvalidMap)
  else ret (b, 0, Some InvalidMap).

Definition decodeSlice (b : list byte) (kind : Kind) : go (out Z) :=
  if 1 <? len b then
    c <- (t <- index_is b 0 (SliceRawKind K) ;;
          and_then t (index_is b 1 kind)) ;;
    if c then
      b2 <- slice_from b 2 ;;
      r <- decodeStaticUint32 b2 ;;
      let '(b, size, err) := r in
      match err with
      | Some _ => ret (b, 0, Some InvalidSlice)
      | None => ret (b, size, None)
      end
    else ret (b, 0, Some InvalidSlice)
  else ret (b, 0, Some InvalidSlice).

Definition decodeString (b : list byte) : go (out (list byte)) :=
  if 0 <? len b then
    t <- index_is b 0 (StringRawKind K) ;;
    if t then
      b1 <- slice_from b 1 ;;
      r <- decodeStaticUint32 b1 ;;
      let '(b, size, err) := r in
      match err with
      | Some _ => ret (b, emptyString, Some InvalidString)
      | None =>
          if size - 1 <? len b then
            rest <- slice_from b (Z.to_nat size) ;;
            s <- slice_to b (Z.to_nat size) ;;
            ret (rest, s, None)
          else ret (b, emptyString, Some InvalidString)
      end
    else ret (b, emptyString, Some InvalidString)
  else ret (b, emptyString, Some InvalidString).

Definition decodeError (b : list byte) : go (out (option domain_error)) :=
  if 0 <? len b then
    t <- index_is b 0 (ErrorRawKind K) ;;
    if t then
      b1 <- slice_from b 1 ;;
      r <- decodeString b1 ;;
      let '(b, val, err) := r in
      match err with
      | Some _ => ret (b, None, Some InvalidError)
      | None => ret (b, Some (Error val), None)
      end
    else ret (b, None, Some InvalidError)
  else ret (b, None, Some InvalidError).

Definition decodeBool (b : list byte) : go (out bool) :=
  if 1 <? len b then
    t <- index_is b 0 (BoolRawKind K) ;;
    if t then
      v <- index_is b 1 (trueBool K) ;;
      if v then
        b2 <- slice_from b 2 ;; ret (b2, true, None)
      else
        b2 <- slice_from b 2 ;; ret (b2, false, None)
    else ret (b, false, Some InvalidBool)
  else ret (b, false, Some InvalidBool).

Definition decodeUint8 (b : list byte) : go (out Z) :=
  if 1 <? len b then
    t <- index_is b 0 (Uint8RawKind K) ;;
    if t then
      b2 <- slice_from b 2 ;;
      v <- index b 1 ;;
      ret (b2, u8 v, None)
    else ret (b, 0, Some InvalidUint8)
  else ret (b, 0, Some InvalidUint8).

(** *** Variable-width integers *)

(** The body of [for i := 1; i < VarIntLen16+1; i++], run over the values
    [ixs] that [i] still has to take, with the locals [x] and [s].  When the
    loop runs out, control reaches the last [return] of the function. *)
Fixpoint decodeUint16_loop (b : list byte) (ixs : list nat) (x s : Z)
  : go (out Z) :=
  match ixs with
  | [] => ret (b, 0, Some InvalidUint16)
  | i :: ixs' =>
      cb <- index b i ;;
      if u8 cb <? continuation then
        if (VarIntLen16 <? i)%nat && (1 <? u8 cb) then
          ret (b, 0, Some InvalidUint32)
        else
          b' <- slice_from b (i + 1) ;;
          ret (b', Z.lor x (shl 16 (u8 cb) s), None)
      else
        decodeUint16_loop b ixs'
          (Z.lor x (shl 16 (Z.land (u8 cb) (continuation - 1)) s)) (s + 7)
  end.

Definition decodeUint16 (b : list byte) : go (out Z) :=
  c <- and_then (1 <? len b) (index_is b 0 (Uint16RawKind K)) ;;
  if c then decodeUint16_loop b (seq 1 VarIntLen16) 0 0
  else ret (b, 0, Some InvalidUint16).

Definition decodeUint32 (b : list byte) : go (out Z) :=
  c <- and_then (1 <? len b) (index_is b 0 (Uint32RawKind K)) ;;
  if c then
    b1 <- index b 1 ;;
    let cb := u8 b1 in
    if cb <? continuation then
      r <- slice_from b 2 ;; ret (r, cb, None)
    else
    let x := Z.land cb (continuation - 1) in
    b2 <- index b 2 ;;
    let cb := u8 b2 in
    if cb <? continuation then
      r <- slice_from b 3 ;; ret (r, Z.lor x (shl 32 cb 7), None)
    else
    let x := Z.lor x (shl 32 (Z.land cb (continuation - 1)) 7) in
    b3 <- index b 3 ;;
    let cb := u8 b3 in
    if cb <? continuation then
      r <- slice_from b 4 ;; ret (r, Z.lor x (shl 32 cb 14), None)
    else
    let x := Z.lor x (shl 32 (Z.land cb (continuation - 1)) 14) in
    b4 <- index b 4 ;;
    let cb := u8 b4 in
    if cb <? continuation then
      r <- slice_from b 5 ;; ret (r, Z.lor x (shl 32 cb 21), None)
    else
    let x := Z.lor x (shl 32 (Z.land cb (continuation - 1)) 21) in
    b5 <- index b 5 ;;
    let cb := u8 b5 in
    if cb <? continuation then
      r <- slice_from b 6 ;; ret (r, Z.lor x (shl 32 cb 28), None)
    else ret (b, 0, Some InvalidUint32)
  else ret (b, 0, Some InvalidUint32).

Fixpoint decodeUint64_loop (b : list byte) (ixs : list nat) (x s : Z)
  : go (out Z) :=
  match ixs with
  | [] => ret (b, 0, Some InvalidUint64)
  | i :: ixs' =>
      cb <- index b i ;;
      if u8 cb <? continuation then
        if (VarIntLen64 <? i)%nat && (1 <? u8 cb) then
          ret (b, 0, Some InvalidUint64)
        else
          b' <- slice_from b (i + 1) ;;
          ret (b', Z.lor x (shl 64 (u8 cb) s), None)
      else
        decodeUint64_loop b ixs'
          (Z.lor x (shl 64 (Z.land (u8 cb) (continuation - 1)) s)) (s + 7)
  end.

Definition decodeUint64 (b : list byte) : go (out Z) :=
  c <- and_then (1 <? len b) (index_is b 0 (Uint64RawKind K)) ;;
  if c then decodeUint64_loop b (seq 1 VarIntLen64) 0 0
  else ret (b, 0, Some InvalidUint64).

(** [x := intW(ux >> 1); if ux&1 != 0 { x = -(x + 1) }], on an unsigned
    [ux] of [w] bits, with the signed arithmetic of [intW]. *)
Definition unzigzag (w ux : Z) : Z :=
  let x := sint w (Z.shiftr ux 1) in
  if negb (Z.land ux 1 =? 0) then sint w (- sint w (x + 1)) else x.

Definition decodeInt32 (b : list byte) : go (out Z) :=
  c <- and_then (1 <? len b) (index_is b 0 (Int32RawKind K)) ;;
  if c then
    b1 <- index b 1 ;;
    let cb := u8 b1 in
    if cb <? continuation then
      r <- slice_from b 2 ;; ret (r, unzigzag 32 cb, None)
    else
    let x := Z.land cb (continuation - 1) in
    b2 <- index b 2 ;;
    let cb := u8 b2 in
    if cb <? continuation then
      let x := Z.lor x (shl 32 cb 7) in
      r <- slice_from b 3 ;; ret (r, unzigzag 32 x, None)
    else
    let x := Z.lor x (shl 32 (Z.land cb (continuation - 1)) 7) in
    b3 <- index b 3 ;;
    let cb := u8 b3 in
    if cb <? continuation then
      let x := Z.lor x (shl 32 cb 14) in
      r <- slice_from b 4 ;; ret (r, unzigzag 32 x, None)
    else
    let x := Z.lor x (shl 32 (Z.land cb (continuation - 1)) 14) in
    b4 <- index b 4 ;;
    let cb := u8 b4 in
    if cb <? continuation then
      let x := Z.lor x (shl 32 cb 21) in
      r <- slice_from b 5 ;; ret (r, unzigzag 32 x, None)
    else
    let x := Z.lor x (shl 32 (Z.land cb (continuation - 1)) 21) in
    b5 <- index b 5 ;;
    let cb := u8 b5 in
    if cb <? continuation then
      let x := Z.lor x (shl 32 cb 28) in
      r <- slice_from b 6 ;; ret (r, unzigzag 32 x, None)
    else ret (b, 0, Some InvalidInt32)
  else ret (b, 0, Some InvalidInt32).

Fixpoint decodeInt64_loop (b : list byte) (ixs : list nat) (ux s : Z)
  : go (out Z) :=
  match ixs with
  | [] => ret (b, 0, Some InvalidInt64)
  | i :: ixs' =>
      cb <- index b i ;;
      if u8 cb <? continuation then
        if (VarIntLen64 <? i)%nat && (1 <? u8 cb) then
          ret (b, 0, Some InvalidInt64)
        else
          let ux := Z.lor ux (shl 64 (u8 cb) s) in
          b' <- slice_from b (i + 1) ;;
          ret (b', unzigzag 64 ux, None)
      else
        decodeInt64_loop b ixs'
          (Z.lor ux (shl 64 (Z.land (u8 cb) (continuation - 1)) s)) (s + 7)
  end.

Definition decodeInt64 (b : list byte) : go (out Z) :=
  c <- and_then (1 <? len b) (index_is b 0 (Int64RawKind K)) ;;
  if c then decodeInt64_loop b (seq 1 VarIntLen64) 0 0
  else ret (b, 0, Some InvalidInt64).

(** *** Floats

    [math.Float32frombits] and [math.Float64frombits] reinterpret a bit
    pattern; the decoded float is represented by that pattern. *)

Definition decodeFloat32 (b : list byte) : go (out Z) :=
  c <- and_then (4 <? len b) (index_is b 0 (Float32RawKind K)) ;;
  if c then
    b5 <- slice_from b 5 ;;
    b4 <- index b 4 ;; b3 <- index b 3 ;;
    b2 <- index b 2 ;; b1 <- index b 1 ;;
    ret (b5, be32 b1 b2 b3 b4, None)
  else ret (b, 0, Some InvalidFloat32).

Definition be64 (b1 b2 b3 b4 b5 b6 b7 b8 : byte) : Z :=
  Z.lor (Z.lor (Z.lor (Z.lor (Z.lor (Z.lor (Z.lor
    (u8 b8) (shl 64 (u8 b7) 8)) (shl 64 (u8 b6) 16)) (shl 64 (u8 b5) 24))
    (shl 64 (u8 b4) 32)) (shl 64 (u8 b3) 40)) (shl 64 (u8 b2) 48))
    (shl 64 (u8 b1) 56).

Definition decodeFloat64 (b : list byte) : go (out Z) :=
  c <- and_then (8 <? len b) (index_is b 0 (Float64RawKind K)) ;;
  if c then
    b9 <- slice_from b 9 ;;
    b8 <- index b 8 ;; b7 <- index b 7 ;; b6 <- index b 6 ;;
    b5 <- index b 5 ;; b4 <- index b 4 ;; b3 <- index b 3 ;;
    b2 <- index b 2 ;; b1 <- index b 1 ;;
    ret (b9, be64 b1 b2 b3 b4 b5 b6 b7 b8, None)
  else ret (b, 0, Some InvalidFloat64).

End Decoders.

(** ** Slices over a store: [decodeBytes]

    [decodeBytes(b, ret)] writes into the backing array of [ret], which
    the caller keeps a reference to and which may overlap that of [b].
    Here a slice is a header (backing array, offset, length, capacity) and
    the store holds the backing arrays; [nil] is the header without an
    array. *)

Module Mem.

Record slice : Set := mkSlice {
  s_base : option nat;
  s_off : nat;
  s_len : nat;
  s_cap : nat
}.

Definition heap : Set := list (list byte).

Definition nil_slice : slice := mkSlice None 0 0 0.

(** [s == nil] *)
Definition is_nil (s : slice) : bool :=
  match s_base s with
  | None => true
  | Some _ => false
  end.

Definition array (h : heap) (s : slice) : list byte :=
  match s_base s with
  | Some a => nth a h []
  | None => []
  end.

(** The contents of a slice: what a reader of [s[0]], ..., [s[len(s)-1]]
    sees in the store [h]. *)
Definition view (h : heap) (s : slice) : list byte :=
  firstn (s_len s) (skipn (s_off s) (array h s)).

(** A header that points into the store. *)
Definition wf (h : heap) (s : slice) : Prop :=
  (s_len s <= s_cap s)%nat /\
  match s_base s with
  | Some a => (a < length h)%nat /\ (s_off s + s_cap s <= length (nth a h []))%nat
  | None => s_cap s = 0%nat
  end.

(** [s[i]] *)
Definition index (h : heap) (s : slice) (i : nat) : go byte :=
  if (i <? s_len s)%nat then nth_error (array h s) (s_off s + i) else panic.

Definition index_is (h : heap) (s : slice) (i : nat) (k : byte) : go bool :=
  c <- index h s i ;; ret (Byte.eqb c k).

(** [s[lo:hi]]; panics unless [lo <= hi <= cap(s)]. *)
Definition reslice (s : slice) (lo hi : nat) : go slice :=
  if (lo <=? hi)%nat && (hi <=? s_cap s)%nat then
    ret (mkSlice (s_base s) (s_off s + lo) (hi - lo) (s_cap s - lo))
  else panic.

(** [s[lo:]] is [s[lo:len(s)]]. *)
Definition reslice_from (s : slice) (lo : nat) : go slice :=
  reslice s lo (s_len s).

(** Overwrite the array at address [a] from position [o] with [data]. *)
Definition store (h : heap) (a o : nat) (data : list byte) : heap :=
  match nth_error h a with
  | Some arr =>
      firstn a h
      ++ [firstn o arr ++ data ++ skipn (o + length data) arr]
      ++ skipn (S a) h
  | None => h
  end.

(** [copy(dst, src)]: the first [min(len(dst), len(src))] bytes of [src],
    read before any is written (the two may overlap). *)
Definition copy (h : heap) (dst src : slice) : heap :=
  let n := Nat.min (s_len dst) (s_len src) in
  match s_base dst with
  | Some a => store h a (s_off dst) (firstn n (view h src))
  | None => h
  end.

(** [make([]byte, n)]: a new zeroed array at the next free address. *)
Definition make (h : heap) (n : nat) : heap * slice :=
  (h ++ [repeat x00 n], mkSlice (Some (length h)) 0 n n).

Section Append.

(** The capacity the run time picks when [append] has to allocate, from
    the old capacity and the length needed; it is at least that length. *)
Variable growcap : nat -> nat -> nat.

(** [append(s, src...)]: in place when the capacity of [s] allows,
    otherwise into a new array that receives the old elements too. *)
Definition append (h : heap) (s src : slice) : heap * slice :=
  let data := view h src in
  let need := (s_len s + length data)%nat in
  if (need <=? s_cap s)%nat then
    match s_base s with
    | Some a =>
        (store h a (s_off s + s_len s) data,
         mkSlice (s_base s) (s_off s) need (s_cap s))
    | None => (h, s)
    end
  else
    let c := Nat.max need (growcap (s_cap s) need) in
    (h ++ [view h s ++ data ++ repeat x00 (c - need)],
     mkSlice (Some (length h)) 0 need c).

Variable K : Registry.

Definition slen (s : slice) : Z := Z.of_nat (s_len s).

Definition decodeStaticUint32 (h : heap) (b : slice)
  : go (slice * Z * option error) :=
  c <- and_then (4 <? slen b) (index_is h b 0 (StaticUint32RawKind K)) ;;
  if c then
    b5 <- reslice_from b 5 ;;
    b4 <- index h b 4 ;; b3 <- index h b 3 ;;
    b2 <- index h b 2 ;; b1 <- index h b 1 ;;
    ret (b5, be32 b1 b2 b3 b4, None)
  else ret (b, 0, Some InvalidUint32).

(** The store is threaded through: the result carries the store after
    the call. *)
Definition decodeBytes (h : heap) (b dst : slice)
  : go (heap * (slice * slice * option error)) :=
  c <- and_then (0 <? slen b) (index_is h b 0 (BytesRawKind K)) ;;
  if c then
    b1 <- reslice_from b 1 ;;
    r <- decodeStaticUint32 h b1 ;;
    let '(b, size, err) := r in
    match err with
    | Some _ => ret (h, (b, nil_slice, Some InvalidBytes))
    | None =>
        if size - 1 <? slen b then
          r <- (if slen dst <? size then
                  if is_nil dst then
                    let '(h, dst) := make h (Z.to_nat size) in
                    src <- reslice b 0 (Z.to_nat size) ;;
                    ret (copy h dst src, dst)
                  else
                    dst0 <- reslice dst 0 0 ;;
                    src <- reslice b 0 (Z.to_nat size) ;;
                    ret (append h dst0 src)
                else
                  dst0 <- reslice_from dst 0 ;;
                  src <- reslice b 0 (Z.to_nat size) ;;
                  ret (copy h dst0 src, dst)) ;;
          let '(h, dst) := r in
          rest <- reslice_from b (Z.to_nat size) ;;
          ret (h, (rest, dst, None))
        else ret (h, (b, nil_slice, Some InvalidBytes))
    end
  else ret (h, (b, nil_slice, Some InvalidBytes)).

End Append.

End Mem.

(** ** The width of [int]

    [decodeString], [decodeError] and [decodeBytes] convert the length
    prefix with [int(size)].  Above they are written for a 64-bit [int],
    where the conversion is exact.  Here they are written once more with
    the width [iw] of [int] as a parameter: [int(size)] is the low [iw]
    bits of [size] read in two's complement, and [int(size)-1] is
    computed at that width, where signed arithmetic wraps around.  A slice
    index of type [uint32] is used as it is: [b[size:]] and [b[:size]]
    panic unless [size] is within the slice. *)

Section IntWidth.

Variable iw : Z.
Variable growcap : nat -> nat -> nat.
Variable K : Registry.

Definition decodeString_int (b : list byte) : go (out (list byte)) :=
  if 0 <? len b then
    t <- index_is b 0 (StringRawKind K) ;;
    if t then
      b1 <- slice_from b 1 ;;
      r <- decodeStaticUint32 K b1 ;;
      let '(b, size, err) := r in
      match err with
      | Some _ => ret (b, emptyString, Some InvalidString)
      | None =>
          if sint iw (sint iw size - 1) <? len b then
            rest <- slice_from b (Z.to_nat size) ;;
            s <- slice_to b (Z.to_nat size) ;;
            ret (rest, s, None)
          else ret (b, emptyString, Some InvalidString)
      end
    else ret (b, emptyString, Some InvalidString)
  else ret (b, emptyString, Some InvalidString).

Definition decodeError_int (b : list byte)
  : go (out (option domain_error)) :=
  if 0 <? len b then
    t <- index_is b 0 (ErrorRawKind K) ;;
    if t then
      b1 <- slice_from b 1 ;;
      r <- decodeString_int b1 ;;
      let '(b, val, err) := r in
      match err with
      | Some _ => ret (b, None, Some InvalidError)
      | None => ret (b, Some (Error val), None)
      end
    else ret (b, None, Some InvalidError)
  else ret (b, None, Some InvalidError).

Definition decodeBytes_int (h : Mem.heap) (b dst : Mem.slice)
  : go (Mem.heap * (Mem.slice * Mem.slice * option error)) :=
  c <- and_then (0 <? Mem.slen b) (Mem.index_is h b 0 (BytesRawKind K)) ;;
  if c then
    b1 <- Mem.reslice_from b 1 ;;
    r <- Mem.decodeStaticUint32 K h b1 ;;
    let '(b, size, err) := r in
    match err with
    | Some _ => ret (h, (b, Mem.nil_slice, Some InvalidBytes))
    | None =>
        if sint iw (sint iw size - 1) <? Mem.slen b then
          r <- (if Mem.slen dst <? sint iw size then
                  if Mem.is_nil dst then
                    let '(h, dst) := Mem.make h (Z.to_nat size) in
                    src <- Mem.reslice b 0 (Z.to_nat size) ;;
                    ret (Mem.copy h dst src, dst)
                  else
                    dst0 <- Mem.reslice dst 0 0 ;;
                    src <- Mem.reslice b 0 (Z.to_nat size) ;;
                    ret (Mem.append growcap h dst0 src)
                else
                  dst0 <- Mem.reslice_from dst 0 ;;
                  src <- Mem.reslice b 0 (Z.to_nat size) ;;
                  ret (Mem.copy h dst0 src, dst)) ;;
          let '(h, dst) := r in
          rest <- Mem.reslice_from b (Z.to_nat size) ;;
          ret (h, (rest, dst, None))
        else ret (h, (b, Mem.nil_slice, Some InvalidBytes))
    end
  else ret (h, (b, Mem.nil_slice, Some InvalidBytes)).

End IntWidth.

(** ** Reference definitions, after the specification *)

(** The signed value the spec assigns to an unsigned code [u]:
    value = u >> 1; if u & 1 is set the result is -(value + 1), otherwise
    it is value.  Plain integers, no wrap-around. *)
Definition zigzag_decode (u : Z) : Z :=
  let value := Z.shiftr u 1 in
  if Z.testbit u 0 then - (value + 1) else value.

(** The value the spec gives to the bytes of a varint: the low 7 bits of
    each byte, accumulated at the bit offsets [offset], [offset + 7],
    [offset + 14], ...  Plain integers, no wrap-around. *)
Fixpoint varint_value (bs : list byte) (offset : Z) : Z :=
  match bs with
  | [] => 0
  | c :: bs' =>
      Z.lor (Z.shiftl (Z.land (u8 c) 127) offset)
            (varint_value bs' (offset + 7))
  end.

(** A byte with its high bit set announces a further byte. *)
Definition continues (c : byte) : Prop := continuation <= u8 c.

(** The loop of the variable-width decoders with the width [w], the
    byte count [maxlen] and the two errors as parameters: the form that
    [decodeUint16] and [decodeUint64] have in the source and that
    [decodeUint32] keeps in a comment below its unrolled code.  The
    lemmas on varints are proved once, on this loop. *)
Fixpoint varint_loop (w : Z) (maxlen : nat) (e_overflow e_end : error)
  (b : list byte) (ixs : list nat) (x s : Z) : go (out Z) :=
  match ixs with
  | [] => ret (b, 0, Some e_end)
  | i :: ixs' =>
      cb <- index b i ;;
      if u8 cb <? continuation then
        if (maxlen <? i)%nat && (1 <? u8 cb) then
          ret (b, 0, Some e_overflow)
        else
          b' <- slice_from b (i + 1) ;;
          ret (b', Z.lor x (shl w (u8 cb) s), None)
      else
        varint_loop w maxlen e_overflow e_end b ixs'
          (Z.lor x (shl w (Z.land (u8 cb) (continuation - 1)) s)) (s + 7)
  end.

(** The shape the three unsigned varint decoders share: the guard on
    the length and the tag, then the loop. *)
Definition varint_decode (tag : byte) (w : Z) (maxlen : nat)
  (e_overflow e_end : error) (b : list byte) : go (out Z) :=
  c <- and_then (1 <? len b) (index_is b 0 tag) ;;
  if c then varint_loop w maxlen e_overflow e_end b (seq 1 maxlen) 0 0
  else ret (b, 0, Some e_end).

(** Encodings exhibited in the proofs that every value can be decoded:
    the byte of a number below 256, and [k] continuation bytes that hold
    the low 7-bit groups of [u]. *)
Definition byte_of (z : Z) : byte :=
  match Byte.of_N (Z.to_N z) with
  | Some c => c
  | None => x00
  end.

Fixpoint groups (k : nat) (u : Z) : list byte :=
  match k with
  | O => []
  | S k' => byte_of (128 + u mod 128) :: groups k' (u / 128)
  end.

(** * Properties *)

(** ** Arithmetic of bytes and lengths *)

Lemma u8_range (c : byte) : 0 <= u8 c < 256.
Proof.
  unfold u8. pose proof (Byte.to_N_bounded c) as H.
  apply N2Z.inj_le in H. change (Z.of_N 255) with 255 in H.
  pose proof (N2Z.is_nonneg (Byte.to_N c)). lia.
Qed.

Lemma len_ltb (n : nat) (b : list byte) :
  (Z.of_nat n <? len b) = (n <? length b)%nat.
Proof.
  unfold len.
  destruct (Z.of_nat n <? Z.of_nat (length b)) eqn:E1;
    destruct (n <? length b)%nat eqn:E2; try reflexivity.
  - apply Z.ltb_lt in E1. apply Nat.ltb_ge in E2. lia.
  - apply Z.ltb_ge in E1. apply Nat.ltb_lt in E2. lia.
Qed.

Lemma len_ltb_0 b : (0 <? len b) = (0 <? length b)%nat.
Proof. exact (len_ltb 0 b). Qed.
Lemma len_ltb_1 b : (1 <? len b) = (1 <? length b)%nat.
Proof. exact (len_ltb 1 b). Qed.
Lemma len_ltb_2 b : (2 <? len b) = (2 <? length b)%nat.
Proof. exact (len_ltb 2 b). Qed.
Lemma len_ltb_4 b : (4 <? len b) = (4 <? length b)%nat.
Proof. exact (len_ltb 4 b). Qed.
Lemma len_ltb_8 b : (8 <? len b) = (8 <? length b)%nat.
Proof. exact (len_ltb 8 b). Qed.

Lemma byte_eqb_refl (c : byte) : Byte.eqb c c = true.
Proof. apply Byte.byte_dec_lb. reflexivity. Qed.

Lemma byte_eqb_neq (c d : byte) : c <> d -> Byte.eqb c d = false.
Proof.
  intro H. destruct (Byte.eqb c d) eqn:E; [|reflexivity].
  apply Byte.byte_dec_bl in E. contradiction.
Qed.

Lemma byte_eqb_eq (c d : byte) : Byte.eqb c d = true <-> c = d.
Proof. split; [apply Byte.byte_dec_bl | apply Byte.byte_dec_lb]. Qed.

Arguments u8 : simpl never.
Arguments wrap : simpl never.
Arguments sint : simpl never.
Arguments shl : simpl never.
Arguments be32 : simpl never.
Arguments be64 : simpl never.
Arguments unzigzag : simpl never.

(** *** Wrap-around and bitwise or *)

Lemma wrap_range (w z : Z) : 0 <= w -> 0 <= wrap w z < 2 ^ w.
Proof.
  intro Hw. unfold wrap. apply Z.mod_pos_bound.
  apply Z.pow_pos_nonneg; lia.
Qed.

Lemma wrap_small (w z : Z) : 0 <= z < 2 ^ w -> wrap w z = z.
Proof. intro H. unfold wrap. now apply Z.mod_small. Qed.

Lemma wrap_ones (w z : Z) : 0 <= w -> wrap w z = Z.land z (Z.ones w).
Proof. intro Hw. unfold wrap. now rewrite Z.land_ones. Qed.

Lemma wrap_lor (w a c : Z) :
  0 <= w -> wrap w (Z.lor a c) = Z.lor (wrap w a) (wrap w c).
Proof.
  intro Hw. rewrite !wrap_ones by assumption. apply Z.land_lor_distr_l.
Qed.

Lemma wrap_wrap (w z : Z) : 0 <= w -> wrap w (wrap w z) = wrap w z.
Proof. intro Hw. apply wrap_small. now apply wrap_range. Qed.

Lemma lor_range (w a c : Z) :
  0 <= w -> 0 <= a < 2 ^ w -> 0 <= c < 2 ^ w -> 0 <= Z.lor a c < 2 ^ w.
Proof.
  intros Hw Ha Hc.
  rewrite <- (wrap_small w a), <- (wrap_small w c) by assumption.
  rewrite <- wrap_lor by assumption. now apply wrap_range.
Qed.

Lemma shl_range (w x s : Z) : 0 <= w -> 0 <= shl w x s < 2 ^ w.
Proof. intro Hw. unfold shl. now apply wrap_range. Qed.

Lemma low7_range (c : byte) : 0 <= Z.land (u8 c) (continuation - 1) < 128.
Proof.
  change (continuation - 1) with (Z.ones 7).
  rewrite Z.land_ones by lia. apply Z.mod_pos_bound. reflexivity.
Qed.

Lemma low7_small (c : byte) :
  u8 c < continuation -> Z.land (u8 c) (continuation - 1) = u8 c.
Proof.
  intro H. change (continuation - 1) with (Z.ones 7).
  rewrite Z.land_ones by lia. apply Z.mod_small.
  pose proof (u8_range c). unfold continuation in H. lia.
Qed.

(** *** Zigzag *)

Lemma low_bit (u : Z) : negb (Z.land u 1 =? 0) = Z.testbit u 0.
Proof.
  change 1 with (Z.ones 1) at 1. rewrite Z.land_ones by lia.
  rewrite <- Z.bit0_mod. now destruct (Z.testbit u 0).
Qed.

Lemma sint_small (w z : Z) :
  0 < w -> - 2 ^ (w - 1) <= z < 2 ^ (w - 1) -> sint w z = z.
Proof.
  intros Hw Hz. unfold sint.
  assert (E : 2 ^ w = 2 * 2 ^ (w - 1)).
  { rewrite <- Z.pow_succ_r by lia. f_equal. lia. }
  rewrite Z.mod_small by lia. lia.
Qed.

Lemma sint_min (w : Z) : 0 < w -> sint w (2 ^ (w - 1)) = - 2 ^ (w - 1).
Proof.
  intro Hw. unfold sint.
  assert (E : 2 ^ w = 2 * 2 ^ (w - 1)).
  { rewrite <- Z.pow_succ_r by lia. f_equal. lia. }
  replace (2 ^ (w - 1) + 2 ^ (w - 1)) with (2 ^ w) by lia.
  rewrite Z.mod_same; [lia|].
  assert (0 < 2 ^ (w - 1)) by (apply Z.pow_pos_nonneg; lia). lia.
Qed.

(** The signed arithmetic of the code computes the zigzag value exactly:
    neither [x + 1] nor the negation leaves the range of [intW] in a way
    that changes the result. *)
Lemma unzigzag_exact (w u : Z) :
  0 < w -> 0 <= u < 2 ^ w -> unzigzag w u = zigzag_decode u.
Proof.
  intros Hw Hu. unfold unzigzag, zigzag_decode. rewrite low_bit.
  assert (E : 2 ^ w = 2 * 2 ^ (w - 1)).
  { rewrite <- Z.pow_succ_r by lia. f_equal. lia. }
  assert (Hv : 0 <= Z.shiftr u 1 < 2 ^ (w - 1)).
  { rewrite Z.shiftr_div_pow2 by lia. change (2 ^ 1) with 2.
    split; [apply Z.div_pos; lia|].
    apply Z.div_lt_upper_bound; lia. }
  rewrite (sint_small w (Z.shiftr u 1)) by lia.
  destruct (Z.testbit u 0); [|reflexivity].
  destruct (Z.eq_dec (Z.shiftr u 1 + 1) (2 ^ (w - 1))) as [Hm|Hm].
  - rewrite Hm, sint_min, Z.opp_involutive, sint_min by assumption.
    reflexivity.
  - rewrite (sint_small w (Z.shiftr u 1 + 1)) by lia.
    apply sint_small; [assumption|lia].
Qed.

(** Rewrite the length guards into comparisons that compute on a list
    given by its first elements. *)
Ltac guards :=
  rewrite ?len_ltb_0, ?len_ltb_1, ?len_ltb_2, ?len_ltb_4, ?len_ltb_8.

Ltac run :=
  unfold and_then, index_is, index, slice_from, slice_to, bind, ret, panic;
  guards; cbn [length Nat.ltb Nat.leb nth_error skipn firstn].

(** ** The Nil probe *)

(** C5. [decodeNil] never fails and never panics.  On a cursor that
    starts with the Nil tag it consumes that one byte and reports [true];
    on the empty cursor and on a cursor that starts with any other byte it
    returns the cursor as it is and reports [false]. *)
Theorem decodeNil_probe (K : Registry) :
  (forall r, decodeNil K (NilRawKind K :: r) = ret (r, true)) /\
  decodeNil K [] = ret ([], false) /\
  (forall c r, c <> NilRawKind K ->
     decodeNil K (c :: r) = ret (c :: r, false)).
Proof.
  unfold decodeNil. repeat split.
  - intro r. run. rewrite byte_eqb_refl. reflexivity.
  - intros c r Hc. run. rewrite (byte_eqb_neq _ _ Hc). reflexivity.
Qed.

Lemma decodeNil_probe_witness :
  decodeNil sampleRegistry [x07; x00] = ret ([x07; x00], false).
Proof.
  apply (proj2 (proj2 (decodeNil_probe sampleRegistry))).
  simpl. discriminate.
Defined.

(** ** Bool *)

(** C6. On a cursor of at least two bytes that starts with the Bool tag,
    [decodeBool] succeeds, consumes exactly the two bytes, and returns
    [true] exactly when the payload byte is the true sentinel; every other
    payload byte gives [false] without an error.  On every other cursor
    (fewer than two bytes, or another first byte) it returns the cursor
    unchanged with [InvalidBool]; so it fails exactly in those cases. *)
Theorem decodeBool_strict (K : Registry) :
  (forall v r,
     decodeBool K (BoolRawKind K :: v :: r)
     = ret (r, Byte.eqb v (trueBool K), None)) /\
  (forall v, Byte.eqb v (trueBool K) = true <-> v = trueBool K) /\
  (forall b,
     (length b < 2)%nat \/ nth_error b 0 <> Some (BoolRawKind K) ->
     decodeBool K b = ret (b, false, Some InvalidBool)) /\
  (forall b r v e,
     decodeBool K b = ret (r, v, Some e) ->
     e = InvalidBool /\
     ((length b < 2)%nat \/ nth_error b 0 <> Some (BoolRawKind K))).
Proof.
  assert (Hfail : forall b,
     (length b < 2)%nat \/ nth_error b 0 <> Some (BoolRawKind K) ->
     decodeBool K b = ret (b, false, Some InvalidBool)).
  { intros b H. unfold decodeBool.
    destruct b as [|t [|v r]]; run; try reflexivity.
    destruct H as [H|H]; [simpl in H; lia|].
    rewrite byte_eqb_neq; [reflexivity|]. intro E. apply H. simpl. now subst. }
  repeat split.
  - intros v r. unfold decodeBool. run. rewrite byte_eqb_refl.
    destruct (Byte.eqb v (trueBool K)); reflexivity.
  - apply Byte.byte_dec_bl.
  - apply Byte.byte_dec_lb.
  - exact Hfail.
  - destruct b as [|t [|v' r']]; unfold decodeBool in H; revert H; run;
      try (intro H; injection H; congruence).
    destruct (Byte.eqb t (BoolRawKind K)).
    + destruct (Byte.eqb v' (trueBool K)); discriminate.
    + intro H; injection H; congruence.
  - destruct b as [|t [|v' r']]; try (left; simpl; lia).
    unfold decodeBool in H; revert H; run.
    destruct (Byte.eqb t (BoolRawKind K)) eqn:E.
    + destruct (Byte.eqb v' (trueBool K)); discriminate.
    + intros _. right. simpl. intro F. injection F as F.
      apply Byte.eqb_false in E. contradiction.
Qed.

Lemma decodeBool_strict_witness :
  decodeBool sampleRegistry [x06] = ret ([x06], false, Some InvalidBool).
Proof.
  apply (proj1 (proj2 (proj2 (decodeBool_strict sampleRegistry)))).
  left. simpl. lia.
Defined.

(** ** Big-endian values *)

Lemma land_shiftl_low (a c n : Z) :
  0 <= n -> 0 <= a < 2 ^ n -> Z.land a (Z.shiftl c n) = 0.
Proof.
  intros Hn Ha.
  rewrite <- (Z.mod_small a (2 ^ n)) by assumption.
  rewrite <- Z.land_ones by assumption.
  rewrite <- Z.land_assoc, (Z.land_comm (Z.ones n)), Z.land_ones by assumption.
  rewrite Z.shiftl_mul_pow2 by assumption.
  rewrite Z.mod_mul by (apply Z.pow_nonzero; lia).
  apply Z.land_0_r.
Qed.

(** Or-ing a value shifted past the bits of [a] is an addition. *)
Lemma lor_shiftl_add (a c n : Z) :
  0 <= n -> 0 <= a < 2 ^ n -> Z.lor a (Z.shiftl c n) = a + c * 2 ^ n.
Proof.
  intros Hn Ha.
  rewrite <- Z.lxor_lor by now apply land_shiftl_low.
  rewrite <- Z.add_nocarry_lxor by now apply land_shiftl_low.
  now rewrite Z.shiftl_mul_pow2.
Qed.

Lemma shl_exact (w x s : Z) :
  0 <= s -> 0 <= x -> x * 2 ^ s < 2 ^ w -> shl w x s = x * 2 ^ s.
Proof.
  intros Hs Hx Hlt. unfold shl. rewrite Z.shiftl_mul_pow2 by assumption.
  apply wrap_small. split; [|assumption].
  apply Z.mul_nonneg_nonneg; [assumption|]. apply Z.pow_nonneg. lia.
Qed.

(** [be32] is the number whose base-256 digits are the four bytes, most
    significant first. *)
Lemma be32_value (c1 c2 c3 c4 : byte) :
  be32 c1 c2 c3 c4
  = u8 c1 * 2 ^ 24 + u8 c2 * 2 ^ 16 + u8 c3 * 2 ^ 8 + u8 c4.
Proof.
  pose proof (u8_range c1). pose proof (u8_range c2).
  pose proof (u8_range c3). pose proof (u8_range c4).
  unfold be32. rewrite !shl_exact by lia.
  rewrite <- !Z.shiftl_mul_pow2 by lia.
  rewrite (lor_shiftl_add (u8 c4)) by lia.
  rewrite (lor_shiftl_add (u8 c4 + _)) by lia.
  rewrite (lor_shiftl_add (u8 c4 + _ + _)) by lia.
  rewrite !Z.shiftl_mul_pow2 by lia. lia.
Qed.

Lemma be64_value (c1 c2 c3 c4 c5 c6 c7 c8 : byte) :
  be64 c1 c2 c3 c4 c5 c6 c7 c8
  = u8 c1 * 2 ^ 56 + u8 c2 * 2 ^ 48 + u8 c3 * 2 ^ 40 + u8 c4 * 2 ^ 32
    + u8 c5 * 2 ^ 24 + u8 c6 * 2 ^ 16 + u8 c7 * 2 ^ 8 + u8 c8.
Proof.
  pose proof (u8_range c1). pose proof (u8_range c2).
  pose proof (u8_range c3). pose proof (u8_range c4).
  pose proof (u8_range c5). pose proof (u8_range c6).
  pose proof (u8_range c7). pose proof (u8_range c8).
  unfold be64. rewrite !shl_exact by lia.
  rewrite <- !Z.shiftl_mul_pow2 by lia.
  rewrite (lor_shiftl_add (u8 c8)) by lia.
  rewrite (lor_shiftl_add (u8 c8 + _)) by lia.
  rewrite (lor_shiftl_add (u8 c8 + _ + _)) by lia.
  rewrite (lor_shiftl_add (u8 c8 + _ + _ + _)) by lia.
  rewrite (lor_shiftl_add (u8 c8 + _ + _ + _ + _)) by lia.
  rewrite (lor_shiftl_add (u8 c8 + _ + _ + _ + _ + _)) by lia.
  rewrite (lor_shiftl_add (u8 c8 + _ + _ + _ + _ + _ + _)) by lia.
  rewrite !Z.shiftl_mul_pow2 by lia. lia.
Qed.

(** ** Fixed-width lengths and the container headers *)

(** [decodeStaticUint32] by cases on the cursor. *)
Lemma decodeStaticUint32_eq (K : Registry) (b : list byte) :
  decodeStaticUint32 K b =
  match b with
  | t :: c1 :: c2 :: c3 :: c4 :: r =>
      if Byte.eqb t (StaticUint32RawKind K)
      then ret (r, be32 c1 c2 c3 c4, None)
      else ret (b, 0, Some InvalidUint32)
  | _ => ret (b, 0, Some InvalidUint32)
  end.
Proof.
  unfold decodeStaticUint32.
  destruct b as [|t [|c1 [|c2 [|c3 [|c4 r]]]]]; run; reflexivity.
Qed.

Lemma decodeStaticUint32_ok (K : Registry) (b r : list byte) (n : Z) :
  decodeStaticUint32 K b = ret (r, n, None) <->
  exists c1 c2 c3 c4,
    b = StaticUint32RawKind K :: c1 :: c2 :: c3 :: c4 :: r /\
    n = be32 c1 c2 c3 c4.
Proof.
  rewrite decodeStaticUint32_eq. split.
  - destruct b as [|t [|c1 [|c2 [|c3 [|c4 r']]]]]; try discriminate.
    destruct (Byte.eqb t (StaticUint32RawKind K)) eqn:E; try discriminate.
    intro H. injection H as <- <-. apply byte_eqb_eq in E. subst t.
    now exists c1, c2, c3, c4.
  - intros (c1 & c2 & c3 & c4 & -> & ->). now rewrite byte_eqb_refl.
Qed.

Lemma decodeStaticUint32_total (K : Registry) (b : list byte) :
  (exists r n, decodeStaticUint32 K b = ret (r, n, None)) \/
  decodeStaticUint32 K b = ret (b, 0, Some InvalidUint32).
Proof.
  rewrite decodeStaticUint32_eq.
  destruct b as [|t [|c1 [|c2 [|c3 [|c4 r']]]]]; try (now right).
  destruct (Byte.eqb t (StaticUint32RawKind K)); [left|now right].
  now exists r', (be32 c1 c2 c3 c4).
Qed.

(** C8. [decodeSlice] succeeds exactly on a cursor made of the Slice tag,
    the expected element kind, and a StaticUint32 (its tag and four bytes
    c1 c2 c3 c4); it then returns the count these bytes denote, the
    big-endian number with the base-256 digits c1 c2 c3 c4 (c1 the most
    significant), and the cursor just past these seven header bytes: no
    element byte is consumed.  On every other cursor it returns [InvalidSlice] with a zero
    count.  [decodeMap] does the same with the Map tag, the expected key
    kind and the expected value kind before the StaticUint32, and
    [InvalidMap]. *)
Theorem decode_header_framing (K : Registry) :
  (forall b kind r n,
     decodeSlice K b kind = ret (r, n, None) <->
     exists c1 c2 c3 c4,
       b = SliceRawKind K :: kind :: StaticUint32RawKind K
             :: c1 :: c2 :: c3 :: c4 :: r /\
       n = u8 c1 * 2 ^ 24 + u8 c2 * 2 ^ 16 + u8 c3 * 2 ^ 8 + u8 c4) /\
  (forall b kind,
     (exists r n, decodeSlice K b kind = ret (r, n, None)) \/
     (exists r, decodeSlice K b kind = ret (r, 0, Some InvalidSlice))) /\
  (forall b keyKind valueKind r n,
     decodeMap K b keyKind valueKind = ret (r, n, None) <->
     exists c1 c2 c3 c4,
       b = MapRawKind K :: keyKind :: valueKind :: StaticUint32RawKind K
             :: c1 :: c2 :: c3 :: c4 :: r /\
       n = u8 c1 * 2 ^ 24 + u8 c2 * 2 ^ 16 + u8 c3 * 2 ^ 8 + u8 c4) /\
  (forall b keyKind valueKind,
     (exists r n, decodeMap K b keyKind valueKind = ret (r, n, None)) \/
     (exists r, decodeMap K b keyKind valueKind
                = ret (r, 0, Some InvalidMap))).
Proof.
  split; [|split; [|split]].
  - intros b kind r n. unfold decodeSlice.
    destruct b as [|t [|k p]]; run;
      try (split; [discriminate | intros (? & ? & ? & ? & ? & _); discriminate]).
    destruct (Byte.eqb t (SliceRawKind K)) eqn:Et;
      [destruct (Byte.eqb k kind) eqn:Ek|].
    + apply byte_eqb_eq in Et, Ek. subst t k.
      destruct (decodeStaticUint32_total K p) as [(r' & n' & H)|H].
      * rewrite H. cbn. apply decodeStaticUint32_ok in H.
        destruct H as (c1 & c2 & c3 & c4 & -> & ->).
        rewrite be32_value. split.
        -- intro E. injection E as <- <-. now exists c1, c2, c3, c4.
        -- intros (d1 & d2 & d3 & d4 & E & ->). now injection E as <- <- <- <- <-.
      * rewrite H. cbn. split; [discriminate|].
        intros (d1 & d2 & d3 & d4 & E & ->). injection E as ->.
        rewrite decodeStaticUint32_eq, byte_eqb_refl in H. discriminate.
    + split; [discriminate|]. intros (? & ? & ? & ? & E & _).
      injection E as _ E _. subst k. apply Byte.eqb_false in Ek. contradiction.
    + split; [discriminate|]. intros (? & ? & ? & ? & E & _).
      injection E as E _. subst t. apply Byte.eqb_false in Et. contradiction.
  - intros b kind. unfold decodeSlice.
    destruct b as [|t [|k p]]; run; try (right; eexists; reflexivity).
    destruct (Byte.eqb t (SliceRawKind K));
      [destruct (Byte.eqb k kind)|]; try (right; eexists; reflexivity).
    destruct (decodeStaticUint32_total K p) as [(r' & n' & H)|H];
      rewrite H; cbn; [left|right]; repeat eexists.
  - intros b kk vk r n. unfold decodeMap.
    destruct b as [|t [|k [|v p]]]; run;
      try (split; [discriminate | intros (? & ? & ? & ? & ? & _); discriminate]).
    destruct (Byte.eqb t (MapRawKind K)) eqn:Et;
      [destruct (Byte.eqb k kk) eqn:Ek; [destruct (Byte.eqb v vk) eqn:Ev|]|].
    + apply byte_eqb_eq in Et, Ek, Ev. subst t k v.
      destruct (decodeStaticUint32_total K p) as [(r' & n' & H)|H].
      * rewrite H. cbn. apply decodeStaticUint32_ok in H.
        destruct H as (c1 & c2 & c3 & c4 & -> & ->).
        rewrite be32_value. split.
        -- intro E. injection E as <- <-. now exists c1, c2, c3, c4.
        -- intros (d1 & d2 & d3 & d4 & E & ->). now injection E as <- <- <- <- <-.
      * rewrite H. cbn. split; [discriminate|].
        intros (d1 & d2 & d3 & d4 & E & ->). injection E as ->.
        rewrite decodeStaticUint32_eq, byte_eqb_refl in H. discriminate.
    + split; [discriminate|]. intros (? & ? & ? & ? & E & _).
      injection E as _ _ E _. subst v. apply Byte.eqb_false in Ev. contradiction.
    + split; [discriminate|]. intros (? & ? & ? & ? & E & _).
      injection E as _ E _. subst k. apply Byte.eqb_false in Ek. contradiction.
    + split; [discriminate|]. intros (? & ? & ? & ? & E & _).
      injection E as E _. subst t. apply Byte.eqb_false in Et. contradiction.
  - intros b kk vk. unfold decodeMap.
    destruct b as [|t [|k [|v p]]]; run; try (right; eexists; reflexivity).
    destruct (Byte.eqb t (MapRawKind K));
      [destruct (Byte.eqb k kk); [destruct (Byte.eqb v vk)|]|];
      try (right; eexists; reflexivity).
    destruct (decodeStaticUint32_total K p) as [(r' & n' & H)|H];
      rewrite H; cbn; [left|right]; repeat eexists.
Qed.

Lemma decode_header_framing_witness :
  decodeSlice sampleRegistry [x02; x04; x0a; x00; x00; x00; x03; x2a] x04
  = ret ([x2a], 3, None).
Proof.
  apply (proj1 (decode_header_framing sampleRegistry)).
  exists x00, x00, x00, x03. split; reflexivity.
Defined.

(** ** Signed integers *)

Ltac in_range :=
  repeat first
    [ apply lor_range; [lia| |]
    | apply shl_range; lia
    | match goal with
      | |- 0 <= u8 ?c < _ => pose proof (u8_range c); lia
      | |- 0 <= Z.land (u8 ?c) _ < _ => pose proof (low7_range c); lia
      end ].

Lemma decodeInt32_lockstep (K : Registry) (p : list byte) :
  match decodeUint32 K (Uint32RawKind K :: p) with
  | Some (r, u, None) =>
      decodeInt32 K (Int32RawKind K :: p) = ret (r, zigzag_decode u, None)
  | Some (_, _, Some _) =>
      decodeInt32 K (Int32RawKind K :: p)
      = ret (Int32RawKind K :: p, 0, Some InvalidInt32)
  | None => decodeInt32 K (Int32RawKind K :: p) = panic
  end.
Proof.
  unfold decodeUint32, decodeInt32.
  destruct p as [|c1 p]; run; [reflexivity|]. rewrite !byte_eqb_refl.
  destruct (u8 c1 <? continuation).
  { rewrite unzigzag_exact; [reflexivity|lia|in_range]. }
  destruct p as [|c2 p]; run; [reflexivity|].
  destruct (u8 c2 <? continuation).
  { rewrite unzigzag_exact; [reflexivity|lia|in_range]. }
  destruct p as [|c3 p]; run; [reflexivity|].
  destruct (u8 c3 <? continuation).
  { rewrite unzigzag_exact; [reflexivity|lia|in_range]. }
  destruct p as [|c4 p]; run; [reflexivity|].
  destruct (u8 c4 <? continuation).
  { rewrite unzigzag_exact; [reflexivity|lia|in_range]. }
  destruct p as [|c5 p]; run; [reflexivity|].
  destruct (u8 c5 <? continuation).
  { rewrite unzigzag_exact; [reflexivity|lia|in_range]. }
  reflexivity.
Qed.

Lemma decodeInt64_loop_lockstep (t t' : byte) (p : list byte)
  (ixs : list nat) (x s : Z) :
  Forall (fun i => 1 <= i)%nat ixs ->
  0 <= x < 2 ^ 64 ->
  match decodeUint64_loop (t :: p) ixs x s with
  | Some (r, u, None) =>
      decodeInt64_loop (t' :: p) ixs x s = ret (r, zigzag_decode u, None)
  | Some (_, _, Some _) =>
      decodeInt64_loop (t' :: p) ixs x s
      = ret (t' :: p, 0, Some InvalidInt64)
  | None => decodeInt64_loop (t' :: p) ixs x s = panic
  end.
Proof.
  intro Hix. revert x s.
  induction Hix as [|i ixs Hi Hix IH]; intros x s Hx; [reflexivity|].
  destruct i as [|j]; [lia|].
  cbn [decodeUint64_loop decodeInt64_loop]. run.
  destruct (nth_error p j) as [cb|]; [|reflexivity].
  destruct (u8 cb <? continuation).
  - destruct ((VarIntLen64 <=? j)%nat && (1 <? u8 cb)); [reflexivity|].
    cbn [Nat.add length Nat.leb skipn].
    destruct (j + 1 <=? length p)%nat; [|reflexivity].
    rewrite unzigzag_exact; [reflexivity|lia|in_range; lia].
  - apply IH. in_range; lia.
Qed.

Lemma decodeInt64_lockstep (K : Registry) (p : list byte) :
  match decodeUint64 K (Uint64RawKind K :: p) with
  | Some (r, u, None) =>
      decodeInt64 K (Int64RawKind K :: p) = ret (r, zigzag_decode u, None)
  | Some (_, _, Some _) =>
      decodeInt64 K (Int64RawKind K :: p)
      = ret (Int64RawKind K :: p, 0, Some InvalidInt64)
  | None => decodeInt64 K (Int64RawKind K :: p) = panic
  end.
Proof.
  unfold decodeUint64, decodeInt64.
  destruct p as [|c1 p]; run; [reflexivity|]. rewrite !byte_eqb_refl.
  apply decodeInt64_loop_lockstep; [|lia].
  unfold VarIntLen64. cbn [seq]. repeat constructor; lia.
Qed.

(** ** Unsigned varints *)

Lemma decodeUint16_loop_eq (b : list byte) (ixs : list nat) (x s : Z) :
  decodeUint16_loop b ixs x s
  = varint_loop 16 VarIntLen16 InvalidUint32 InvalidUint16 b ixs x s.
Proof.
  revert x s. induction ixs as [|i ixs IH]; intros x s; [reflexivity|].
  cbn [decodeUint16_loop varint_loop]. unfold bind.
  destruct (index b i) as [cb|]; [|reflexivity].
  destruct (u8 cb <? continuation); [reflexivity|apply IH].
Qed.

Lemma decodeUint64_loop_eq (b : list byte) (ixs : list nat) (x s : Z) :
  decodeUint64_loop b ixs x s
  = varint_loop 64 VarIntLen64 InvalidUint64 InvalidUint64 b ixs x s.
Proof.
  revert x s. induction ixs as [|i ixs IH]; intros x s; [reflexivity|].
  cbn [decodeUint64_loop varint_loop]. unfold bind.
  destruct (index b i) as [cb|]; [|reflexivity].
  destruct (u8 cb <? continuation); [reflexivity|apply IH].
Qed.

Lemma first_group (c : byte) :
  Z.lor 0 (shl 32 (Z.land (u8 c) (continuation - 1)) 0)
  = Z.land (u8 c) (continuation - 1).
Proof.
  unfold shl. rewrite Z.shiftl_0_r, Z.lor_0_l. apply wrap_small.
  pose proof (low7_range c). lia.
Qed.

Lemma first_byte (c : byte) : Z.lor 0 (shl 32 (u8 c) 0) = u8 c.
Proof.
  unfold shl. rewrite Z.shiftl_0_r, Z.lor_0_l. apply wrap_small.
  pose proof (u8_range c). lia.
Qed.

(** The unrolled [decodeUint32] is the loop at width 32 over the five
    positions 1, ..., 5. *)
Lemma decodeUint32_unrolled (K : Registry) (b : list byte) :
  decodeUint32 K b =
  (c <- and_then (1 <? len b) (index_is b 0 (Uint32RawKind K)) ;;
   if c then
     varint_loop 32 VarIntLen32 InvalidUint32 InvalidUint32 b
       (seq 1 VarIntLen32) 0 0
   else ret (b, 0, Some InvalidUint32)).
Proof.
  unfold decodeUint32, VarIntLen32. cbn [seq varint_loop].
  destruct b as [|t [|c1 p]]; run; try reflexivity.
  destruct (Byte.eqb t (Uint32RawKind K)); [|reflexivity].
  rewrite first_byte, first_group. cbn [Z.add Pos.add Pos.succ].
  destruct (u8 c1 <? continuation); [reflexivity|].
  destruct p as [|c2 p]; run; [reflexivity|].
  destruct (u8 c2 <? continuation); [reflexivity|].
  destruct p as [|c3 p]; run; [reflexivity|].
  destruct (u8 c3 <? continuation); [reflexivity|].
  destruct p as [|c4 p]; run; [reflexivity|].
  destruct (u8 c4 <? continuation); [reflexivity|].
  destruct p as [|c5 p]; run; [reflexivity|].
  destruct (u8 c5 <? continuation); reflexivity.
Qed.

Section VarintLoop.

Variables (w : Z) (maxlen : nat) (e_overflow e_end : error).
Hypothesis w_nonneg : 0 <= w.

Let loop := varint_loop w maxlen e_overflow e_end.

Lemma index_app_here (pre post : list byte) :
  index (pre ++ post) (length pre) = nth_error post 0.
Proof.
  unfold index. rewrite nth_error_app2 by lia. now rewrite Nat.sub_diag.
Qed.

Lemma slice_from_app_next (pre rest : list byte) (t : byte) :
  slice_from (pre ++ t :: rest) (length pre + 1) = ret rest.
Proof.
  unfold slice_from.
  replace (length pre + 1 <=? length (pre ++ t :: rest))%nat with true.
  - replace (pre ++ t :: rest) with ((pre ++ [t]) ++ rest)
      by now rewrite <- app_assoc.
    replace (length pre + 1)%nat with (length (pre ++ [t]))
      by now rewrite length_app.
    now rewrite skipn_app, Nat.sub_diag, skipn_all.
  - symmetry. apply Nat.leb_le. rewrite length_app. simpl. lia.
Qed.

(** A varint that ends within the positions the loop still visits is
    decoded to the accumulated value, cut to [w] bits; the test on the
    last byte plays no part, since no position exceeds [maxlen]. *)
Lemma varint_loop_value (conts pre rest : list byte) (t : byte)
  (n : nat) (x s : Z) :
  Forall continues conts ->
  u8 t < continuation ->
  (length conts < n)%nat ->
  (length pre + n <= maxlen + 1)%nat ->
  loop (pre ++ conts ++ t :: rest) (seq (length pre) n) x s
  = ret (rest, Z.lor x (wrap w (varint_value (conts ++ [t]) s)), None).
Proof.
  intros Hc Ht. revert pre n x s.
  induction Hc as [|c cs Hc Hcs IH]; intros pre n x s Hn Hmax.
  - destruct n as [|n]; [simpl in Hn; lia|].
    cbn [app seq]. unfold loop. cbn [varint_loop].
    rewrite index_app_here. cbn [nth_error bind].
    apply Z.ltb_lt in Ht. rewrite Ht.
    replace (maxlen <? length pre)%nat with false
      by (symmetry; apply Nat.ltb_ge; lia).
    cbn [andb]. rewrite slice_from_app_next. cbn [bind ret varint_value].
    rewrite Z.lor_0_r. apply Z.ltb_lt in Ht.
    change 127 with (continuation - 1). now rewrite low7_small.
  - destruct n as [|n]; [simpl in Hn; lia|].
    cbn [app seq]. unfold loop. cbn [varint_loop].
    rewrite index_app_here. cbn [nth_error bind].
    replace (u8 c <? continuation) with false
      by (symmetry; apply Z.ltb_ge; exact Hc).
    replace (pre ++ c :: cs ++ t :: rest)
      with ((pre ++ [c]) ++ cs ++ t :: rest) by now rewrite <- app_assoc.
    replace (S (length pre)) with (length (pre ++ [c]))
      by (rewrite length_app; simpl; lia).
    fold loop. rewrite IH.
    + cbn [varint_value]. rewrite wrap_lor by assumption.
      rewrite Z.lor_assoc. reflexivity.
    + simpl in Hn. lia.
    + rewrite length_app. simpl. lia.
Qed.

(** A cursor that ends inside a varint: the loop indexes past its end. *)
Lemma varint_loop_truncated (conts pre : list byte) (n : nat) (x s : Z) :
  Forall continues conts ->
  (length conts < n)%nat ->
  loop (pre ++ conts) (seq (length pre) n) x s = panic.
Proof.
  intros Hc. revert pre n x s.
  induction Hc as [|c cs Hc Hcs IH]; intros pre n x s Hn.
  - destruct n as [|n]; [simpl in Hn; lia|].
    cbn [seq]. unfold loop. cbn [varint_loop].
    rewrite index_app_here. reflexivity.
  - destruct n as [|n]; [simpl in Hn; lia|].
    cbn [seq]. unfold loop. cbn [varint_loop].
    rewrite index_app_here. cbn [nth_error bind].
    replace (u8 c <? continuation) with false
      by (symmetry; apply Z.ltb_ge; exact Hc).
    replace (pre ++ c :: cs) with ((pre ++ [c]) ++ cs)
      by now rewrite <- app_assoc.
    replace (S (length pre)) with (length (pre ++ [c]))
      by (rewrite length_app; simpl; lia).
    fold loop. apply IH. simpl in Hn. lia.
Qed.

(** The overflow test [i > maxlen && cb > 1] never fires: the loop visits
    no position beyond [maxlen].  An error can only come from running out
    of positions. *)
Lemma varint_loop_error (b r : list byte) (ixs : list nat) (x s v : Z)
  (e : error) :
  Forall (fun i => i <= maxlen)%nat ixs ->
  loop b ixs x s = ret (r, v, Some e) ->
  r = b /\ v = 0 /\ e = e_end /\
  Forall (fun i => exists c, index b i = Some c /\ continues c) ixs.
Proof.
  intro Hix. revert x s.
  induction Hix as [|i ixs Hi Hix IH]; intros x s; unfold loop.
  - cbn [varint_loop]. intro H. injection H as <- <- <-. auto.
  - cbn [varint_loop]. unfold bind.
    destruct (index b i) as [cb|] eqn:Ecb; [|discriminate].
    destruct (u8 cb <? continuation) eqn:E.
    + replace (maxlen <? i)%nat with false
        by (symmetry; apply Nat.ltb_ge; lia).
      cbn [andb]. destruct (slice_from b (i + 1)); discriminate.
    + intro H. apply IH in H. destruct H as (-> & -> & -> & H).
      repeat split. constructor; [|assumption].
      exists cb. split; [exact Ecb|]. now apply Z.ltb_ge in E.
Qed.

End VarintLoop.

Lemma guard_tag (tag : byte) (p : list byte) :
  p <> [] ->
  and_then (1 <? len (tag :: p)) (index_is (tag :: p) 0 tag) = ret true.
Proof.
  intro Hp. destruct p as [|c p]; [contradiction|].
  run. now rewrite byte_eqb_refl.
Qed.

Lemma app_cons_not_nil (conts rest : list byte) (t : byte) :
  conts ++ t :: rest <> [].
Proof. destruct conts; discriminate. Qed.

(** The three unsigned decoders on a varint that ends within the
    maximum byte count of its width. *)
Lemma decodeUint16_value (K : Registry) (conts rest : list byte) (t : byte) :
  Forall continues conts -> u8 t < continuation ->
  (length conts < VarIntLen16)%nat ->
  decodeUint16 K (Uint16RawKind K :: conts ++ t :: rest)
  = ret (rest, wrap 16 (varint_value (conts ++ [t]) 0), None).
Proof.
  intros Hc Ht Hn. unfold decodeUint16.
  rewrite guard_tag by apply app_cons_not_nil. cbn [bind ret].
  rewrite decodeUint16_loop_eq.
  rewrite (varint_loop_value 16 VarIntLen16 _ _ ltac:(lia)
             conts [Uint16RawKind K] rest t);
    try assumption; [now rewrite Z.lor_0_l|cbn [length]; lia].
Qed.

Lemma decodeUint32_value (K : Registry) (conts rest : list byte) (t : byte) :
  Forall continues conts -> u8 t < continuation ->
  (length conts < VarIntLen32)%nat ->
  decodeUint32 K (Uint32RawKind K :: conts ++ t :: rest)
  = ret (rest, wrap 32 (varint_value (conts ++ [t]) 0), None).
Proof.
  intros Hc Ht Hn.
  rewrite decodeUint32_unrolled, guard_tag by apply app_cons_not_nil.
  cbn [bind ret].
  rewrite (varint_loop_value 32 VarIntLen32 _ _ ltac:(lia)
             conts [Uint32RawKind K] rest t);
    try assumption; [now rewrite Z.lor_0_l|cbn [length]; lia].
Qed.

Lemma decodeUint64_value (K : Registry) (conts rest : list byte) (t : byte) :
  Forall continues conts -> u8 t < continuation ->
  (length conts < VarIntLen64)%nat ->
  decodeUint64 K (Uint64RawKind K :: conts ++ t :: rest)
  = ret (rest, wrap 64 (varint_value (conts ++ [t]) 0), None).
Proof.
  intros Hc Ht Hn. unfold decodeUint64.
  rewrite guard_tag by apply app_cons_not_nil. cbn [bind ret].
  rewrite decodeUint64_loop_eq.
  rewrite (varint_loop_value 64 VarIntLen64 _ _ ltac:(lia)
             conts [Uint64RawKind K] rest t);
    try assumption; [now rewrite Z.lor_0_l|cbn [length]; lia].
Qed.

(** C9. An unsigned varint is decoded by accumulating the low 7 bits of
    each byte at the bit offsets 0, 7, 14, ... and stops at the first byte
    whose high bit is clear: for continuation bytes [conts] (fewer than
    the maximum byte count of the width) followed by a byte [t] below
    0x80, [decodeUint32] returns that accumulated value, as a 32-bit
    number, and the cursor just after [t]; [decodeUint16] and
    [decodeUint64] do the same at their widths.  In particular the Uint32
    tag followed by 0xAC, 0x02 decodes to 300 with nothing remaining. *)
Theorem varint_decode_accumulates (K : Registry) :
  (forall conts t rest,
     Forall continues conts -> u8 t < continuation ->
     (length conts < VarIntLen32)%nat ->
     decodeUint32 K (Uint32RawKind K :: conts ++ t :: rest)
     = ret (rest, wrap 32 (varint_value (conts ++ [t]) 0), None)) /\
  (forall conts t rest,
     Forall continues conts -> u8 t < continuation ->
     (length conts < VarIntLen16)%nat ->
     decodeUint16 K (Uint16RawKind K :: conts ++ t :: rest)
     = ret (rest, wrap 16 (varint_value (conts ++ [t]) 0), None)) /\
  (forall conts t rest,
     Forall continues conts -> u8 t < continuation ->
     (length conts < VarIntLen64)%nat ->
     decodeUint64 K (Uint64RawKind K :: conts ++ t :: rest)
     = ret (rest, wrap 64 (varint_value (conts ++ [t]) 0), None)) /\
  decodeUint32 K [Uint32RawKind K; xac; x02] = ret ([], 300, None).
Proof.
  split; [|split; [|split]].
  - intros. now apply decodeUint32_value.
  - intros. now apply decodeUint16_value.
  - intros. now apply decodeUint64_value.
  - apply (decodeUint32_value K [xac] [] x02).
    + repeat constructor. unfold continues. now vm_compute.
    + now vm_compute.
    + unfold VarIntLen32. simpl. lia.
Qed.

Lemma varint_decode_accumulates_witness :
  decodeUint32 sampleRegistry [x09; xe5; x8e; x26]
  = ret ([], wrap 32 (varint_value [xe5; x8e; x26] 0), None).
Proof.
  apply (proj1 (varint_decode_accumulates sampleRegistry) [xe5; x8e] x26 []).
  - repeat constructor; unfold continues; vm_compute; discriminate.
  - vm_compute. reflexivity.
  - vm_compute. lia.
Defined.

(** ** Decoders that never panic *)

Lemma be32_range (c1 c2 c3 c4 : byte) : 0 <= be32 c1 c2 c3 c4 < 2 ^ 32.
Proof. unfold be32. in_range. Qed.

(** The guard [len(b) > int(size)-1] keeps [b[:size]] and [b[size:]] in
    range. *)
Lemma slice_guard (b : list byte) (n : Z) :
  0 <= n -> (n - 1 <? len b) = true ->
  (Z.to_nat n <=? length b)%nat = true.
Proof.
  intros Hn H. apply Z.ltb_lt in H. unfold len in H.
  apply Nat.leb_le. lia.
Qed.

(** [decodeString] never indexes or slices outside its cursor. *)
Lemma decodeString_total (K : Registry) (b : list byte) :
  exists o, decodeString K b = ret o.
Proof.
  unfold decodeString. destruct b as [|t p]; run; [eexists; reflexivity|].
  destruct (Byte.eqb t (StringRawKind K)); [|eexists; reflexivity].
  destruct (decodeStaticUint32_total K p) as [(r & n & H)|H]; rewrite H;
    cbn [bind ret]; [|eexists; reflexivity].
  apply decodeStaticUint32_ok in H. destruct H as (c1 & c2 & c3 & c4 & _ & ->).
  destruct (be32 c1 c2 c3 c4 - 1 <? len r) eqn:E; [|eexists; reflexivity].
  pose proof (be32_range c1 c2 c3 c4) as Hr.
  rewrite (slice_guard r _ (proj1 Hr) E). eexists; reflexivity.
Qed.

(** The decoders of the fixed-width kinds, of the container headers, of
    strings and of errors return on every cursor: no index and no slice
    expression of theirs is evaluated out of range. *)
Lemma fixed_decoders_total (K : Registry) (b : list byte) :
  (exists o, decodeNil K b = ret o) /\
  (exists o, decodeStaticUint32 K b = ret o) /\
  (forall k v, exists o, decodeMap K b k v = ret o) /\
  (forall k, exists o, decodeSlice K b k = ret o) /\
  (exists o, decodeString K b = ret o) /\
  (exists o, decodeError K b = ret o) /\
  (exists o, decodeBool K b = ret o) /\
  (exists o, decodeUint8 K b = ret o) /\
  (exists o, decodeFloat32 K b = ret o) /\
  (exists o, decodeFloat64 K b = ret o).
Proof.
  repeat split.
  - unfold decodeNil. destruct b as [|t p]; run; [eexists; reflexivity|].
    destruct (Byte.eqb t (NilRawKind K)); eexists; reflexivity.
  - destruct (decodeStaticUint32_total K b) as [(r & n & H)|H];
      rewrite H; eexists; reflexivity.
  - intros k v. unfold decodeMap.
    destruct b as [|t [|k' [|v' p]]]; run; try (eexists; reflexivity).
    destruct (Byte.eqb t (MapRawKind K));
      [destruct (Byte.eqb k' k); [destruct (Byte.eqb v' v)|]|];
      try (eexists; reflexivity).
    destruct (decodeStaticUint32_total K p) as [(r & n & H)|H];
      rewrite H; eexists; reflexivity.
  - intros k. unfold decodeSlice.
    destruct b as [|t [|k' p]]; run; try (eexists; reflexivity).
    destruct (Byte.eqb t (SliceRawKind K));
      [destruct (Byte.eqb k' k)|]; try (eexists; reflexivity).
    destruct (decodeStaticUint32_total K p) as [(r & n & H)|H];
      rewrite H; eexists; reflexivity.
  - apply decodeString_total.
  - unfold decodeError. destruct b as [|t p]; run; [eexists; reflexivity|].
    destruct (Byte.eqb t (ErrorRawKind K)); [|eexists; reflexivity].
    destruct (decodeString_total K p) as [[[r val] [e|]] H]; rewrite H;
      eexists; reflexivity.
  - unfold decodeBool. destruct b as [|t [|c1 p]]; run;
      try (eexists; reflexivity).
    destruct (Byte.eqb t (BoolRawKind K));
      [destruct (Byte.eqb c1 (trueBool K))|]; eexists; reflexivity.
  - unfold decodeUint8. destruct b as [|t [|c1 p]]; run;
      try (eexists; reflexivity).
    destruct (Byte.eqb t (Uint8RawKind K)); eexists; reflexivity.
  - unfold decodeFloat32.
    destruct b as [|t [|c1 [|c2 [|c3 [|c4 p]]]]]; run;
      try (eexists; reflexivity).
    destruct (Byte.eqb t (Float32RawKind K)); eexists; reflexivity.
  - unfold decodeFloat64.
    destruct b as [|t [|c1 [|c2 [|c3 [|c4 [|c5 [|c6 [|c7 [|c8 p]]]]]]]]];
      run; try (eexists; reflexivity).
    destruct (Byte.eqb t (Float64RawKind K)); eexists; reflexivity.
Qed.

(** ** Truncated and overlong varints *)

(** A cursor that stops after one or more continuation bytes, before the
    varint has ended, makes each unsigned varint decoder index past the end
    of the cursor. *)
Lemma unsigned_truncated_panics (K : Registry) (conts : list byte) :
  conts <> [] -> Forall continues conts ->
  ((length conts < VarIntLen16)%nat ->
   decodeUint16 K (Uint16RawKind K :: conts) = panic) /\
  ((length conts < VarIntLen32)%nat ->
   decodeUint32 K (Uint32RawKind K :: conts) = panic) /\
  ((length conts < VarIntLen64)%nat ->
   decodeUint64 K (Uint64RawKind K :: conts) = panic).
Proof.
  intros Hne Hc. repeat split; intro Hn.
  - unfold decodeUint16. rewrite guard_tag by assumption. cbn [bind ret].
    rewrite decodeUint16_loop_eq.
    now apply (varint_loop_truncated 16 VarIntLen16 _ _
                 conts [Uint16RawKind K]).
  - rewrite decodeUint32_unrolled, guard_tag by assumption. cbn [bind ret].
    now apply (varint_loop_truncated 32 VarIntLen32 _ _
                 conts [Uint32RawKind K]).
  - unfold decodeUint64. rewrite guard_tag by assumption. cbn [bind ret].
    rewrite decodeUint64_loop_eq.
    now apply (varint_loop_truncated 64 VarIntLen64 _ _
                 conts [Uint64RawKind K]).
Qed.

(** Evaluate a decoder on a cursor given byte by byte. *)
Ltac eval_decoder :=
  cbv [decodeUint16 decodeUint32 decodeUint64 decodeInt32 decodeInt64
       decodeMap decodeSlice decodeString decodeError decodeStaticUint32
       decodeUint16_loop decodeUint64_loop decodeInt64_loop
       VarIntLen16 VarIntLen32 VarIntLen64 seq];
  run; rewrite ?byte_eqb_refl; cbv beta iota;
  repeat (run; rewrite ?byte_eqb_refl; cbv beta iota).

(** C1. The varint decoders check only that two bytes are present and
    then index the cursor at every position up to the end of the varint.
    The two-byte varint 0x80 0x01 decodes to 128; cut after its first
    byte, it makes [decodeUint16] panic (index out of range) instead of
    returning an error, and the same cursor panics in every other varint
    decoder. *)
Theorem varint_truncation_panics (K : Registry) :
  decodeUint16 K [Uint16RawKind K; x80; x01] = ret ([], 128, None) /\
  decodeUint16 K [Uint16RawKind K; x80] = panic /\
  decodeUint32 K [Uint32RawKind K; x80] = panic /\
  decodeUint64 K [Uint64RawKind K; x80] = panic /\
  decodeInt32 K [Int32RawKind K; x80] = panic /\
  decodeInt64 K [Int64RawKind K; x80] = panic.
Proof.
  repeat split; eval_decoder; reflexivity.
Qed.

(** The overflow test of the loops is unreachable: whenever
    [decodeUint16] or [decodeUint64] returns an error, it is the error of
    the last [return], with the cursor it was given. *)
Lemma loop_overflow_test_dead (K : Registry) (b r : list byte) (v : Z)
  (e : error) :
  (decodeUint16 K b = ret (r, v, Some e) -> r = b /\ e = InvalidUint16) /\
  (decodeUint64 K b = ret (r, v, Some e) -> r = b /\ e = InvalidUint64).
Proof.
  assert (H16 : Forall (fun i => i <= VarIntLen16)%nat (seq 1 VarIntLen16))
    by (unfold VarIntLen16; cbn [seq]; repeat constructor).
  assert (H64 : Forall (fun i => i <= VarIntLen64)%nat (seq 1 VarIntLen64))
    by (unfold VarIntLen64; cbn [seq]; repeat constructor; lia).
  split.
  - unfold decodeUint16.
    destruct (and_then (1 <? len b) (index_is b 0 (Uint16RawKind K)))
      as [[|]|]; cbn [bind]; try discriminate.
    + rewrite decodeUint16_loop_eq. intro H.
      apply varint_loop_error in H; [tauto|exact H16].
    + intro H. now injection H as <- <- <-.
  - unfold decodeUint64.
    destruct (and_then (1 <? len b) (index_is b 0 (Uint64RawKind K)))
      as [[|]|]; cbn [bind]; try discriminate.
    + rewrite decodeUint64_loop_eq. intro H.
      apply varint_loop_error in H; [tauto|exact H64].
    + intro H. now injection H as <- <- <-.
Qed.

(** The value of a varint whose last byte has fewer than [j] significant
    bits stays below 2^(offset + 7 * groups + j). *)
Lemma varint_value_range (conts : list byte) (t : byte) (s j : Z) :
  0 <= s -> 0 <= j -> u8 t < continuation -> u8 t < 2 ^ j ->
  0 <= varint_value (conts ++ [t]) s
    < 2 ^ (s + 7 * Z.of_nat (length conts) + j).
Proof.
  intros Hs Hj Ht Htj. revert s Hs.
  induction conts as [|c cs IH]; intros s Hs.
  - cbn [app varint_value length]. rewrite Z.lor_0_r.
    change 127 with (continuation - 1). rewrite low7_small by assumption.
    rewrite Z.shiftl_mul_pow2 by assumption.
    replace (s + 7 * Z.of_nat 0 + j) with (j + s) by lia.
    rewrite Z.pow_add_r by assumption.
    pose proof (u8_range t).
    assert (0 < 2 ^ s) by (apply Z.pow_pos_nonneg; lia). nia.
  - cbn [app varint_value]. apply lor_range.
    + lia.
    + change 127 with (continuation - 1). pose proof (low7_range c) as Hl.
      rewrite Z.shiftl_mul_pow2 by assumption.
      assert (0 < 2 ^ s) by (apply Z.pow_pos_nonneg; lia).
      split; [nia|].
      apply Z.lt_le_trans with (2 ^ (7 + s)).
      * rewrite Z.pow_add_r by lia. change (2 ^ 7) with 128. nia.
      * apply Z.pow_le_mono_r; [lia|]. cbn [length]. lia.
    + replace (s + 7 * Z.of_nat (length (c :: cs)) + j)
        with (s + 7 + 7 * Z.of_nat (length cs) + j)
        by (cbn [length]; lia).
      apply IH. lia.
Qed.

(** At the maximum byte count the last byte carries the bits that remain
    in the width: two at 16 bits, four at 32 bits, one at 64 bits.  A last
    byte within that bound (at most 3, 15 and 1) is accepted, and the
    decoder returns the accumulated value exactly, with no bit lost. *)
Lemma varint_last_byte_within_width (K : Registry) :
  (forall conts t rest,
     Forall continues conts -> length conts = 2%nat -> u8 t <= 3 ->
     decodeUint16 K (Uint16RawKind K :: conts ++ t :: rest)
     = ret (rest, varint_value (conts ++ [t]) 0, None)) /\
  (forall conts t rest,
     Forall continues conts -> length conts = 4%nat -> u8 t <= 15 ->
     decodeUint32 K (Uint32RawKind K :: conts ++ t :: rest)
     = ret (rest, varint_value (conts ++ [t]) 0, None)) /\
  (forall conts t rest,
     Forall continues conts -> length conts = 9%nat -> u8 t <= 1 ->
     decodeUint64 K (Uint64RawKind K :: conts ++ t :: rest)
     = ret (rest, varint_value (conts ++ [t]) 0, None)).
Proof.
  repeat split; intros conts t rest Hc Hn Ht.
  - rewrite decodeUint16_value;
      [|assumption|unfold continuation; lia|unfold VarIntLen16; lia].
    rewrite wrap_small; [reflexivity|].
    pose proof (varint_value_range conts t 0 2) as H. rewrite Hn in H.
    apply H; try lia; unfold continuation; lia.
  - rewrite decodeUint32_value;
      [|assumption|unfold continuation; lia|unfold VarIntLen32; lia].
    rewrite wrap_small; [reflexivity|].
    pose proof (varint_value_range conts t 0 4) as H. rewrite Hn in H.
    apply H; try lia; unfold continuation; lia.
  - rewrite decodeUint64_value;
      [|assumption|unfold continuation; lia|unfold VarIntLen64; lia].
    rewrite wrap_small; [reflexivity|].
    pose proof (varint_value_range conts t 0 1) as H. rewrite Hn in H.
    apply H; try lia; unfold continuation; lia.
Qed.

Lemma varint_last_byte_within_width_witness :
  decodeUint32 sampleRegistry [x09; xff; xff; xff; xff; x0f]
  = ret ([], varint_value [xff; xff; xff; xff; x0f] 0, None).
Proof.
  apply (proj1 (proj2 (varint_last_byte_within_width sampleRegistry))
           [xff; xff; xff; xff] x0f []).
  - repeat constructor; unfold continues; vm_compute; discriminate.
  - reflexivity.
  - vm_compute. discriminate.
Defined.

(** At width 16 the third byte carries two bits: 0x03 is the last byte of
    the encoding of 65535, which decodes. *)
Lemma uint16_max_last_byte_3 :
  decodeUint16 sampleRegistry [x08; xff; xff; x03] = ret ([], 65535, None).
Proof. vm_compute. reflexivity. Qed.

(** C2. No varint decoder rejects a last byte that overflows the width.
    The test [i > VarIntLen && cb > 1] of the loops needs an index beyond
    the maximum byte count, which the loop never reaches, and
    [decodeUint32] has no test.  At 64 bits the tenth byte may carry one
    bit; the ten bytes 0x80 (nine times), 0x02 denote 2^64, the tenth byte
    exceeds 1, and [decodeUint64] returns 0 with no error instead of
    [InvalidUint64].  Likewise the encodings of 2^16 and of 2^32 decode to
    0.  In general a varint of the maximum byte count is accepted whatever
    its last byte is, the bits beyond the width are dropped, and the only
    error a loop ever returns is that of its last [return]. *)
Theorem varint_overflow_not_rejected (K : Registry) :
  varint_value [x80; x80; x80; x80; x80; x80; x80; x80; x80; x02] 0
  = 2 ^ 64 /\
  decodeUint64 K [Uint64RawKind K; x80; x80; x80; x80; x80; x80; x80; x80;
                  x80; x02]
  = ret ([], 0, None) /\
  decodeUint16 K [Uint16RawKind K; x80; x80; x04] = ret ([], 0, None) /\
  decodeUint32 K [Uint32RawKind K; x80; x80; x80; x80; x10]
  = ret ([], 0, None) /\
  (forall conts t rest,
     Forall continues conts -> u8 t < continuation ->
     (length conts = 2%nat ->
      decodeUint16 K (Uint16RawKind K :: conts ++ t :: rest)
      = ret (rest, varint_value (conts ++ [t]) 0 mod 2 ^ 16, None)) /\
     (length conts = 4%nat ->
      decodeUint32 K (Uint32RawKind K :: conts ++ t :: rest)
      = ret (rest, varint_value (conts ++ [t]) 0 mod 2 ^ 32, None)) /\
     (length conts = 9%nat ->
      decodeUint64 K (Uint64RawKind K :: conts ++ t :: rest)
      = ret (rest, varint_value (conts ++ [t]) 0 mod 2 ^ 64, None))) /\
  (forall b r v e,
     (decodeUint16 K b = ret (r, v, Some e) -> r = b /\ e = InvalidUint16) /\
     (decodeUint32 K b = ret (r, v, Some e) -> r = b /\ e = InvalidUint32) /\
     (decodeUint64 K b = ret (r, v, Some e) -> r = b /\ e = InvalidUint64)).
Proof.
  split; [reflexivity|].
  split; [eval_decoder; reflexivity|].
  split; [eval_decoder; reflexivity|].
  split; [eval_decoder; reflexivity|].
  split.
  - intros conts t rest Hc Ht. repeat split; intro Hn.
    + rewrite decodeUint16_value;
        [reflexivity|assumption|assumption|unfold VarIntLen16; lia].
    + rewrite decodeUint32_value;
        [reflexivity|assumption|assumption|unfold VarIntLen32; lia].
    + rewrite decodeUint64_value;
        [reflexivity|assumption|assumption|unfold VarIntLen64; lia].
  - intros b r v e.
    destruct (loop_overflow_test_dead K b r v e) as [H16 H64].
    split; [exact H16|]. split; [|exact H64].
    rewrite decodeUint32_unrolled. unfold varint_decode.
    destruct (and_then (1 <? len b) (index_is b 0 (Uint32RawKind K)))
      as [[|]|]; cbn [bind]; try discriminate.
    + intro H. apply varint_loop_error in H; [tauto|].
      unfold VarIntLen32. cbn [seq]. repeat constructor.
    + intro H. now injection H as <- <- <-.
Qed.

(** ** The cursor on error *)

(** C3. The compound decoders return an advanced cursor with their error
    when the inner decode fails: the result of the inner call overwrites
    [b] before the [return].  A Map header cut after its kind bytes comes
    back with the empty cursor, three bytes consumed; likewise for
    [decodeSlice], [decodeString] and [decodeError]; a String whose
    length prefix announces more bytes than remain comes back past the tag
    and the prefix; and [decodeBytes], on a Bytes tag without a length
    prefix, comes back with the header of [b[1:]]. *)
Theorem compound_error_cursor_advanced (growcap : nat -> nat -> nat)
  (K : Registry) (k v : Kind) :
  decodeMap K [MapRawKind K; k; v] k v = ret ([], 0, Some InvalidMap) /\
  decodeSlice K [SliceRawKind K; k] k = ret ([], 0, Some InvalidSlice) /\
  decodeString K [StringRawKind K]
  = ret ([], emptyString, Some InvalidString) /\
  decodeError K [ErrorRawKind K] = ret ([], None, Some InvalidError) /\
  decodeString K [StringRawKind K; StaticUint32RawKind K;
                  x00; x00; x00; x02; x41]
  = ret ([x41], emptyString, Some InvalidString) /\
  Mem.decodeBytes growcap K [[BytesRawKind K; x00]]
    (Mem.mkSlice (Some 0%nat) 0 2 2) Mem.nil_slice
  = ret ([[BytesRawKind K; x00]],
         (Mem.mkSlice (Some 0%nat) 1 1 1, Mem.nil_slice,
          Some InvalidBytes)).
Proof.
  repeat split; try (eval_decoder; reflexivity).
  unfold Mem.decodeBytes, Mem.decodeStaticUint32, Mem.reslice_from,
    Mem.index_is, Mem.index, and_then, bind, ret.
  cbn. rewrite !byte_eqb_refl. reflexivity.
Qed.

(** Where the cursor is kept: every decoder that does not call another
    one returns the cursor it was given whenever it returns an error. *)
Lemma primitive_error_cursor (K : Registry) (b r : list byte) (e : error) :
  (forall v, decodeStaticUint32 K b = ret (r, v, Some e) -> r = b) /\
  (forall v, decodeBool K b = ret (r, v, Some e) -> r = b) /\
  (forall v, decodeUint8 K b = ret (r, v, Some e) -> r = b) /\
  (forall v, decodeUint16 K b = ret (r, v, Some e) -> r = b) /\
  (forall v, decodeUint32 K b = ret (r, v, Some e) -> r = b) /\
  (forall v, decodeUint64 K b = ret (r, v, Some e) -> r = b) /\
  (forall v, decodeFloat32 K b = ret (r, v, Some e) -> r = b) /\
  (forall v, decodeFloat64 K b = ret (r, v, Some e) -> r = b).
Proof.
  repeat split; intro v.
  - rewrite decodeStaticUint32_eq.
    destruct b as [|t [|c1 [|c2 [|c3 [|c4 p]]]]];
      try (intro H; now injection H as <- _ _).
    destruct (Byte.eqb t (StaticUint32RawKind K)); [discriminate|].
    intro H; now injection H as <- _ _.
  - unfold decodeBool. destruct b as [|t [|c1 p]]; run;
      try (intro H; now injection H as <- _ _).
    destruct (Byte.eqb t (BoolRawKind K));
      [destruct (Byte.eqb c1 (trueBool K)); discriminate|].
    intro H; now injection H as <- _ _.
  - unfold decodeUint8. destruct b as [|t [|c1 p]]; run;
      try (intro H; now injection H as <- _ _).
    destruct (Byte.eqb t (Uint8RawKind K)); [discriminate|].
    intro H; now injection H as <- _ _.
  - intro H. now apply (loop_overflow_test_dead K) in H.
  - rewrite decodeUint32_unrolled.
    destruct (and_then (1 <? len b) (index_is b 0 (Uint32RawKind K)))
      as [[|]|]; cbn [bind]; try discriminate.
    + intro H. apply varint_loop_error in H; [tauto|].
      unfold VarIntLen32; cbn [seq]; repeat constructor.
    + intro H. now injection H as <- _ _.
  - intro H. now apply (loop_overflow_test_dead K) in H.
  - unfold decodeFloat32.
    destruct b as [|t [|c1 [|c2 [|c3 [|c4 p]]]]]; run;
      try (intro H; now injection H as <- _ _).
    destruct (Byte.eqb t (Float32RawKind K)); [discriminate|].
    intro H; now injection H as <- _ _.
  - unfold decodeFloat64.
    destruct b as [|t [|c1 [|c2 [|c3 [|c4 [|c5 [|c6 [|c7 [|c8 p]]]]]]]]];
      run; try (intro H; now injection H as <- _ _).
    destruct (Byte.eqb t (Float64RawKind K)); [discriminate|].
    intro H; now injection H as <- _ _.
Qed.

(** The signed decoders keep the cursor on error as well. *)
Lemma signed_error_cursor (K : Registry) (b r : list byte) (v : Z)
  (e : error) :
  (decodeInt32 K b = ret (r, v, Some e) -> r = b) /\
  (decodeInt64 K b = ret (r, v, Some e) -> r = b).
Proof.
  split.
  - destruct b as [|t p];
      [unfold decodeInt32; run; intro H; now injection H as <- _ _|].
    destruct (Byte.eqb t (Int32RawKind K)) eqn:Et.
    + apply byte_eqb_eq in Et. subst t.
      pose proof (decodeInt32_lockstep K p) as H.
      destruct (decodeUint32 K (Uint32RawKind K :: p))
        as [[[r' u] [e'|]]|]; rewrite H; try discriminate.
      intro E. now injection E as <- _ _.
    + unfold decodeInt32. destruct p as [|c p]; run; rewrite ?Et;
        intro H; now injection H as <- _ _.
  - destruct b as [|t p];
      [unfold decodeInt64; run; intro H; now injection H as <- _ _|].
    destruct (Byte.eqb t (Int64RawKind K)) eqn:Et.
    + apply byte_eqb_eq in Et. subst t.
      pose proof (decodeInt64_lockstep K p) as H.
      destruct (decodeUint64 K (Uint64RawKind K :: p))
        as [[[r' u] [e'|]]|]; rewrite H; try discriminate.
      intro E. now injection E as <- _ _.
    + unfold decodeInt64. destruct p as [|c p]; run; rewrite ?Et;
        intro H; now injection H as <- _ _.
Qed.

(** ** The store model: reading through a slice *)

Lemma view_length (h : Mem.heap) (s : Mem.slice) :
  Mem.wf h s -> length (Mem.view h s) = Mem.s_len s.
Proof.
  unfold Mem.wf, Mem.view, Mem.array. intros [Hl Hb].
  rewrite length_firstn, length_skipn.
  destruct (Mem.s_base s) as [a|]; cbn [length]; lia.
Qed.

Lemma index_view (h : Mem.heap) (s : Mem.slice) (i : nat) :
  (i < Mem.s_len s)%nat ->
  Mem.index h s i = nth_error (Mem.view h s) i.
Proof.
  intro Hi. unfold Mem.index, Mem.view.
  replace (i <? Mem.s_len s)%nat with true
    by (symmetry; now apply Nat.ltb_lt).
  rewrite nth_error_firstn.
  replace (i <? Mem.s_len s)%nat with true
    by (symmetry; now apply Nat.ltb_lt).
  now rewrite nth_error_skipn.
Qed.

Lemma reslice_ok (s : Mem.slice) (lo hi : nat) :
  (lo <= hi <= Mem.s_cap s)%nat ->
  Mem.reslice s lo hi
  = ret (Mem.mkSlice (Mem.s_base s) (Mem.s_off s + lo) (hi - lo)
           (Mem.s_cap s - lo)).
Proof.
  intros [H1 H2]. unfold Mem.reslice.
  apply Nat.leb_le in H1, H2. now rewrite H1, H2.
Qed.

Lemma reslice_wf (h : Mem.heap) (s : Mem.slice) (lo hi : nat) :
  Mem.wf h s -> (lo <= hi <= Mem.s_cap s)%nat ->
  Mem.wf h (Mem.mkSlice (Mem.s_base s) (Mem.s_off s + lo) (hi - lo)
              (Mem.s_cap s - lo)).
Proof.
  unfold Mem.wf. cbn [Mem.s_len Mem.s_cap Mem.s_base Mem.s_off].
  intros [Hl Hb] Hr. split; [lia|].
  destruct (Mem.s_base s) as [a|]; [|lia].
  destruct Hb as [Ha Hc]. split; [assumption|lia].
Qed.

Lemma reslice_view (h : Mem.heap) (s : Mem.slice) (lo hi : nat) :
  (lo <= hi <= Mem.s_len s)%nat ->
  Mem.view h (Mem.mkSlice (Mem.s_base s) (Mem.s_off s + lo) (hi - lo)
                (Mem.s_cap s - lo))
  = firstn (hi - lo) (skipn lo (Mem.view h s)).
Proof.
  intros Hr. unfold Mem.view, Mem.array.
  cbn [Mem.s_len Mem.s_cap Mem.s_base Mem.s_off].
  rewrite skipn_firstn_comm, firstn_firstn, skipn_skipn.
  replace (Nat.min (hi - lo) (Mem.s_len s - lo)) with (hi - lo)%nat by lia.
  now rewrite Nat.add_comm.
Qed.

Lemma slen_ltb (n : nat) (s : Mem.slice) :
  (Z.of_nat n <? Mem.slen s) = (n <? Mem.s_len s)%nat.
Proof.
  unfold Mem.slen.
  destruct (Z.of_nat n <? Z.of_nat (Mem.s_len s)) eqn:E1;
    destruct (n <? Mem.s_len s)%nat eqn:E2; try reflexivity.
  - apply Z.ltb_lt in E1. apply Nat.ltb_ge in E2. lia.
  - apply Z.ltb_ge in E1. apply Nat.ltb_lt in E2. lia.
Qed.

(** The two embeddings of [decodeStaticUint32] agree: over the store it
    returns what the decoder on contents returns on the contents of [b],
    with the header of [b[5:]] as the cursor. *)
Lemma decodeStaticUint32_store_ok (K : Registry) (h : Mem.heap)
  (b : Mem.slice) (c1 c2 c3 c4 : byte) (rest : list byte) :
  Mem.wf h b ->
  Mem.view h b = StaticUint32RawKind K :: c1 :: c2 :: c3 :: c4 :: rest ->
  Mem.decodeStaticUint32 K h b
  = ret (Mem.mkSlice (Mem.s_base b) (Mem.s_off b + 5) (Mem.s_len b - 5)
           (Mem.s_cap b - 5),
         be32 c1 c2 c3 c4, None).
Proof.
  intros Hwf Hv. pose proof (view_length h b Hwf) as Hl.
  rewrite Hv in Hl. cbn [length] in Hl.
  unfold Mem.decodeStaticUint32, Mem.index_is, Mem.reslice_from.
  rewrite (slen_ltb 4).
  replace (4 <? Mem.s_len b)%nat with true
    by (symmetry; apply Nat.ltb_lt; lia).
  rewrite !index_view by lia. rewrite Hv. cbn [and_then nth_error bind ret].
  rewrite byte_eqb_refl. rewrite reslice_ok by (destruct Hwf; lia).
  reflexivity.
Qed.

Lemma decodeStaticUint32_store_fail (K : Registry) (h : Mem.heap)
  (b : Mem.slice) :
  Mem.wf h b ->
  decodeStaticUint32 K (Mem.view h b)
  = ret (Mem.view h b, 0, Some InvalidUint32) ->
  Mem.decodeStaticUint32 K h b = ret (b, 0, Some InvalidUint32).
Proof.
  intros Hwf. pose proof (view_length h b Hwf) as Hl.
  rewrite decodeStaticUint32_eq.
  unfold Mem.decodeStaticUint32, Mem.index_is. rewrite (slen_ltb 4).
  destruct (Mem.view h b) as [|t [|c1 [|c2 [|c3 [|c4 r]]]]] eqn:Hv;
    cbn [length] in Hl;
    try (replace (4 <? Mem.s_len b)%nat with false
           by (symmetry; apply Nat.ltb_ge; lia); reflexivity).
  replace (4 <? Mem.s_len b)%nat with true
    by (symmetry; apply Nat.ltb_lt; lia).
  rewrite index_view by lia. rewrite Hv. cbn [and_then nth_error bind ret].
  destruct (Byte.eqb t (StaticUint32RawKind K)); [discriminate|reflexivity].
Qed.

(** ** The store model: writing *)

Lemma store_split (h : Mem.heap) (a : nat) (arr : list byte) :
  nth_error h a = Some arr ->
  h = firstn a h ++ arr :: skipn (S a) h /\ length (firstn a h) = a.
Proof.
  intro H. split.
  - rewrite <- (firstn_skipn a h) at 1. f_equal.
    revert h H. induction a as [|a IH]; intros [|x h] H; try discriminate.
    + now injection H as ->.
    + cbn [nth_error] in H. cbn [skipn]. now apply IH.
  - apply firstn_length_le. apply Nat.lt_le_incl.
    apply nth_error_Some. congruence.
Qed.

Lemma store_nth_same (h : Mem.heap) (a o : nat) (data : list byte) :
  (a < length h)%nat ->
  nth a (Mem.store h a o data) []
  = firstn o (nth a h []) ++ data ++ skipn (o + length data) (nth a h []).
Proof.
  intro Ha. unfold Mem.store.
  destruct (nth_error h a) as [arr|] eqn:E;
    [|apply nth_error_None in E; lia].
  rewrite (nth_error_nth h a [] E).
  destruct (store_split h a arr E) as [_ Hl].
  rewrite app_nth2 by lia. rewrite Hl, Nat.sub_diag. reflexivity.
Qed.

Lemma store_nth_other (h : Mem.heap) (a a' o : nat) (data : list byte) :
  a' <> a -> nth a' (Mem.store h a o data) [] = nth a' h [].
Proof.
  intro Hne. unfold Mem.store.
  destruct (nth_error h a) as [arr|] eqn:E; [|reflexivity].
  destruct (store_split h a arr E) as [Hh Hl].
  transitivity (nth a' (firstn a h ++ arr :: skipn (S a) h) []);
    [|now rewrite <- Hh].
  destruct (Nat.lt_ge_cases a' a) as [Hlt|Hge].
  - rewrite !app_nth1 by lia. reflexivity.
  - rewrite !(app_nth2 (firstn a h)) by lia. rewrite Hl.
    destruct (a' - a)%nat as [|k] eqn:Ek; [lia|]. reflexivity.
Qed.

Lemma store_length (h : Mem.heap) (a o : nat) (data : list byte) :
  length (Mem.store h a o data) = length h.
Proof.
  unfold Mem.store. destruct (nth_error h a) as [arr|] eqn:E; [|reflexivity].
  destruct (store_split h a arr E) as [Hh Hl].
  transitivity (length (firstn a h ++ arr :: skipn (S a) h));
    [|now rewrite <- Hh].
  rewrite !length_app. cbn [length]. lia.
Qed.

(** Writing [data] inside an array keeps the length of every array, so
    every header that pointed into the store still does. *)
Lemma store_wf (h : Mem.heap) (a o : nat) (data : list byte)
  (s : Mem.slice) :
  (a < length h)%nat ->
  (o + length data <= length (nth a h []))%nat ->
  Mem.wf h s -> Mem.wf (Mem.store h a o data) s.
Proof.
  intros Ha Ho [Hl Hb]. split; [assumption|].
  destruct (Mem.s_base s) as [a'|]; [|assumption].
  destruct Hb as [Ha' Hc]. rewrite store_length. split; [assumption|].
  destruct (Nat.eq_dec a' a) as [->|Hne].
  - rewrite store_nth_same by assumption.
    rewrite !length_app, length_firstn, length_skipn. lia.
  - now rewrite store_nth_other.
Qed.

(** After [data] is written at the start of a slice, the slice begins
    with [data]. *)
Lemma store_view (h : Mem.heap) (a : nat) (data : list byte)
  (s : Mem.slice) :
  Mem.s_base s = Some a ->
  (a < length h)%nat ->
  (Mem.s_off s + length data <= length (nth a h []))%nat ->
  (length data <= Mem.s_len s)%nat ->
  firstn (length data) (Mem.view (Mem.store h a (Mem.s_off s) data) s)
  = data.
Proof.
  intros Hb Ha Ho Hl. unfold Mem.view, Mem.array. rewrite Hb.
  rewrite store_nth_same by assumption.
  rewrite firstn_firstn.
  replace (Nat.min (length data) (Mem.s_len s)) with (length data) by lia.
  rewrite skipn_app.
  rewrite length_firstn.
  replace (Nat.min (Mem.s_off s) (length (nth a h []))) with (Mem.s_off s)
    by lia.
  rewrite Nat.sub_diag. cbn [skipn].
  rewrite skipn_all2 by (rewrite length_firstn; lia).
  cbn [app]. rewrite firstn_app, Nat.sub_diag. cbn [firstn].
  now rewrite firstn_all, app_nil_r.
Qed.

(** ** [decodeBytes] on a well-formed encoding *)

Section DecodeBytesSuccess.

Variable growcap : nat -> nat -> nat.
Variable K : Registry.

Variables (h : Mem.heap) (b dst : Mem.slice).
Variables (c1 c2 c3 c4 : byte) (payload rest : list byte).

Hypothesis wf_b : Mem.wf h b.
Hypothesis wf_dst : Mem.wf h dst.
Hypothesis encoding :
  Mem.view h b
  = BytesRawKind K :: StaticUint32RawKind K :: c1 :: c2 :: c3 :: c4
      :: payload ++ rest.
Hypothesis size : be32 c1 c2 c3 c4 = Z.of_nat (length payload).

(** The header of the payload and of what follows it, as the code
    computes them: [b[1:]], then [b[5:]] inside [decodeStaticUint32]. *)
Let b1 : Mem.slice :=
  Mem.mkSlice (Mem.s_base b) (Mem.s_off b + 1) (Mem.s_len b - 1)
    (Mem.s_cap b - 1).
Let b2 : Mem.slice :=
  Mem.mkSlice (Mem.s_base b1) (Mem.s_off b1 + 5) (Mem.s_len b1 - 5)
    (Mem.s_cap b1 - 5).
Let src : Mem.slice :=
  Mem.mkSlice (Mem.s_base b2) (Mem.s_off b2 + 0) (length payload - 0)
    (Mem.s_cap b2 - 0).
Let after : Mem.slice :=
  Mem.mkSlice (Mem.s_base b2) (Mem.s_off b2 + length payload)
    (Mem.s_len b2 - length payload) (Mem.s_cap b2 - length payload).

Lemma input_length :
  Mem.s_len b = (6 + length payload + length rest)%nat.
Proof.
  rewrite <- (view_length h b wf_b), encoding. cbn [length].
  rewrite length_app. lia.
Qed.

Lemma payload_header :
  Mem.wf h b2 /\ Mem.view h b2 = payload ++ rest /\
  Mem.view h src = payload /\ Mem.s_len after = length rest.
Proof.
  pose proof input_length as Hl. destruct (wf_b) as [Hc _].
  assert (W1 : Mem.wf h b1) by (apply reslice_wf; [assumption|lia]).
  assert (V1 : Mem.view h b1
               = StaticUint32RawKind K :: c1 :: c2 :: c3 :: c4
                   :: payload ++ rest).
  { unfold b1. rewrite (reslice_view h b 1 (Mem.s_len b)) by lia.
    rewrite encoding. cbn [skipn]. apply firstn_all2.
    cbn [length]. rewrite length_app. lia. }
  assert (W2 : Mem.wf h b2).
  { apply reslice_wf; [assumption|]. unfold b1. cbn. lia. }
  assert (V2 : Mem.view h b2 = payload ++ rest).
  { unfold b2. rewrite (reslice_view h b1 5 (Mem.s_len b1))
      by (unfold b1; cbn; lia).
    rewrite V1. cbn [skipn]. apply firstn_all2.
    unfold b1. cbn. rewrite length_app. lia. }
  repeat split; try assumption; try apply W2.
  - unfold src. rewrite (reslice_view h b2 0 (length payload))
      by (unfold b2, b1; cbn; lia).
    rewrite V2. cbn [skipn]. rewrite Nat.sub_0_r.
    rewrite firstn_app, Nat.sub_diag, firstn_all. cbn [firstn].
    apply app_nil_r.
  - unfold after, b2, b1. cbn. lia.
Qed.

(** Up to the choice of the destination, the run of [decodeBytes]. *)
Lemma decodeBytes_prefix :
  Mem.decodeBytes growcap K h b dst =
  (r <- (if Mem.slen dst <? Z.of_nat (length payload) then
           if Mem.is_nil dst then
             let '(h, dst) := Mem.make h (length payload) in
             ret (Mem.copy h dst src, dst)
           else
             dst0 <- Mem.reslice dst 0 0 ;;
             ret (Mem.append growcap h dst0 src)
         else
           dst0 <- Mem.reslice_from dst 0 ;;
           ret (Mem.copy h dst0 src, dst)) ;;
   let '(h, dst) := r in
   ret (h, (after, dst, None))).
Proof.
  pose proof input_length as Hl. destruct (wf_b) as [Hc _].
  destruct payload_header as (W2 & V2 & _ & _).
  unfold Mem.decodeBytes, Mem.index_is, Mem.reslice_from.
  rewrite (slen_ltb 0).
  replace (0 <? Mem.s_len b)%nat with true
    by (symmetry; apply Nat.ltb_lt; lia).
  rewrite index_view by lia. rewrite encoding.
  cbn [and_then nth_error bind ret]. rewrite byte_eqb_refl.
  rewrite reslice_ok by lia. fold b1. cbn [bind ret].
  rewrite (decodeStaticUint32_store_ok K h b1 c1 c2 c3 c4 (payload ++ rest)).
  - fold b2. cbn [bind ret]. rewrite size.
    replace (Z.of_nat (length payload) - 1 <? Mem.slen b2) with true.
    + rewrite Nat2Z.id.
      assert (Hs : Mem.reslice b2 0 (length payload) = ret src).
      { apply reslice_ok. unfold b2, b1. cbn. lia. }
      assert (Ha : Mem.reslice b2 (length payload) (Mem.s_len b2)
                   = ret after).
      { apply reslice_ok. unfold b2, b1. cbn. lia. }
      rewrite Hs, Ha. cbn [bind ret].
      destruct (Mem.slen dst <? Z.of_nat (length payload)).
      * destruct (Mem.is_nil dst); [reflexivity|].
        destruct (Mem.reslice dst 0 0); reflexivity.
      * destruct (Mem.reslice dst 0 (Mem.s_len dst)); reflexivity.
    + symmetry. apply Z.ltb_lt. unfold Mem.slen, b2, b1. cbn. lia.
  - apply reslice_wf; [assumption|lia].
  - unfold b1. rewrite (reslice_view h b 1 (Mem.s_len b)) by lia.
    rewrite encoding. cbn [skipn]. apply firstn_all2.
    cbn [length]. rewrite length_app. lia.
Qed.

Lemma old_array_kept (a : nat) (arr : list byte) :
  (a < length h)%nat -> nth a (h ++ [arr]) [] = nth a h [].
Proof. intro Ha. now apply app_nth1. Qed.

(** [decodeBytes] on a cursor that holds a well-formed Bytes value with
    payload length L succeeds.  The returned slice starts with the payload
    and has the length max(L, len(dst)).  A destination at least as long
    as the payload is returned as it is, written in place, with its own
    length; a shorter non-nil destination with enough capacity is used in
    place and gets the length L; otherwise the result lies in a new array
    and no array of the caller is written. *)
Lemma decodeBytes_success :
  exists h' r v,
    Mem.decodeBytes growcap K h b dst = ret (h', (r, v, None)) /\
    Mem.s_len r = length rest /\
    Mem.wf h' v /\
    firstn (length payload) (Mem.view h' v) = payload /\
    Mem.s_len v = Nat.max (length payload) (Mem.s_len dst) /\
    ((length payload <= Mem.s_len dst)%nat -> v = dst) /\
    ((Mem.s_len dst < length payload)%nat ->
     if Mem.is_nil dst || (Mem.s_cap dst <? length payload)%nat
     then Mem.s_base v = Some (length h) /\ firstn (length h) h' = h
     else Mem.s_base v = Mem.s_base dst /\ Mem.s_off v = Mem.s_off dst /\
          length h' = length h).
Proof.
  destruct payload_header as (W2 & V2 & Vs & Hafter).
  assert (Hsrc : Mem.s_len src = length payload)
    by (unfold src; cbn; lia).
  assert (Hbase : exists a, Mem.s_base src = Some a /\ (a < length h)%nat).
  { pose proof input_length as Hl. destruct wf_b as [_ Hb].
    unfold src, b2, b1. cbn [Mem.s_base].
    destruct (Mem.s_base b) as [a|] eqn:E.
    - exists a. split; [reflexivity|tauto].
    - destruct wf_b as [Hc _]. lia. }
  rewrite decodeBytes_prefix.
  destruct (Mem.slen dst <? Z.of_nat (length payload)) eqn:Elen.
  - (* the destination is shorter than the payload *)
    apply Z.ltb_lt in Elen. unfold Mem.slen in Elen.
    assert (Hmax : Nat.max (length payload) (Mem.s_len dst) = length payload)
      by lia.
    destruct (Mem.is_nil dst) eqn:Enil.
    + (* nil: make and copy *)
      cbn [Mem.make bind ret orb].
      set (h1 := h ++ [repeat x00 (length payload)]).
      set (d := Mem.mkSlice (Some (length h)) 0 (length payload)
                  (length payload)).
      assert (Hnew : nth (length h) h1 [] = repeat x00 (length payload)).
      { unfold h1. rewrite app_nth2, Nat.sub_diag by lia. reflexivity. }
      assert (Hlen1 : length h1 = S (length h)).
      { unfold h1. rewrite length_app. cbn [length]. lia. }
      assert (Vs1 : Mem.view h1 src = payload).
      { rewrite <- Vs. unfold Mem.view, Mem.array.
        destruct Hbase as (a & -> & Ha). unfold h1.
        now rewrite old_array_kept. }
      assert (Hcopy : Mem.copy h1 d src = Mem.store h1 (length h) 0 payload).
      { unfold Mem.copy. cbn [Mem.s_base Mem.s_len Mem.s_off d].
        rewrite Hsrc, Nat.min_id, Vs1, firstn_all. reflexivity. }
      rewrite Hcopy.
      exists (Mem.store h1 (length h) 0 payload), after, d.
      split; [reflexivity|]. split; [assumption|].
      assert (Hfit : (0 + length payload <= length (nth (length h) h1 []))%nat)
        by (rewrite Hnew, repeat_length; lia).
      repeat split.
      * unfold d. cbn. lia.
      * cbn [Mem.s_base d]. rewrite store_length. lia.
      * cbn [Mem.s_base Mem.s_off Mem.s_cap d].
        rewrite store_nth_same by lia.
        rewrite Hnew, !length_app, length_skipn, repeat_length. cbn. lia.
      * apply (store_view h1 (length h) payload d);
          [reflexivity|lia|exact Hfit|cbn; lia].
      * cbn [Mem.s_len d]. lia.
      * intro. lia.
      * unfold Mem.store.
        replace (nth_error h1 (length h))
          with (Some (repeat x00 (length payload))).
        -- assert (E : firstn (length h) h1 = h).
           { unfold h1. rewrite firstn_app, Nat.sub_diag, firstn_all.
             cbn [firstn]. apply app_nil_r. }
           rewrite E, firstn_app, Nat.sub_diag, firstn_all. cbn [firstn].
           apply app_nil_r.
        -- unfold h1. rewrite nth_error_app2, Nat.sub_diag by lia.
           reflexivity.
    + (* non-nil: append to dst[:0] *)
      destruct wf_dst as [Hdc Hdb].
      unfold Mem.is_nil in Enil.
      destruct (Mem.s_base dst) as [a|] eqn:Ebase; [|discriminate].
      destruct Hdb as [Ha Hcap].
      rewrite reslice_ok by lia. cbn [bind ret orb].
      unfold Mem.append.
      cbn [Mem.s_len Mem.s_cap Mem.s_base Mem.s_off]. rewrite Vs, Ebase.
      replace (0 - 0 + length payload)%nat with (length payload) by lia.
      rewrite Nat.sub_0_r, Nat.add_0_r.
      destruct (length payload <=? Mem.s_cap dst)%nat eqn:Ecap.
      * (* in place *)
        apply Nat.leb_le in Ecap.
        replace (Mem.s_cap dst <? length payload)%nat with false
          by (symmetry; apply Nat.ltb_ge; lia).
        rewrite Nat.add_0_r.
        set (v := Mem.mkSlice (Some a) (Mem.s_off dst) (length payload)
                    (Mem.s_cap dst)).
        exists (Mem.store h a (Mem.s_off dst) payload), after, v.
        split; [reflexivity|]. split; [assumption|].
        repeat split; try (cbn; lia).
        -- cbn [Mem.s_base v]. now rewrite store_length.
        -- cbn [Mem.s_base Mem.s_off Mem.s_cap v].
           rewrite store_nth_same by assumption.
           rewrite !length_app, length_firstn, length_skipn. lia.
        -- apply (store_view h a payload v);
             [reflexivity|assumption|cbn; lia|cbn; lia].
        -- apply store_length.
      * (* a new array *)
        apply Nat.leb_gt in Ecap.
        replace (Mem.s_cap dst <? length payload)%nat with true
          by (symmetry; apply Nat.ltb_lt; lia).
        set (c := Nat.max (length payload)
                    (growcap (Mem.s_cap dst) (length payload))).
        set (arr := Mem.view h (Mem.mkSlice (Some a) (Mem.s_off dst) 0
                                  (Mem.s_cap dst))
                    ++ payload ++ repeat x00 (c - length payload)).
        assert (Harr : arr = payload ++ repeat x00 (c - length payload))
          by reflexivity.
        set (v := Mem.mkSlice (Some (length h)) 0 (length payload) c).
        exists (h ++ [arr]), after, v.
        split; [reflexivity|]. split; [assumption|].
        assert (Hnth : nth (length h) (h ++ [arr]) [] = arr)
          by (rewrite app_nth2, Nat.sub_diag by lia; reflexivity).
        repeat split; try (cbn; lia).
        -- cbn [Mem.s_base v]. rewrite length_app. cbn. lia.
        -- cbn [Mem.s_base Mem.s_off Mem.s_cap v].
           rewrite Hnth, Harr, length_app, repeat_length. lia.
        -- unfold Mem.view, Mem.array. cbn [Mem.s_base Mem.s_off Mem.s_len v].
           rewrite Hnth, Harr. cbn [skipn]. rewrite firstn_firstn, Nat.min_id.
           rewrite firstn_app, Nat.sub_diag, firstn_all. cbn [firstn].
           apply app_nil_r.
        -- rewrite firstn_app, Nat.sub_diag, firstn_all. cbn [firstn].
           apply app_nil_r.
  - (* the destination is at least as long as the payload *)
    apply Z.ltb_ge in Elen. unfold Mem.slen in Elen.
    assert (Hmax : Nat.max (length payload) (Mem.s_len dst) = Mem.s_len dst)
      by lia.
    destruct wf_dst as [Hdc Hdb].
    unfold Mem.reslice_from. rewrite reslice_ok by lia. cbn [bind ret].
    unfold Mem.copy. cbn [Mem.s_len Mem.s_base Mem.s_off].
    rewrite Hsrc, Vs, Nat.sub_0_r, Nat.add_0_r.
    replace (Nat.min (Mem.s_len dst) (length payload)) with (length payload)
      by lia.
    rewrite firstn_all.
    destruct (Mem.s_base dst) as [a|] eqn:Ebase.
    + destruct Hdb as [Ha Hcap].
      exists (Mem.store h a (Mem.s_off dst) payload), after, dst.
      split; [reflexivity|]. split; [assumption|].
      repeat split; try lia.
      * rewrite Ebase. rewrite store_length. split; [assumption|].
        rewrite store_nth_same by assumption.
        rewrite !length_app, length_firstn, length_skipn. lia.
      * apply (store_view h a payload dst); [assumption|assumption|lia|lia].
    + exists h, after, dst.
      split; [reflexivity|]. split; [assumption|].
      assert (length payload = 0)%nat by lia.
      repeat split; try lia.
      * now rewrite Ebase.
      * destruct payload; [reflexivity|discriminate].
Qed.

End DecodeBytesSuccess.

(** [decodeBytes] returns on every cursor and destination that point into
    the store: none of its index and slice expressions goes out of
    range. *)
Lemma decodeBytes_total (growcap : nat -> nat -> nat) (K : Registry)
  (h : Mem.heap) (b dst : Mem.slice) :
  Mem.wf h b -> Mem.wf h dst ->
  exists o, Mem.decodeBytes growcap K h b dst = ret o.
Proof.
  intros Wb Wd. pose proof (view_length h b Wb) as Hl.
  destruct (Mem.view h b) as [|t p] eqn:Hv; cbn [length] in Hl.
  { unfold Mem.decodeBytes. rewrite (slen_ltb 0).
    replace (0 <? Mem.s_len b)%nat with false
      by (symmetry; apply Nat.ltb_ge; lia).
    eexists; reflexivity. }
  destruct (Byte.eqb t (BytesRawKind K)) eqn:Et.
  2:{ unfold Mem.decodeBytes, Mem.index_is. rewrite (slen_ltb 0).
      replace (0 <? Mem.s_len b)%nat with true
        by (symmetry; apply Nat.ltb_lt; lia).
      rewrite index_view by lia. rewrite Hv.
      cbn [and_then nth_error bind ret]. rewrite Et.
      eexists; reflexivity. }
  apply byte_eqb_eq in Et. subst t.
  set (b1 := Mem.mkSlice (Mem.s_base b) (Mem.s_off b + 1) (Mem.s_len b - 1)
               (Mem.s_cap b - 1)).
  assert (W1 : Mem.wf h b1)
    by (apply reslice_wf; [assumption|destruct Wb; lia]).
  assert (V1 : Mem.view h b1 = p).
  { unfold b1. rewrite (reslice_view h b 1 (Mem.s_len b)) by lia.
    rewrite Hv. cbn [skipn]. apply firstn_all2. lia. }
  assert (Hstart : Mem.decodeBytes growcap K h b dst =
    (r <- Mem.decodeStaticUint32 K h b1 ;;
     let '(b, size, err) := r in
     match err with
     | Some _ => ret (h, (b, Mem.nil_slice, Some InvalidBytes))
     | None =>
         if size - 1 <? Mem.slen b then
           r <- (if Mem.slen dst <? size then
                   if Mem.is_nil dst then
                     let '(h, dst) := Mem.make h (Z.to_nat size) in
                     src <- Mem.reslice b 0 (Z.to_nat size) ;;
                     ret (Mem.copy h dst src, dst)
                   else
                     dst0 <- Mem.reslice dst 0 0 ;;
                     src <- Mem.reslice b 0 (Z.to_nat size) ;;
                     ret (Mem.append growcap h dst0 src)
                 else
                   dst0 <- Mem.reslice_from dst 0 ;;
                   src <- Mem.reslice b 0 (Z.to_nat size) ;;
                   ret (Mem.copy h dst0 src, dst)) ;;
           let '(h, dst) := r in
           rest <- Mem.reslice_from b (Z.to_nat size) ;;
           ret (h, (rest, dst, None))
         else ret (h, (b, Mem.nil_slice, Some InvalidBytes))
     end)).
  { unfold Mem.decodeBytes, Mem.index_is, Mem.reslice_from.
    rewrite (slen_ltb 0).
    replace (0 <? Mem.s_len b)%nat with true
      by (symmetry; apply Nat.ltb_lt; lia).
    rewrite index_view by lia. rewrite Hv.
    cbn [and_then nth_error bind ret]. rewrite byte_eqb_refl.
    rewrite reslice_ok by (destruct Wb; lia). reflexivity. }
  destruct (decodeStaticUint32_total K p) as [(r & n & H)|H].
  - apply decodeStaticUint32_ok in H.
    destruct H as (c1 & c2 & c3 & c4 & -> & ->).
    pose proof (be32_range c1 c2 c3 c4) as Hr.
    destruct (be32 c1 c2 c3 c4 - 1 <? len r) eqn:E.
    + apply Z.ltb_lt in E. unfold len in E.
      destruct (decodeBytes_success growcap K h b dst c1 c2 c3 c4
                  (firstn (Z.to_nat (be32 c1 c2 c3 c4)) r)
                  (skipn (Z.to_nat (be32 c1 c2 c3 c4)) r) Wb Wd)
        as (h' & r' & v & Hrun & _).
      * now rewrite firstn_skipn.
      * rewrite firstn_length_le by lia. lia.
      * rewrite Hrun. eexists; reflexivity.
    + rewrite Hstart.
      rewrite (decodeStaticUint32_store_ok K h b1 c1 c2 c3 c4 r W1 V1).
      cbn [bind ret].
      replace (be32 c1 c2 c3 c4 - 1 <? _) with false;
        [eexists; reflexivity|].
      symmetry. apply Z.ltb_ge. apply Z.ltb_ge in E.
      unfold Mem.slen, len in *. cbn [Mem.s_len b1].
      pose proof (view_length h b1 W1) as Hl1. rewrite V1 in Hl1.
      cbn [length Mem.s_len b1] in Hl1. lia.
  - rewrite Hstart.
    rewrite (decodeStaticUint32_store_fail K h b1 W1)
      by (now rewrite V1).
    eexists; reflexivity.
Qed.

(** ** [decodeBytes] and its destination *)

Section DecodeBytes.

Variable growcap : nat -> nat -> nat.
Variable K : Registry.

(** C10. Whenever [decodeBytes] returns an error, the byte slice it
    returns is [nil], whatever destination the caller passed, the error is
    [InvalidBytes], and nothing has been written to the store. *)
Theorem decodeBytes_error_value (h h' : Mem.heap) (b dst r v : Mem.slice)
  (e : error) :
  Mem.decodeBytes growcap K h b dst = ret (h', (r, v, Some e)) ->
  v = Mem.nil_slice /\ e = InvalidBytes /\ h' = h.
Proof.
  unfold Mem.decodeBytes, bind.
  destruct (and_then _ _) as [[|]|]; try discriminate.
  - destruct (Mem.reslice_from b 1) as [b1|]; [|discriminate].
    destruct (Mem.decodeStaticUint32 K h b1) as [[[b2 size] [err|]]|];
      try discriminate.
    + intro H. now injection H as <- <- <- <-.
    + destruct (size - 1 <? Mem.slen b2).
      * destruct (if Mem.slen dst <? size then _ else _) as [[h2 d2]|];
          [|discriminate].
        destruct (Mem.reslice_from b2 (Z.to_nat size)); discriminate.
      * intro H. now injection H as <- <- <- <-.
  - intro H. now injection H as <- <- <- <-.
Qed.

End DecodeBytes.

Lemma decodeBytes_error_value_witness :
  Mem.decodeBytes (fun _ n => n) sampleRegistry
    [[x03; x0a; x00]; [xff; xff]]
    (Mem.mkSlice (Some 0%nat) 0 3 3) (Mem.mkSlice (Some 1%nat) 0 2 2)
  = ret ([[x03; x0a; x00]; [xff; xff]],
         (Mem.mkSlice (Some 0%nat) 1 2 2, Mem.nil_slice,
          Some InvalidBytes)) /\
  Mem.nil_slice = Mem.nil_slice /\ InvalidBytes = InvalidBytes /\
  [[x03; x0a; x00]; [xff; xff]] = [[x03; x0a; x00]; [xff; xff]].
Proof.
  split; [vm_compute; reflexivity|].
  apply (decodeBytes_error_value (fun _ n => n) sampleRegistry
           [[x03; x0a; x00]; [xff; xff]] _
           (Mem.mkSlice (Some 0%nat) 0 3 3) (Mem.mkSlice (Some 1%nat) 0 2 2)
           (Mem.mkSlice (Some 0%nat) 1 2 2)).
  vm_compute. reflexivity.
Defined.

(** X24. On a well-formed encoding the returned slice has exactly the
    length of the payload if and only if the destination is not longer
    than the payload. *)
Lemma decodeBytes_length_exact (growcap : nat -> nat -> nat) (K : Registry)
  (h h' : Mem.heap) (b dst r v : Mem.slice) (c1 c2 c3 c4 : byte)
  (payload rest : list byte) :
  Mem.wf h b -> Mem.wf h dst ->
  Mem.view h b
  = BytesRawKind K :: StaticUint32RawKind K :: c1 :: c2 :: c3 :: c4
      :: payload ++ rest ->
  be32 c1 c2 c3 c4 = Z.of_nat (length payload) ->
  Mem.decodeBytes growcap K h b dst = ret (h', (r, v, None)) ->
  (Mem.s_len v = length payload <->
   (Mem.s_len dst <= length payload)%nat).
Proof.
  intros Wb Wd Hv Hsize Hrun.
  destruct (decodeBytes_success growcap K h b dst c1 c2 c3 c4 payload rest
              Wb Wd Hv Hsize) as (h1 & r1 & v1 & Hrun1 & _ & _ & _ & Hlen & _).
  rewrite Hrun in Hrun1. injection Hrun1 as _ _ <-. lia.
Qed.

(** C4. A destination longer than the payload keeps its length.  With the
    one-byte payload 0x2a and a destination of two bytes 0xff 0xff,
    [decodeBytes] succeeds, writes the payload over the first byte of the
    destination and returns the destination with its length of 2: the
    returned bytes are 0x2a 0xff, not the payload. *)
Theorem decodeBytes_keeps_longer_destination (growcap : nat -> nat -> nat)
  (K : Registry) :
  let input := [BytesRawKind K; StaticUint32RawKind K;
                x00; x00; x00; x01; x2a] in
  let b := Mem.mkSlice (Some 0%nat) 0 7 7 in
  let dst := Mem.mkSlice (Some 1%nat) 0 2 2 in
  exists h' r v,
    Mem.decodeBytes growcap K [input; [xff; xff]] b dst
    = ret (h', (r, v, None)) /\
    Mem.view h' r = [] /\
    v = dst /\
    Mem.view h' v = [x2a; xff] /\
    Mem.s_len v = 2%nat.
Proof.
  intros input b dst.
  exists [input; [x2a; xff]], (Mem.mkSlice (Some 0%nat) 7 0 0), dst.
  split; [|repeat split].
  unfold Mem.decodeBytes, Mem.decodeStaticUint32, Mem.reslice_from,
    Mem.index_is, Mem.index, and_then, bind, ret.
  cbn. rewrite !byte_eqb_refl. reflexivity.
Qed.

(** * Further properties of the decoders *)

(** ** The wire format of the fixed-width kinds *)

(** X1. [decodeStaticUint32] succeeds exactly on a cursor made of the
    StaticUint32 tag and four bytes; the value is the big-endian number of
    these bytes, and the cursor returned is what follows them.  On every
    other cursor it returns [InvalidUint32], the value 0 and the cursor as
    it was. *)
Theorem static_uint32_wire_format (K : Registry) :
  (forall b r n,
     decodeStaticUint32 K b = ret (r, n, None) <->
     exists c1 c2 c3 c4,
       b = StaticUint32RawKind K :: c1 :: c2 :: c3 :: c4 :: r /\
       n = u8 c1 * 2 ^ 24 + u8 c2 * 2 ^ 16 + u8 c3 * 2 ^ 8 + u8 c4) /\
  (forall b,
     (exists r n, decodeStaticUint32 K b = ret (r, n, None)) \/
     decodeStaticUint32 K b = ret (b, 0, Some InvalidUint32)).
Proof.
  split.
  - intros b r n. rewrite decodeStaticUint32_ok.
    split; intros (c1 & c2 & c3 & c4 & Hb & Hn); exists c1, c2, c3, c4;
      (split; [assumption|]); now rewrite Hn, be32_value.
  - apply decodeStaticUint32_total.
Qed.

Lemma static_uint32_wire_format_witness :
  decodeStaticUint32 sampleRegistry [x0a; x00; x00; x01; x2c; x07]
  = ret ([x07], 300, None).
Proof.
  apply (proj1 (static_uint32_wire_format sampleRegistry)).
  exists x00, x00, x01, x2c. split; reflexivity.
Defined.

Lemma decodeFloat32_eq (K : Registry) (b : list byte) :
  decodeFloat32 K b =
  match b with
  | t :: c1 :: c2 :: c3 :: c4 :: r =>
      if Byte.eqb t (Float32RawKind K)
      then ret (r, be32 c1 c2 c3 c4, None)
      else ret (b, 0, Some InvalidFloat32)
  | _ => ret (b, 0, Some InvalidFloat32)
  end.
Proof.
  unfold decodeFloat32.
  destruct b as [|t [|c1 [|c2 [|c3 [|c4 r]]]]]; run; reflexivity.
Qed.

Lemma decodeFloat64_eq (K : Registry) (b : list byte) :
  decodeFloat64 K b =
  match b with
  | t :: c1 :: c2 :: c3 :: c4 :: c5 :: c6 :: c7 :: c8 :: r =>
      if Byte.eqb t (Float64RawKind K)
      then ret (r, be64 c1 c2 c3 c4 c5 c6 c7 c8, None)
      else ret (b, 0, Some InvalidFloat64)
  | _ => ret (b, 0, Some InvalidFloat64)
  end.
Proof.
  unfold decodeFloat64.
  destruct b as [|t [|c1 [|c2 [|c3 [|c4 [|c5 [|c6 [|c7 [|c8 r]]]]]]]]];
    run; reflexivity.
Qed.

(** X2. [decodeFloat32] succeeds exactly on the Float32 tag followed by
    four bytes, [decodeFloat64] exactly on the Float64 tag followed by
    eight; the bit pattern passed to [math.Float32frombits]
    ([math.Float64frombits]) is the big-endian number of these bytes, and
    the cursor returned is what follows them. *)
Theorem float_wire_format (K : Registry) :
  (forall b r n,
     decodeFloat32 K b = ret (r, n, None) <->
     exists c1 c2 c3 c4,
       b = Float32RawKind K :: c1 :: c2 :: c3 :: c4 :: r /\
       n = u8 c1 * 2 ^ 24 + u8 c2 * 2 ^ 16 + u8 c3 * 2 ^ 8 + u8 c4) /\
  (forall b r n,
     decodeFloat64 K b = ret (r, n, None) <->
     exists c1 c2 c3 c4 c5 c6 c7 c8,
       b = Float64RawKind K :: c1 :: c2 :: c3 :: c4 :: c5 :: c6 :: c7
             :: c8 :: r /\
       n = u8 c1 * 2 ^ 56 + u8 c2 * 2 ^ 48 + u8 c3 * 2 ^ 40
           + u8 c4 * 2 ^ 32 + u8 c5 * 2 ^ 24 + u8 c6 * 2 ^ 16
           + u8 c7 * 2 ^ 8 + u8 c8).
Proof.
  split; intros b r n.
  - rewrite decodeFloat32_eq. split.
    + destruct b as [|t [|c1 [|c2 [|c3 [|c4 r']]]]]; try discriminate.
      destruct (Byte.eqb t (Float32RawKind K)) eqn:E; try discriminate.
      intro H. injection H as <- <-. apply byte_eqb_eq in E. subst t.
      exists c1, c2, c3, c4. now rewrite be32_value.
    + intros (c1 & c2 & c3 & c4 & -> & ->).
      now rewrite byte_eqb_refl, be32_value.
  - rewrite decodeFloat64_eq. split.
    + destruct b as [|t [|c1 [|c2 [|c3 [|c4 [|c5 [|c6 [|c7 [|c8 r']]]]]]]]];
        try discriminate.
      destruct (Byte.eqb t (Float64RawKind K)) eqn:E; try discriminate.
      intro H. injection H as <- <-. apply byte_eqb_eq in E. subst t.
      exists c1, c2, c3, c4, c5, c6, c7, c8. now rewrite be64_value.
    + intros (c1 & c2 & c3 & c4 & c5 & c6 & c7 & c8 & -> & ->).
      now rewrite byte_eqb_refl, be64_value.
Qed.

Lemma float_wire_format_witness :
  decodeFloat32 sampleRegistry [x0e; x3f; x80; x00; x00]
  = ret ([], 1065353216, None).
Proof.
  apply (proj1 (float_wire_format sampleRegistry)).
  exists x3f, x80, x00, x00. split; reflexivity.
Defined.

(** X3. [decodeUint8] succeeds exactly on the Uint8 tag followed by at
    least one byte and returns that byte, whatever its value, and the
    cursor after it; on every other cursor it returns [InvalidUint8] with
    the cursor as it was. *)
Theorem uint8_wire_format (K : Registry) :
  (forall c r, decodeUint8 K (Uint8RawKind K :: c :: r) = ret (r, u8 c, None)) /\
  (forall b r n,
     decodeUint8 K b = ret (r, n, None) ->
     exists c, b = Uint8RawKind K :: c :: r /\ n = u8 c) /\
  (forall b,
     (length b < 2)%nat \/ nth_error b 0 <> Some (Uint8RawKind K) ->
     decodeUint8 K b = ret (b, 0, Some InvalidUint8)).
Proof.
  repeat split.
  - intros c r. unfold decodeUint8. run. now rewrite byte_eqb_refl.
  - intros b r n. unfold decodeUint8.
    destruct b as [|t [|c p]]; run; try discriminate.
    destruct (Byte.eqb t (Uint8RawKind K)) eqn:E; [|discriminate].
    intro H. injection H as <- <-. apply byte_eqb_eq in E. subst t.
    now exists c.
  - intros b H. unfold decodeUint8.
    destruct b as [|t [|c p]]; run; try reflexivity.
    destruct H as [H|H]; [simpl in H; lia|].
    rewrite byte_eqb_neq; [reflexivity|]. intro E. apply H. now subst.
Qed.

Lemma uint8_wire_format_witness :
  decodeUint8 sampleRegistry [x07] = ret ([x07], 0, Some InvalidUint8).
Proof.
  apply (proj2 (proj2 (uint8_wire_format sampleRegistry))).
  left. simpl. lia.
Defined.

(** ** The three outcomes of a varint decoder *)

(** Every payload has one of three shapes with respect to a byte count
    [n]: a varint that ends within [n] bytes; [n] continuation bytes; or
    fewer than [n] bytes, all continuation bytes. *)
Lemma varint_shape (n : nat) (p : list byte) :
  (exists conts t r,
     p = conts ++ t :: r /\ Forall continues conts /\
     u8 t < continuation /\ (length conts < n)%nat) \/
  (exists conts rest,
     p = conts ++ rest /\ Forall continues conts /\ length conts = n) \/
  (Forall continues p /\ (length p < n)%nat).
Proof.
  revert p. induction n as [|n IH]; intro p.
  - right; left. exists [], p. repeat split. constructor.
  - destruct p as [|c p].
    + right; right. split; [constructor|simpl; lia].
    + destruct (Z.lt_ge_cases (u8 c) continuation) as [Hc|Hc].
      * left. exists [], c, p. repeat split; [constructor|assumption|simpl; lia].
      * destruct (IH p) as [(conts & t & r & -> & Hf & Ht & Hl)
                           |[(conts & rest & -> & Hf & Hl)|[Hf Hl]]].
        -- left. exists (c :: conts), t, r.
           repeat split; [now constructor|assumption|simpl; lia].
        -- right; left. exists (c :: conts), rest.
           repeat split; [now constructor|simpl; lia].
        -- right; right. split; [now constructor|simpl; lia].
Qed.

Section VarintDecoder.

Variables (tag : byte) (w : Z) (maxlen : nat) (e_overflow e_end : error).
Hypothesis w_nonneg : 0 <= w.

Let dec := varint_decode tag w maxlen e_overflow e_end.
Let loop := varint_loop w maxlen e_overflow e_end.

(** [maxlen] continuation bytes: the loop runs out of positions. *)
Lemma varint_loop_overlong (conts pre rest : list byte) (n : nat) (x s : Z) :
  Forall continues conts ->
  length conts = n ->
  loop (pre ++ conts ++ rest) (seq (length pre) n) x s
  = ret (pre ++ conts ++ rest, 0, Some e_end).
Proof.
  intros Hc. revert pre n x s.
  induction Hc as [|c cs Hc Hcs IH]; intros pre n x s Hn.
  - simpl in Hn. subst n. reflexivity.
  - destruct n as [|n]; [discriminate|].
    cbn [seq]. unfold loop. cbn [varint_loop].
    rewrite index_app_here. cbn [app nth_error bind].
    replace (u8 c <? continuation) with false
      by (symmetry; apply Z.ltb_ge; exact Hc).
    replace (pre ++ c :: cs ++ rest) with ((pre ++ [c]) ++ cs ++ rest)
      by now rewrite <- app_assoc.
    replace (S (length pre)) with (length (pre ++ [c]))
      by (rewrite length_app; simpl; lia).
    fold loop. apply IH. simpl in Hn. lia.
Qed.

Lemma dec_short (b : list byte) :
  (length b < 2)%nat -> dec b = ret (b, 0, Some e_end).
Proof.
  intro H. unfold dec, varint_decode. rewrite len_ltb_1.
  replace (1 <? length b)%nat with false
    by (symmetry; apply Nat.ltb_ge; lia).
  reflexivity.
Qed.

Lemma dec_other_tag (t : byte) (p : list byte) :
  t <> tag -> dec (t :: p) = ret (t :: p, 0, Some e_end).
Proof.
  intro H. unfold dec, varint_decode.
  destruct p as [|c p]; run; [reflexivity|].
  now rewrite byte_eqb_neq.
Qed.

Lemma dec_loop (p : list byte) :
  p <> [] -> dec (tag :: p) = loop (tag :: p) (seq 1 maxlen) 0 0.
Proof.
  intro H. unfold dec, varint_decode. now rewrite guard_tag.
Qed.

Lemma dec_value (conts rest : list byte) (t : byte) :
  Forall continues conts -> u8 t < continuation ->
  (length conts < maxlen)%nat ->
  dec (tag :: conts ++ t :: rest)
  = ret (rest, wrap w (varint_value (conts ++ [t]) 0), None).
Proof.
  intros Hc Ht Hn. rewrite dec_loop by apply app_cons_not_nil.
  unfold loop.
  rewrite (varint_loop_value w maxlen _ _ w_nonneg conts [tag] rest t);
    try assumption; [now rewrite Z.lor_0_l|cbn [length]; lia].
Qed.

Lemma dec_overlong (conts rest : list byte) :
  Forall continues conts -> length conts = maxlen ->
  (1 <= maxlen)%nat ->
  dec (tag :: conts ++ rest) = ret (tag :: conts ++ rest, 0, Some e_end).
Proof.
  intros Hc Hn Hm. rewrite dec_loop by (destruct conts; [simpl in Hn; lia|discriminate]).
  now apply (varint_loop_overlong conts [tag] rest).
Qed.

Lemma dec_truncated (conts : list byte) :
  conts <> [] -> Forall continues conts -> (length conts < maxlen)%nat ->
  dec (tag :: conts) = panic.
Proof.
  intros Hne Hc Hn. rewrite dec_loop by assumption.
  now apply (varint_loop_truncated w maxlen _ _ conts [tag]).
Qed.

(** Success, error and panic, each by the shape of the cursor. *)
Lemma dec_success_iff (b r : list byte) (v : Z) :
  (1 <= maxlen)%nat ->
  dec b = ret (r, v, None) <->
  exists conts t,
    b = tag :: conts ++ t :: r /\ Forall continues conts /\
    u8 t < continuation /\ (length conts < maxlen)%nat /\
    v = wrap w (varint_value (conts ++ [t]) 0).
Proof.
  intro Hm. split.
  - destruct b as [|t0 p]; [rewrite dec_short by (simpl; lia); discriminate|].
    destruct (Byte.byte_eq_dec t0 tag) as [->|Hne];
      [|rewrite dec_other_tag by assumption; discriminate].
    destruct (varint_shape maxlen p)
      as [(conts & t & r' & -> & Hf & Ht & Hl)
         |[(conts & rest & -> & Hf & Hl)|[Hf Hl]]].
    + rewrite dec_value by assumption. intro H. injection H as <- <-.
      now exists conts, t.
    + rewrite dec_overlong by assumption. discriminate.
    + destruct p as [|c p]; [rewrite dec_short by (simpl; lia); discriminate|].
      rewrite dec_truncated by (assumption || discriminate). discriminate.
  - intros (conts & t & -> & Hf & Ht & Hl & ->). now apply dec_value.
Qed.

Lemma dec_error_iff (b r : list byte) (v : Z) (e : error) :
  (1 <= maxlen)%nat ->
  dec b = ret (r, v, Some e) <->
  r = b /\ v = 0 /\ e = e_end /\
  ((length b < 2)%nat \/ nth_error b 0 <> Some tag \/
   exists conts rest,
     b = tag :: conts ++ rest /\ Forall continues conts /\
     length conts = maxlen).
Proof.
  intro Hm. split.
  - destruct b as [|t0 p].
    { rewrite dec_short by (simpl; lia). intro H. injection H as <- <- <-.
      repeat split. left. simpl. lia. }
    destruct (Byte.byte_eq_dec t0 tag) as [->|Hne].
    2:{ rewrite dec_other_tag by assumption. intro H.
        injection H as <- <- <-. repeat split. right; left. simpl.
        intro E. now injection E. }
    destruct (varint_shape maxlen p)
      as [(conts & t & r' & -> & Hf & Ht & Hl)
         |[(conts & rest & -> & Hf & Hl)|[Hf Hl]]].
    + rewrite dec_value by assumption. discriminate.
    + rewrite dec_overlong by assumption. intro H.
      injection H as <- <- <-. repeat split. right; right.
      now exists conts, rest.
    + destruct p as [|c p].
      * rewrite dec_short by (simpl; lia). intro H.
        injection H as <- <- <-. repeat split. left. simpl. lia.
      * rewrite dec_truncated by (assumption || discriminate). discriminate.
  - intros (-> & -> & -> & [H|[H|(conts & rest & -> & Hf & Hl)]]).
    + now apply dec_short.
    + destruct b as [|t0 p]; [apply dec_short; simpl; lia|].
      apply dec_other_tag. intro E. apply H. now subst.
    + now apply dec_overlong.
Qed.

Lemma dec_panic_iff (b : list byte) :
  (1 <= maxlen)%nat ->
  dec b = panic <->
  exists conts,
    b = tag :: conts /\ conts <> [] /\ Forall continues conts /\
    (length conts < maxlen)%nat.
Proof.
  intro Hm. split.
  - destruct b as [|t0 p]; [rewrite dec_short by (simpl; lia); discriminate|].
    destruct (Byte.byte_eq_dec t0 tag) as [->|Hne];
      [|rewrite dec_other_tag by assumption; discriminate].
    destruct (varint_shape maxlen p)
      as [(conts & t & r' & -> & Hf & Ht & Hl)
         |[(conts & rest & -> & Hf & Hl)|[Hf Hl]]].
    + rewrite dec_value by assumption. discriminate.
    + rewrite dec_overlong by assumption. discriminate.
    + destruct p as [|c p]; [rewrite dec_short by (simpl; lia); discriminate|].
      intros _. exists (c :: p). repeat split; (assumption || discriminate).
  - intros (conts & -> & Hne & Hf & Hl). now apply dec_truncated.
Qed.

End VarintDecoder.

Lemma decodeUint16_as_loop (K : Registry) (b : list byte) :
  decodeUint16 K b
  = varint_decode (Uint16RawKind K) 16 VarIntLen16 InvalidUint32
      InvalidUint16 b.
Proof.
  unfold decodeUint16, varint_decode.
  destruct (and_then _ _) as [[|]|]; cbn [bind];
    first [apply decodeUint16_loop_eq | reflexivity].
Qed.

Lemma decodeUint32_as_loop (K : Registry) (b : list byte) :
  decodeUint32 K b
  = varint_decode (Uint32RawKind K) 32 VarIntLen32 InvalidUint32
      InvalidUint32 b.
Proof. apply decodeUint32_unrolled. Qed.

Lemma decodeUint64_as_loop (K : Registry) (b : list byte) :
  decodeUint64 K b
  = varint_decode (Uint64RawKind K) 64 VarIntLen64 InvalidUint64
      InvalidUint64 b.
Proof.
  unfold decodeUint64, varint_decode.
  destruct (and_then _ _) as [[|]|]; cbn [bind];
    first [apply decodeUint64_loop_eq | reflexivity].
Qed.

(** X4. The unrolled [decodeUint32] and the loops of [decodeUint16] and
    [decodeUint64] are one algorithm: each decoder is the guard on length
    and tag followed by the same loop, at its width and byte count. *)
Theorem unsigned_decoders_share_one_loop (K : Registry) (b : list byte) :
  decodeUint16 K b
  = varint_decode (Uint16RawKind K) 16 VarIntLen16 InvalidUint32
      InvalidUint16 b /\
  decodeUint32 K b
  = varint_decode (Uint32RawKind K) 32 VarIntLen32 InvalidUint32
      InvalidUint32 b /\
  decodeUint64 K b
  = varint_decode (Uint64RawKind K) 64 VarIntLen64 InvalidUint64
      InvalidUint64 b.
Proof.
  split; [apply decodeUint16_as_loop|split];
    [apply decodeUint32_as_loop|apply decodeUint64_as_loop].
Qed.

(** X5. An unsigned varint decoder succeeds exactly on its tag followed by
    fewer than the maximum number of continuation bytes and one terminal
    byte; it returns the bytes after the terminal byte and the accumulated
    value cut to the width.  So a successful decode never reads past the
    terminal byte and never accepts a cursor of another shape. *)
Theorem unsigned_varint_success_iff (K : Registry) (b r : list byte) (v : Z) :
  (decodeUint16 K b = ret (r, v, None) <->
   exists conts t,
     b = Uint16RawKind K :: conts ++ t :: r /\ Forall continues conts /\
     u8 t < continuation /\ (length conts < VarIntLen16)%nat /\
     v = wrap 16 (varint_value (conts ++ [t]) 0)) /\
  (decodeUint32 K b = ret (r, v, None) <->
   exists conts t,
     b = Uint32RawKind K :: conts ++ t :: r /\ Forall continues conts /\
     u8 t < continuation /\ (length conts < VarIntLen32)%nat /\
     v = wrap 32 (varint_value (conts ++ [t]) 0)) /\
  (decodeUint64 K b = ret (r, v, None) <->
   exists conts t,
     b = Uint64RawKind K :: conts ++ t :: r /\ Forall continues conts /\
     u8 t < continuation /\ (length conts < VarIntLen64)%nat /\
     v = wrap 64 (varint_value (conts ++ [t]) 0)).
Proof.
  split; [|split].
  - rewrite decodeUint16_as_loop. apply dec_success_iff; [lia|].
    unfold VarIntLen16; lia.
  - rewrite decodeUint32_as_loop. apply dec_success_iff; [lia|].
    unfold VarIntLen32; lia.
  - rewrite decodeUint64_as_loop. apply dec_success_iff; [lia|].
    unfold VarIntLen64; lia.
Qed.

Lemma unsigned_varint_success_iff_witness :
  exists conts t,
    [x08; x96; x01; x2a] = Uint16RawKind sampleRegistry :: conts ++ t :: [x2a]
    /\ Forall continues conts /\ u8 t < continuation /\
    (length conts < VarIntLen16)%nat /\
    150 = wrap 16 (varint_value (conts ++ [t]) 0).
Proof.
  apply (proj1 (proj1 (unsigned_varint_success_iff sampleRegistry
                         [x08; x96; x01; x2a] [x2a] 150))).
  vm_compute. reflexivity.
Defined.

(** X6. An unsigned varint decoder returns an error exactly when the
    cursor has fewer than two bytes, or starts with another byte than its
    tag, or holds the maximum number of continuation bytes with no
    terminal byte among them.  The error is then the decoder's own
    ([InvalidUint16] for [decodeUint16], never the [InvalidUint32] of its
    overflow branch), the value is 0 and the cursor is returned as it
    was. *)
Theorem unsigned_varint_error_iff (K : Registry) (b r : list byte) (v : Z)
  (e : error) :
  (decodeUint16 K b = ret (r, v, Some e) <->
   r = b /\ v = 0 /\ e = InvalidUint16 /\
   ((length b < 2)%nat \/ nth_error b 0 <> Some (Uint16RawKind K) \/
    exists conts rest,
      b = Uint16RawKind K :: conts ++ rest /\ Forall continues conts /\
      length conts = VarIntLen16)) /\
  (decodeUint32 K b = ret (r, v, Some e) <->
   r = b /\ v = 0 /\ e = InvalidUint32 /\
   ((length b < 2)%nat \/ nth_error b 0 <> Some (Uint32RawKind K) \/
    exists conts rest,
      b = Uint32RawKind K :: conts ++ rest /\ Forall continues conts /\
      length conts = VarIntLen32)) /\
  (decodeUint64 K b = ret (r, v, Some e) <->
   r = b /\ v = 0 /\ e = InvalidUint64 /\
   ((length b < 2)%nat \/ nth_error b 0 <> Some (Uint64RawKind K) \/
    exists conts rest,
      b = Uint64RawKind K :: conts ++ rest /\ Forall continues conts /\
      length conts = VarIntLen64)).
Proof.
  split; [|split].
  - rewrite decodeUint16_as_loop. apply dec_error_iff; [lia|].
    unfold VarIntLen16; lia.
  - rewrite decodeUint32_as_loop. apply dec_error_iff; [lia|].
    unfold VarIntLen32; lia.
  - rewrite decodeUint64_as_loop. apply dec_error_iff; [lia|].
    unfold VarIntLen64; lia.
Qed.

Lemma unsigned_varint_error_iff_witness :
  decodeUint16 sampleRegistry [x08; x80; x80; x80; x01]
  = ret ([x08; x80; x80; x80; x01], 0, Some InvalidUint16).
Proof.
  apply (proj2 (proj1 (unsigned_varint_error_iff sampleRegistry
                         [x08; x80; x80; x80; x01] _ 0 InvalidUint16))).
  repeat split. right; right. exists [x80; x80; x80], [x01].
  repeat split. repeat constructor; unfold continues; vm_compute; discriminate.
Defined.

(** X7. An unsigned varint decoder panics (indexes the cursor out of
    range) exactly on its tag followed by one or more continuation bytes,
    fewer than the maximum byte count, and nothing after them. *)
Theorem unsigned_varint_panic_iff (K : Registry) (b : list byte) :
  (decodeUint16 K b = panic <->
   exists conts,
     b = Uint16RawKind K :: conts /\ conts <> [] /\
     Forall continues conts /\ (length conts < VarIntLen16)%nat) /\
  (decodeUint32 K b = panic <->
   exists conts,
     b = Uint32RawKind K :: conts /\ conts <> [] /\
     Forall continues conts /\ (length conts < VarIntLen32)%nat) /\
  (decodeUint64 K b = panic <->
   exists conts,
     b = Uint64RawKind K :: conts /\ conts <> [] /\
     Forall continues conts /\ (length conts < VarIntLen64)%nat).
Proof.
  split; [|split].
  - rewrite decodeUint16_as_loop. apply dec_panic_iff; [lia|].
    unfold VarIntLen16; lia.
  - rewrite decodeUint32_as_loop. apply dec_panic_iff; [lia|].
    unfold VarIntLen32; lia.
  - rewrite decodeUint64_as_loop. apply dec_panic_iff; [lia|].
    unfold VarIntLen64; lia.
Qed.

Lemma unsigned_varint_panic_iff_witness :
  decodeUint64 sampleRegistry [x0b; xff; xff; xff] = panic.
Proof.
  apply (proj2 (proj2 (proj2 (unsigned_varint_panic_iff sampleRegistry
                                [x0b; xff; xff; xff])))).
  exists [xff; xff; xff]. repeat split.
  - discriminate.
  - repeat constructor; unfold continues; vm_compute; discriminate.
  - unfold VarIntLen64. simpl. lia.
Defined.

(** ** The signed decoders *)

Section SignedDecoder.

(** A signed decoder [sdec] that runs in lockstep with the unsigned
    varint decoder of the same width. *)
Variables (sdec : list byte -> go (out Z)) (ts tu : byte) (es : error).
Variables (w : Z) (maxlen : nat) (e_overflow e_end : error).
Hypothesis w_nonneg : 0 <= w.
Hypothesis maxlen_pos : (1 <= maxlen)%nat.

Let udec := varint_decode tu w maxlen e_overflow e_end.

Hypothesis lockstep : forall p,
  match udec (tu :: p) with
  | Some (r, u, None) => sdec (ts :: p) = ret (r, zigzag_decode u, None)
  | Some (_, _, Some _) => sdec (ts :: p) = ret (ts :: p, 0, Some es)
  | None => sdec (ts :: p) = panic
  end.
Hypothesis sdec_nil : sdec [] = ret ([], 0, Some es).
Hypothesis sdec_other : forall t p,
  t <> ts -> sdec (t :: p) = ret (t :: p, 0, Some es).

Lemma sdec_value (conts rest : list byte) (t : byte) :
  Forall continues conts -> u8 t < continuation ->
  (length conts < maxlen)%nat ->
  sdec (ts :: conts ++ t :: rest)
  = ret (rest, zigzag_decode (wrap w (varint_value (conts ++ [t]) 0)), None).
Proof.
  intros Hc Ht Hn. pose proof (lockstep (conts ++ t :: rest)) as H.
  unfold udec in H.
  now rewrite (dec_value tu w maxlen _ _ w_nonneg conts rest t) in H.
Qed.

Lemma sdec_overlong (conts rest : list byte) :
  Forall continues conts -> length conts = maxlen ->
  sdec (ts :: conts ++ rest) = ret (ts :: conts ++ rest, 0, Some es).
Proof.
  intros Hc Hn. pose proof (lockstep (conts ++ rest)) as H.
  unfold udec in H.
  now rewrite (dec_overlong tu w maxlen _ _ conts rest) in H.
Qed.

Lemma sdec_short (t : byte) : sdec [t] = ret ([t], 0, Some es).
Proof.
  destruct (Byte.byte_eq_dec t ts) as [->|Hne]; [|now apply sdec_other].
  pose proof (lockstep []) as H. unfold udec in H.
  now rewrite (dec_short tu w maxlen _ _ [tu]) in H by (simpl; lia).
Qed.

Lemma sdec_truncated (conts : list byte) :
  conts <> [] -> Forall continues conts -> (length conts < maxlen)%nat ->
  sdec (ts :: conts) = panic.
Proof.
  intros Hne Hc Hn. pose proof (lockstep conts) as H. unfold udec in H.
  now rewrite (dec_truncated tu w maxlen _ _ conts) in H.
Qed.

Lemma sdec_success_iff (b r : list byte) (v : Z) :
  sdec b = ret (r, v, None) <->
  exists conts t,
    b = ts :: conts ++ t :: r /\ Forall continues conts /\
    u8 t < continuation /\ (length conts < maxlen)%nat /\
    v = zigzag_decode (wrap w (varint_value (conts ++ [t]) 0)).
Proof.
  split.
  - destruct b as [|t0 p]; [rewrite sdec_nil; discriminate|].
    destruct (Byte.byte_eq_dec t0 ts) as [->|Hne];
      [|rewrite sdec_other by assumption; discriminate].
    destruct (varint_shape maxlen p)
      as [(conts & t & r' & -> & Hf & Ht & Hl)
         |[(conts & rest & -> & Hf & Hl)|[Hf Hl]]].
    + rewrite sdec_value by assumption. intro H. injection H as <- <-.
      now exists conts, t.
    + rewrite sdec_overlong by assumption. discriminate.
    + destruct p as [|c p]; [rewrite sdec_short; discriminate|].
      rewrite sdec_truncated by (assumption || discriminate). discriminate.
  - intros (conts & t & -> & Hf & Ht & Hl & ->). now apply sdec_value.
Qed.

Lemma sdec_error_iff (b r : list byte) (v : Z) (e : error) :
  sdec b = ret (r, v, Some e) <->
  r = b /\ v = 0 /\ e = es /\
  ((length b < 2)%nat \/ nth_error b 0 <> Some ts \/
   exists conts rest,
     b = ts :: conts ++ rest /\ Forall continues conts /\
     length conts = maxlen).
Proof.
  split.
  - destruct b as [|t0 p].
    { rewrite sdec_nil. intro H. injection H as <- <- <-.
      repeat split. left. simpl. lia. }
    destruct (Byte.byte_eq_dec t0 ts) as [->|Hne].
    2:{ rewrite sdec_other by assumption. intro H.
        injection H as <- <- <-. repeat split. right; left. simpl.
        intro E. now injection E. }
    destruct (varint_shape maxlen p)
      as [(conts & t & r' & -> & Hf & Ht & Hl)
         |[(conts & rest & -> & Hf & Hl)|[Hf Hl]]].
    + rewrite sdec_value by assumption. discriminate.
    + rewrite sdec_overlong by assumption. intro H.
      injection H as <- <- <-. repeat split. right; right.
      now exists conts, rest.
    + destruct p as [|c p].
      * rewrite sdec_short. intro H.
        injection H as <- <- <-. repeat split. left. simpl. lia.
      * rewrite sdec_truncated by (assumption || discriminate). discriminate.
  - intros (-> & -> & -> & [H|[H|(conts & rest & -> & Hf & Hl)]]).
    + destruct b as [|t0 [|c p]]; [apply sdec_nil|apply sdec_short|].
      simpl in H. lia.
    + destruct b as [|t0 p]; [apply sdec_nil|].
      apply sdec_other. intro E. apply H. now subst.
    + now apply sdec_overlong.
Qed.

Lemma sdec_panic_iff (b : list byte) :
  sdec b = panic <->
  exists conts,
    b = ts :: conts /\ conts <> [] /\ Forall continues conts /\
    (length conts < maxlen)%nat.
Proof.
  split.
  - destruct b as [|t0 p]; [rewrite sdec_nil; discriminate|].
    destruct (Byte.byte_eq_dec t0 ts) as [->|Hne];
      [|rewrite sdec_other by assumption; discriminate].
    destruct (varint_shape maxlen p)
      as [(conts & t & r' & -> & Hf & Ht & Hl)
         |[(conts & rest & -> & Hf & Hl)|[Hf Hl]]].
    + rewrite sdec_value by assumption. discriminate.
    + rewrite sdec_overlong by assumption. discriminate.
    + destruct p as [|c p]; [rewrite sdec_short; discriminate|].
      intros _. exists (c :: p). repeat split; (assumption || discriminate).
  - intros (conts & -> & Hne & Hf & Hl). now apply sdec_truncated.
Qed.

End SignedDecoder.

Lemma decodeInt32_other (K : Registry) (t : byte) (p : list byte) :
  t <> Int32RawKind K ->
  decodeInt32 K (t :: p) = ret (t :: p, 0, Some InvalidInt32).
Proof.
  intro H. unfold decodeInt32. destruct p as [|c p]; run; [reflexivity|].
  now rewrite byte_eqb_neq.
Qed.

Lemma decodeInt64_other (K : Registry) (t : byte) (p : list byte) :
  t <> Int64RawKind K ->
  decodeInt64 K (t :: p) = ret (t :: p, 0, Some InvalidInt64).
Proof.
  intro H. unfold decodeInt64. destruct p as [|c p]; run; [reflexivity|].
  now rewrite byte_eqb_neq.
Qed.

Lemma decodeInt32_lockstep_loop (K : Registry) (p : list byte) :
  match varint_decode (Uint32RawKind K) 32 VarIntLen32 InvalidUint32
          InvalidUint32 (Uint32RawKind K :: p) with
  | Some (r, u, None) =>
      decodeInt32 K (Int32RawKind K :: p) = ret (r, zigzag_decode u, None)
  | Some (_, _, Some _) =>
      decodeInt32 K (Int32RawKind K :: p)
      = ret (Int32RawKind K :: p, 0, Some InvalidInt32)
  | None => decodeInt32 K (Int32RawKind K :: p) = panic
  end.
Proof. rewrite <- decodeUint32_as_loop. apply decodeInt32_lockstep. Qed.

Lemma decodeInt64_lockstep_loop (K : Registry) (p : list byte) :
  match varint_decode (Uint64RawKind K) 64 VarIntLen64 InvalidUint64
          InvalidUint64 (Uint64RawKind K :: p) with
  | Some (r, u, None) =>
      decodeInt64 K (Int64RawKind K :: p) = ret (r, zigzag_decode u, None)
  | Some (_, _, Some _) =>
      decodeInt64 K (Int64RawKind K :: p)
      = ret (Int64RawKind K :: p, 0, Some InvalidInt64)
  | None => decodeInt64 K (Int64RawKind K :: p) = panic
  end.
Proof. rewrite <- decodeUint64_as_loop. apply decodeInt64_lockstep. Qed.

(** C7. The signed decoders compute the unsigned value [u] of the varint
    (the 7-bit groups of its bytes, least significant first, cut to the
    width) and return [u >> 1] when the low bit of [u] is clear and
    [-((u >> 1) + 1)] when it is set, with the cursor after the varint.
    Every success is of this form, and on every input a signed decoder
    succeeds, fails or panics as the unsigned decoder of its width does on
    the same varint bytes.  Decoding the Int32 tag followed by the single
    byte 0x01 returns -1; the bytes 0xab 0x02, the code 299, decode to
    -150. *)
Theorem signed_decode_is_zigzag (K : Registry) :
  (forall conts t rest,
     Forall continues conts -> u8 t < continuation ->
     (length conts < VarIntLen32)%nat ->
     let u := wrap 32 (varint_value (conts ++ [t]) 0) in
     decodeInt32 K (Int32RawKind K :: conts ++ t :: rest)
     = ret (rest,
            (if Z.testbit u 0 then - (Z.shiftr u 1 + 1) else Z.shiftr u 1),
            None)) /\
  (forall conts t rest,
     Forall continues conts -> u8 t < continuation ->
     (length conts < VarIntLen64)%nat ->
     let u := wrap 64 (varint_value (conts ++ [t]) 0) in
     decodeInt64 K (Int64RawKind K :: conts ++ t :: rest)
     = ret (rest,
            (if Z.testbit u 0 then - (Z.shiftr u 1 + 1) else Z.shiftr u 1),
            None)) /\
  (forall b r v,
     decodeInt32 K b = ret (r, v, None) ->
     exists conts t,
       b = Int32RawKind K :: conts ++ t :: r /\ Forall continues conts /\
       u8 t < continuation /\ (length conts < VarIntLen32)%nat) /\
  (forall b r v,
     decodeInt64 K b = ret (r, v, None) ->
     exists conts t,
       b = Int64RawKind K :: conts ++ t :: r /\ Forall continues conts /\
       u8 t < continuation /\ (length conts < VarIntLen64)%nat) /\
  (forall p,
     match decodeUint32 K (Uint32RawKind K :: p) with
     | Some (r, u, None) =>
         decodeInt32 K (Int32RawKind K :: p)
         = ret (r, zigzag_decode u, None)
     | Some (_, _, Some _) =>
         decodeInt32 K (Int32RawKind K :: p)
         = ret (Int32RawKind K :: p, 0, Some InvalidInt32)
     | None => decodeInt32 K (Int32RawKind K :: p) = panic
     end) /\
  (forall p,
     match decodeUint64 K (Uint64RawKind K :: p) with
     | Some (r, u, None) =>
         decodeInt64 K (Int64RawKind K :: p)
         = ret (r, zigzag_decode u, None)
     | Some (_, _, Some _) =>
         decodeInt64 K (Int64RawKind K :: p)
         = ret (Int64RawKind K :: p, 0, Some InvalidInt64)
     | None => decodeInt64 K (Int64RawKind K :: p) = panic
     end) /\
  decodeInt32 K [Int32RawKind K; x01] = ret ([], -1, None) /\
  decodeInt64 K [Int64RawKind K; xab; x02] = ret ([], -150, None).
Proof.
  assert (V32 : forall conts t rest,
            Forall continues conts -> u8 t < continuation ->
            (length conts < VarIntLen32)%nat ->
            decodeInt32 K (Int32RawKind K :: conts ++ t :: rest)
            = ret (rest,
                   zigzag_decode (wrap 32 (varint_value (conts ++ [t]) 0)),
                   None)).
  { intros conts t rest.
    apply (sdec_value (decodeInt32 K) (Int32RawKind K) (Uint32RawKind K)
             InvalidInt32 32 VarIntLen32 InvalidUint32 InvalidUint32);
      [lia|apply decodeInt32_lockstep_loop]. }
  assert (V64 : forall conts t rest,
            Forall continues conts -> u8 t < continuation ->
            (length conts < VarIntLen64)%nat ->
            decodeInt64 K (Int64RawKind K :: conts ++ t :: rest)
            = ret (rest,
                   zigzag_decode (wrap 64 (varint_value (conts ++ [t]) 0)),
                   None)).
  { intros conts t rest.
    apply (sdec_value (decodeInt64 K) (Int64RawKind K) (Uint64RawKind K)
             InvalidInt64 64 VarIntLen64 InvalidUint64 InvalidUint64);
      [lia|apply decodeInt64_lockstep_loop]. }
  split; [exact V32|]. split; [exact V64|].
  split.
  { intros b r v H.
    apply (sdec_success_iff (decodeInt32 K) (Int32RawKind K)
             (Uint32RawKind K) InvalidInt32 32 VarIntLen32
             InvalidUint32 InvalidUint32) in H;
      [|lia|unfold VarIntLen32; lia|apply decodeInt32_lockstep_loop
       |reflexivity|apply decodeInt32_other].
    destruct H as (conts & t & Hb & Hf & Ht & Hl & _).
    now exists conts, t. }
  split.
  { intros b r v H.
    apply (sdec_success_iff (decodeInt64 K) (Int64RawKind K)
             (Uint64RawKind K) InvalidInt64 64 VarIntLen64
             InvalidUint64 InvalidUint64) in H;
      [|lia|unfold VarIntLen64; lia|apply decodeInt64_lockstep_loop
       |reflexivity|apply decodeInt64_other].
    destruct H as (conts & t & Hb & Hf & Ht & Hl & _).
    now exists conts, t. }
  split; [exact (decodeInt32_lockstep K)|].
  split; [exact (decodeInt64_lockstep K)|].
  split.
  - apply (V32 [] x01 []);
      [constructor|reflexivity|unfold VarIntLen32; simpl; lia].
  - apply (V64 [xab] x02 []);
      [|reflexivity|unfold VarIntLen64; simpl; lia].
    repeat constructor. unfold continues. vm_compute. discriminate.
Qed.

Lemma signed_decode_is_zigzag_witness :
  decodeInt64 sampleRegistry [x0d; xac; x02; x2a] = ret ([x2a], 150, None).
Proof.
  apply (proj1 (proj2 (signed_decode_is_zigzag sampleRegistry)) [xac] x02
           [x2a]).
  - repeat constructor. unfold continues. vm_compute. discriminate.
  - reflexivity.
  - unfold VarIntLen64. simpl. lia.
Defined.

(** X8. A signed decoder succeeds exactly on its tag followed by a varint
    that ends within the maximum byte count, and returns the zigzag value
    of the accumulated unsigned number: [u >> 1] for an even [u],
    [-((u >> 1) + 1)] for an odd one. *)
Theorem signed_varint_success_iff (K : Registry) (b r : list byte) (v : Z) :
  (decodeInt32 K b = ret (r, v, None) <->
   exists conts t,
     b = Int32RawKind K :: conts ++ t :: r /\ Forall continues conts /\
     u8 t < continuation /\ (length conts < VarIntLen32)%nat /\
     v = zigzag_decode (wrap 32 (varint_value (conts ++ [t]) 0))) /\
  (decodeInt64 K b = ret (r, v, None) <->
   exists conts t,
     b = Int64RawKind K :: conts ++ t :: r /\ Forall continues conts /\
     u8 t < continuation /\ (length conts < VarIntLen64)%nat /\
     v = zigzag_decode (wrap 64 (varint_value (conts ++ [t]) 0))).
Proof.
  split.
  - apply (sdec_success_iff (decodeInt32 K) (Int32RawKind K)
             (Uint32RawKind K) InvalidInt32 32 VarIntLen32
             InvalidUint32 InvalidUint32);
      [lia|unfold VarIntLen32; lia|apply decodeInt32_lockstep_loop
      |reflexivity|apply decodeInt32_other].
  - apply (sdec_success_iff (decodeInt64 K) (Int64RawKind K)
             (Uint64RawKind K) InvalidInt64 64 VarIntLen64
             InvalidUint64 InvalidUint64);
      [lia|unfold VarIntLen64; lia|apply decodeInt64_lockstep_loop
      |reflexivity|apply decodeInt64_other].
Qed.

Lemma signed_varint_success_iff_witness :
  decodeInt64 sampleRegistry [x0d; xab; x02; x01] = ret ([x01], -150, None).
Proof.
  apply (proj2 (proj2 (signed_varint_success_iff sampleRegistry
                         [x0d; xab; x02; x01] [x01] (-150)))).
  exists [xab], x02. repeat split.
  - repeat constructor; unfold continues; vm_compute; discriminate.
  - unfold VarIntLen64. simpl. lia.
Defined.

(** X9. A signed decoder returns an error exactly when the cursor has
    fewer than two bytes, or starts with another byte than its tag, or
    holds the maximum number of continuation bytes; the cursor is then
    returned as it was, with the value 0.  It panics exactly on its tag
    followed by one or more continuation bytes, fewer than the maximum,
    and nothing after them. *)
Theorem signed_varint_failure_iff (K : Registry) (b : list byte) :
  (forall r v e,
     decodeInt32 K b = ret (r, v, Some e) <->
     r = b /\ v = 0 /\ e = InvalidInt32 /\
     ((length b < 2)%nat \/ nth_error b 0 <> Some (Int32RawKind K) \/
      exists conts rest,
        b = Int32RawKind K :: conts ++ rest /\ Forall continues conts /\
        length conts = VarIntLen32)) /\
  (forall r v e,
     decodeInt64 K b = ret (r, v, Some e) <->
     r = b /\ v = 0 /\ e = InvalidInt64 /\
     ((length b < 2)%nat \/ nth_error b 0 <> Some (Int64RawKind K) \/
      exists conts rest,
        b = Int64RawKind K :: conts ++ rest /\ Forall continues conts /\
        length conts = VarIntLen64)) /\
  (decodeInt32 K b = panic <->
   exists conts,
     b = Int32RawKind K :: conts /\ conts <> [] /\
     Forall continues conts /\ (length conts < VarIntLen32)%nat) /\
  (decodeInt64 K b = panic <->
   exists conts,
     b = Int64RawKind K :: conts /\ conts <> [] /\
     Forall continues conts /\ (length conts < VarIntLen64)%nat).
Proof.
  split; [|split; [|split]].
  - intros r v e.
    apply (sdec_error_iff (decodeInt32 K) (Int32RawKind K)
             (Uint32RawKind K) InvalidInt32 32 VarIntLen32
             InvalidUint32 InvalidUint32);
      [lia|unfold VarIntLen32; lia|apply decodeInt32_lockstep_loop
      |reflexivity|apply decodeInt32_other].
  - intros r v e.
    apply (sdec_error_iff (decodeInt64 K) (Int64RawKind K)
             (Uint64RawKind K) InvalidInt64 64 VarIntLen64
             InvalidUint64 InvalidUint64);
      [lia|unfold VarIntLen64; lia|apply decodeInt64_lockstep_loop
      |reflexivity|apply decodeInt64_other].
  - apply (sdec_panic_iff (decodeInt32 K) (Int32RawKind K)
             (Uint32RawKind K) InvalidInt32 32 VarIntLen32
             InvalidUint32 InvalidUint32);
      [lia|unfold VarIntLen32; lia|apply decodeInt32_lockstep_loop
      |reflexivity|apply decodeInt32_other].
  - apply (sdec_panic_iff (decodeInt64 K) (Int64RawKind K)
             (Uint64RawKind K) InvalidInt64 64 VarIntLen64
             InvalidUint64 InvalidUint64);
      [lia|unfold VarIntLen64; lia|apply decodeInt64_lockstep_loop
      |reflexivity|apply decodeInt64_other].
Qed.

Lemma signed_varint_failure_iff_witness :
  decodeInt32 sampleRegistry [x0c; x80; x80; x80; x80; x80; x00]
  = ret ([x0c; x80; x80; x80; x80; x80; x00], 0, Some InvalidInt32).
Proof.
  apply (proj2 (proj1 (signed_varint_failure_iff sampleRegistry
                         [x0c; x80; x80; x80; x80; x80; x00]) _ 0
                  InvalidInt32)).
  repeat split. right; right. exists [x80; x80; x80; x80; x80], [x00].
  repeat split. repeat constructor; unfold continues; vm_compute; discriminate.
Defined.

(** ** Zigzag as a bijection *)

Lemma zigzag_decode_half (u : Z) :
  zigzag_decode u = if Z.odd u then - (u / 2 + 1) else u / 2.
Proof.
  unfold zigzag_decode. rewrite Z.bit0_odd, Z.shiftr_div_pow2 by lia.
  reflexivity.
Qed.

Lemma half_parity (u : Z) : u = 2 * (u / 2) + Z.b2z (Z.odd u).
Proof. rewrite <- Z.div2_div. apply Z.div2_odd. Qed.

(** X10. The signed arithmetic of the decoders ([x := intW(ux >> 1)],
    then [x = -(x + 1)] when the low bit of [ux] is set) returns the exact
    zigzag value of every [w]-bit code: 0, 1, 2, 3, ... give 0, -1, 1,
    -2, ..., and that value lies in the range of [intW].  The arithmetic
    wraps at one code, the code of all ones: there [x + 1] is 2^(w-1), one
    more than the largest [intW]; it wraps to the smallest, -2^(w-1),
    whose negation wraps to itself, and that is the exact value.  At every
    other odd code [x + 1] and its negation stay in the range.  The map is
    a bijection from the codes onto the range of [intW]. *)
Theorem unzigzag_bijection (w : Z) :
  0 < w ->
  (forall u, 0 <= u < 2 ^ w ->
     let exact := if Z.odd u then - (u / 2 + 1) else u / 2 in
     unzigzag w u = exact /\ - 2 ^ (w - 1) <= exact < 2 ^ (w - 1)) /\
  (sint w (Z.shiftr (2 ^ w - 1) 1) + 1 = 2 ^ (w - 1) /\
   sint w (2 ^ (w - 1)) = - 2 ^ (w - 1) /\
   sint w (- - 2 ^ (w - 1)) = - 2 ^ (w - 1) /\
   unzigzag w (2 ^ w - 1) = - 2 ^ (w - 1)) /\
  (forall u, 0 <= u < 2 ^ w - 1 -> Z.odd u = true ->
     - 2 ^ (w - 1) <= sint w (Z.shiftr u 1) + 1 < 2 ^ (w - 1) /\
     - 2 ^ (w - 1) <= - (sint w (Z.shiftr u 1) + 1) < 2 ^ (w - 1)) /\
  (forall u u', 0 <= u < 2 ^ w -> 0 <= u' < 2 ^ w ->
     unzigzag w u = unzigzag w u' -> u = u') /\
  (forall n, - 2 ^ (w - 1) <= n < 2 ^ (w - 1) ->
     exists u, 0 <= u < 2 ^ w /\ unzigzag w u = n).
Proof.
  intro Hw.
  assert (E : 2 ^ w = 2 * 2 ^ (w - 1)).
  { rewrite <- Z.pow_succ_r by lia. f_equal. lia. }
  assert (Hpos : 0 < 2 ^ (w - 1)) by (apply Z.pow_pos_nonneg; lia).
  assert (Hval : forall u, 0 <= u < 2 ^ w ->
            unzigzag w u = (if Z.odd u then - (u / 2 + 1) else u / 2)).
  { intros u Hu. rewrite unzigzag_exact by assumption.
    apply zigzag_decode_half. }
  assert (Hhalf : forall u, 0 <= u < 2 ^ w ->
            sint w (Z.shiftr u 1) = u / 2 /\ 0 <= u / 2 < 2 ^ (w - 1)).
  { intros u Hu. rewrite Z.shiftr_div_pow2 by lia. change (2 ^ 1) with 2.
    assert (0 <= u / 2 < 2 ^ (w - 1)).
    { split; [apply Z.div_pos; lia|apply Z.div_lt_upper_bound; lia]. }
    split; [apply sint_small; lia|assumption]. }
  assert (Hones : (2 ^ w - 1) / 2 = 2 ^ (w - 1) - 1).
  { symmetry. apply (Z.div_unique _ _ _ 1); lia. }
  split; [|split; [|split; [|split]]].
  - intros u Hu. cbv zeta. split; [now apply Hval|].
    pose proof (half_parity u) as Hp.
    destruct (Z.odd u); cbn [Z.b2z] in Hp; lia.
  - destruct (Hhalf (2 ^ w - 1)) as [Hs _]; [lia|].
    rewrite Hs, Hones. repeat split.
    + lia.
    + now apply sint_min.
    + rewrite Z.opp_involutive. now apply sint_min.
    + rewrite Hval by lia. rewrite Hones.
      replace (Z.odd (2 ^ w - 1)) with true; [lia|].
      rewrite E. replace (2 * 2 ^ (w - 1) - 1)
        with (1 + 2 * (2 ^ (w - 1) - 1)) by lia.
      now rewrite Z.odd_add_mul_2.
  - intros u Hu Hodd. destruct (Hhalf u) as [Hs Hr]; [lia|].
    rewrite Hs. pose proof (half_parity u) as Hp. rewrite Hodd in Hp.
    cbn [Z.b2z] in Hp. lia.
  - intros u u' Hu Hu'. rewrite !Hval by assumption.
    pose proof (half_parity u) as Hp. pose proof (half_parity u') as Hp'.
    destruct (Z.odd u), (Z.odd u'); cbn [Z.b2z] in Hp, Hp'; lia.
  - intros n Hn. destruct (Z.lt_ge_cases n 0) as [Hneg|Hnn].
    + exists (- 2 * n - 1). split; [lia|]. rewrite Hval by lia.
      replace (- 2 * n - 1) with (1 + 2 * (- n - 1)) by lia.
      rewrite Z.odd_add_mul_2. cbn [Z.odd].
      replace (1 + 2 * (- n - 1)) with (1 + (- n - 1) * 2) by lia.
      rewrite Z.div_add by lia. cbn. lia.
    + exists (2 * n). split; [lia|]. rewrite Hval by lia.
      replace (2 * n) with (0 + 2 * n) by lia.
      rewrite Z.odd_add_mul_2. cbn [Z.odd].
      replace (0 + 2 * n) with (n * 2) by lia.
      rewrite Z.div_mul by lia. reflexivity.
Qed.

Lemma unzigzag_bijection_witness :
  0 < 32 /\ unzigzag 32 (2 ^ 32 - 1) = - 2 ^ (32 - 1).
Proof.
  split; [reflexivity|].
  apply (proj1 (proj2 (unzigzag_bijection 32 ltac:(reflexivity)))).
Defined.

(** ** Every value has an encoding *)

Lemma u8_byte_of (z : Z) : 0 <= z < 256 -> u8 (byte_of z) = z.
Proof.
  intro Hz. unfold byte_of, u8.
  destruct (Byte.of_N (Z.to_N z)) as [c|] eqn:E.
  - apply Byte.to_of_N in E. rewrite E. apply Z2N.id. lia.
  - apply Byte.of_N_None_iff in E. lia.
Qed.

Lemma groups_spec (k : nat) (u : Z) :
  Forall continues (groups k u) /\ length (groups k u) = k.
Proof.
  revert u. induction k as [|k IH]; intro u; cbn [groups].
  - split; [constructor|reflexivity].
  - destruct (IH (u / 128)) as [Hf Hl].
    split; [|cbn [length]; now rewrite Hl].
    constructor; [|assumption]. unfold continues, continuation.
    pose proof (Z.mod_pos_bound u 128 ltac:(lia)).
    rewrite u8_byte_of; lia.
Qed.

Lemma groups_value (k : nat) (u s : Z) (t : byte) :
  0 <= u -> 0 <= s -> u8 t < continuation -> u8 t = u / 128 ^ Z.of_nat k ->
  varint_value (groups k u ++ [t]) s = Z.shiftl u s.
Proof.
  revert u s. induction k as [|k IH]; intros u s Hu Hs Ht Hq.
  - cbn [groups app varint_value]. rewrite Z.lor_0_r.
    change 127 with (continuation - 1). rewrite low7_small by assumption.
    rewrite Hq. cbn. now rewrite Z.div_1_r.
  - cbn [groups app varint_value].
    pose proof (Z.mod_pos_bound u 128 ltac:(lia)) as Hm.
    rewrite u8_byte_of by lia.
    rewrite IH; try assumption; try lia.
    + change 127 with (Z.ones 7). rewrite Z.land_ones by lia.
      change (2 ^ 7) with 128.
      replace ((128 + u mod 128) mod 128) with (u mod 128).
      2:{ replace (128 + u mod 128) with (u mod 128 + 1 * 128) by lia.
          rewrite Z.mod_add by lia. now rewrite Z.mod_mod by lia. }
      replace (s + 7) with (7 + s) by lia.
      rewrite <- Z.shiftl_shiftl by lia. rewrite <- Z.shiftl_lor.
      f_equal. rewrite lor_shiftl_add by (change (2 ^ 7) with 128; lia).
      change (2 ^ 7) with 128. rewrite (Z.div_mod u 128) at 3 by lia. lia.
    + apply Z.div_pos; lia.
    + rewrite Hq. rewrite Nat2Z.inj_succ, Z.pow_succ_r by lia.
      rewrite Z.div_div by (try apply Z.pow_pos_nonneg; lia). reflexivity.
Qed.

(** The encoding of [u] on [k + 1] bytes, for [u] below 2^[w] with
    [w <= 7 * k + 7]: its groups and the terminal byte. *)
Lemma encoding_exists (k : nat) (w u : Z) :
  0 <= u < 2 ^ w -> 0 <= w -> w <= 7 * Z.of_nat k + 7 ->
  exists conts t,
    Forall continues conts /\ length conts = k /\ u8 t < continuation /\
    wrap w (varint_value (conts ++ [t]) 0) = u.
Proof.
  intros Hu Hw Hk.
  assert (Hp : 0 < 128 ^ Z.of_nat k) by (apply Z.pow_pos_nonneg; lia).
  assert (Hq : 0 <= u / 128 ^ Z.of_nat k < 128).
  { split; [apply Z.div_pos; lia|].
    apply Z.div_lt_upper_bound; [assumption|].
    apply Z.lt_le_trans with (2 ^ w); [lia|].
    replace (128 ^ Z.of_nat k * 128) with (2 ^ (7 * Z.of_nat k + 7)).
    - apply Z.pow_le_mono_r; lia.
    - rewrite Z.pow_add_r, Z.pow_mul_r by lia. reflexivity. }
  destruct (groups_spec k u) as [Hf Hl].
  exists (groups k u), (byte_of (u / 128 ^ Z.of_nat k)).
  assert (Ht : u8 (byte_of (u / 128 ^ Z.of_nat k)) = u / 128 ^ Z.of_nat k)
    by (apply u8_byte_of; lia).
  repeat split; try assumption.
  - rewrite Ht. unfold continuation. lia.
  - rewrite groups_value; try lia.
    + rewrite Z.shiftl_0_r. now apply wrap_small.
    + rewrite Ht. unfold continuation. lia.
Qed.

(** X11. Every value of the type is the result of a decode: each number
    below 2^16, 2^32 and 2^64 has an encoding of 3, 5 and 10 varint bytes
    that the unsigned decoder of that width decodes to it, whatever
    follows the encoding; the bits dropped at the last byte make no value
    unreachable. *)
Theorem unsigned_varint_onto (K : Registry) :
  (forall u, 0 <= u < 2 ^ 16 ->
     exists bs, length bs = VarIntLen16 /\
       forall rest,
         decodeUint16 K (Uint16RawKind K :: bs ++ rest) = ret (rest, u, None)) /\
  (forall u, 0 <= u < 2 ^ 32 ->
     exists bs, length bs = VarIntLen32 /\
       forall rest,
         decodeUint32 K (Uint32RawKind K :: bs ++ rest) = ret (rest, u, None)) /\
  (forall u, 0 <= u < 2 ^ 64 ->
     exists bs, length bs = VarIntLen64 /\
       forall rest,
         decodeUint64 K (Uint64RawKind K :: bs ++ rest) = ret (rest, u, None)).
Proof.
  repeat split; intros u Hu.
  - destruct (encoding_exists 2 16 u Hu) as (conts & t & Hf & Hl & Ht & Hv);
      try lia.
    exists (conts ++ [t]). split; [rewrite length_app, Hl; reflexivity|].
    intro rest. rewrite <- app_assoc. cbn [app].
    rewrite decodeUint16_value, Hv; try assumption; [reflexivity|].
    rewrite Hl. unfold VarIntLen16. lia.
  - destruct (encoding_exists 4 32 u Hu) as (conts & t & Hf & Hl & Ht & Hv);
      try lia.
    exists (conts ++ [t]). split; [rewrite length_app, Hl; reflexivity|].
    intro rest. rewrite <- app_assoc. cbn [app].
    rewrite decodeUint32_value, Hv; try assumption; [reflexivity|].
    rewrite Hl. unfold VarIntLen32. lia.
  - destruct (encoding_exists 9 64 u Hu) as (conts & t & Hf & Hl & Ht & Hv);
      try lia.
    exists (conts ++ [t]). split; [rewrite length_app, Hl; reflexivity|].
    intro rest. rewrite <- app_assoc. cbn [app].
    rewrite decodeUint64_value, Hv; try assumption; [reflexivity|].
    rewrite Hl. unfold VarIntLen64. lia.
Qed.

Lemma unsigned_varint_onto_witness :
  exists bs, length bs = VarIntLen16 /\
    forall rest,
      decodeUint16 sampleRegistry (Uint16RawKind sampleRegistry :: bs ++ rest)
      = ret (rest, 65535, None).
Proof.
  apply (proj1 (unsigned_varint_onto sampleRegistry) 65535).
  vm_compute. split; [discriminate|reflexivity].
Defined.

(** X12. Every value of [int32] and of [int64] is the result of a decode:
    each has an encoding of 5 and 10 varint bytes that the signed decoder
    decodes to it, whatever follows the encoding. *)
Theorem signed_varint_onto (K : Registry) :
  (forall n, - 2 ^ 31 <= n < 2 ^ 31 ->
     exists bs, length bs = VarIntLen32 /\
       forall rest,
         decodeInt32 K (Int32RawKind K :: bs ++ rest) = ret (rest, n, None)) /\
  (forall n, - 2 ^ 63 <= n < 2 ^ 63 ->
     exists bs, length bs = VarIntLen64 /\
       forall rest,
         decodeInt64 K (Int64RawKind K :: bs ++ rest) = ret (rest, n, None)).
Proof.
  assert (Hcode : forall w n, 0 < w -> - 2 ^ (w - 1) <= n < 2 ^ (w - 1) ->
            exists u, 0 <= u < 2 ^ w /\ zigzag_decode u = n).
  { intros w n Hw Hn.
    assert (E : 2 ^ w = 2 * 2 ^ (w - 1)).
    { rewrite <- Z.pow_succ_r by lia. f_equal. lia. }
    destruct (Z.lt_ge_cases n 0) as [Hneg|Hpos].
    - exists (- 2 * n - 1). split; [lia|]. rewrite zigzag_decode_half.
      replace (- 2 * n - 1) with (1 + 2 * (- n - 1)) by lia.
      rewrite Z.odd_add_mul_2. cbn [Z.odd].
      replace (1 + 2 * (- n - 1)) with (1 + (- n - 1) * 2) by lia.
      rewrite Z.div_add by lia. cbn. lia.
    - exists (2 * n). split; [lia|]. rewrite zigzag_decode_half.
      replace (2 * n) with (0 + 2 * n) by lia.
      rewrite Z.odd_add_mul_2. cbn [Z.odd].
      replace (0 + 2 * n) with (n * 2) by lia.
      rewrite Z.div_mul by lia. reflexivity. }
  split; intros n Hn.
  - destruct (Hcode 32 n ltac:(lia) Hn) as (u & Hu & Hz).
    destruct (encoding_exists 4 32 u Hu) as (conts & t & Hf & Hl & Ht & Hv);
      try lia.
    exists (conts ++ [t]). split; [rewrite length_app, Hl; reflexivity|].
    intro rest. rewrite <- app_assoc. cbn [app].
    rewrite (sdec_value (decodeInt32 K) (Int32RawKind K) (Uint32RawKind K)
               InvalidInt32 32 VarIntLen32 InvalidUint32 InvalidUint32
               ltac:(lia) (decodeInt32_lockstep_loop K));
      try assumption; [now rewrite Hv, Hz|].
    rewrite Hl. unfold VarIntLen32. lia.
  - destruct (Hcode 64 n ltac:(lia) Hn) as (u & Hu & Hz).
    destruct (encoding_exists 9 64 u Hu) as (conts & t & Hf & Hl & Ht & Hv);
      try lia.
    exists (conts ++ [t]). split; [rewrite length_app, Hl; reflexivity|].
    intro rest. rewrite <- app_assoc. cbn [app].
    rewrite (sdec_value (decodeInt64 K) (Int64RawKind K) (Uint64RawKind K)
               InvalidInt64 64 VarIntLen64 InvalidUint64 InvalidUint64
               ltac:(lia) (decodeInt64_lockstep_loop K));
      try assumption; [now rewrite Hv, Hz|].
    rewrite Hl. unfold VarIntLen64. lia.
Qed.

Lemma signed_varint_onto_witness :
  exists bs, length bs = VarIntLen32 /\
    forall rest,
      decodeInt32 sampleRegistry (Int32RawKind sampleRegistry :: bs ++ rest)
      = ret (rest, - 2 ^ 31, None).
Proof.
  apply (proj1 (signed_varint_onto sampleRegistry) (- 2 ^ 31)).
  vm_compute. split; [discriminate|reflexivity].
Defined.

(** ** Strings and errors *)


(** [decodeString] after its tag, by the outcome of the length prefix. *)
Lemma decodeString_framed (K : Registry) (c1 c2 c3 c4 : byte)
  (p : list byte) :
  decodeString K
    (StringRawKind K :: StaticUint32RawKind K :: c1 :: c2 :: c3 :: c4 :: p)
  = if be32 c1 c2 c3 c4 - 1 <? len p then
      ret (skipn (Z.to_nat (be32 c1 c2 c3 c4)) p,
           firstn (Z.to_nat (be32 c1 c2 c3 c4)) p, None)
    else ret (p, emptyString, Some InvalidString).
Proof.
  unfold decodeString. run. rewrite byte_eqb_refl.
  rewrite decodeStaticUint32_eq, byte_eqb_refl. cbn [bind ret].
  destruct (be32 c1 c2 c3 c4 - 1 <? len p) eqn:E; [|reflexivity].
  pose proof (be32_range c1 c2 c3 c4) as Hr.
  unfold slice_from, slice_to. rewrite (slice_guard p _ (proj1 Hr) E).
  reflexivity.
Qed.

Lemma decodeString_ok (K : Registry) (b r s : list byte) :
  decodeString K b = ret (r, s, None) <->
  exists c1 c2 c3 c4,
    b = StringRawKind K :: StaticUint32RawKind K :: c1 :: c2 :: c3 :: c4
          :: s ++ r /\
    be32 c1 c2 c3 c4 = Z.of_nat (length s).
Proof.
  split.
  - destruct b as [|t p]; [unfold decodeString; run; discriminate|].
    destruct (Byte.eqb t (StringRawKind K)) eqn:Et.
    2:{ unfold decodeString. run. rewrite Et. discriminate. }
    apply byte_eqb_eq in Et. subst t.
    destruct (decodeStaticUint32_total K p) as [(q & n & H)|H].
    + apply decodeStaticUint32_ok in H.
      destruct H as (c1 & c2 & c3 & c4 & -> & ->).
      rewrite decodeString_framed.
      destruct (be32 c1 c2 c3 c4 - 1 <? len q) eqn:E; [|discriminate].
      intro H. injection H as <- <-. exists c1, c2, c3, c4.
      rewrite firstn_skipn. split; [reflexivity|].
      pose proof (be32_range c1 c2 c3 c4) as Hr.
      apply Z.ltb_lt in E. unfold len in E.
      rewrite firstn_length_le by lia. lia.
    + unfold decodeString. run. rewrite byte_eqb_refl, H. discriminate.
  - intros (c1 & c2 & c3 & c4 & -> & Hs). rewrite decodeString_framed.
    replace (be32 c1 c2 c3 c4 - 1 <? len (s ++ r)) with true
      by (symmetry; apply Z.ltb_lt; unfold len; rewrite length_app; lia).
    rewrite Hs, Nat2Z.id.
    now rewrite skipn_app, Nat.sub_diag, skipn_all,
      firstn_app, Nat.sub_diag, firstn_all, app_nil_r.
Qed.

Lemma decodeError_ok (K : Registry) (b r : list byte)
  (v : option domain_error) :
  decodeError K b = ret (r, v, None) <->
  exists m, v = Some (Error m) /\
            decodeString K (skipn 1 b) = ret (r, m, None) /\
            nth_error b 0 = Some (ErrorRawKind K).
Proof.
  unfold decodeError. destruct b as [|t p]; run.
  { split; [discriminate|]. intros (m & _ & _ & H). discriminate. }
  destruct (Byte.eqb t (ErrorRawKind K)) eqn:Et.
  - apply byte_eqb_eq in Et. subst t.
    destruct (decodeString K p) as [[[r' m'] [e|]]|]; cbn [bind ret].
    + split; [discriminate|]. intros (m & _ & H & _). discriminate.
    + split.
      * intro H. injection H as <- <-. now exists m'.
      * intros (m & -> & H & _). now injection H as <- <-.
    + split; [discriminate|]. intros (m & _ & H & _). discriminate.
  - split; [discriminate|]. intros (m & _ & _ & H).
    injection H as ->. now rewrite byte_eqb_refl in Et.
Qed.

(** X13. [decodeString] succeeds exactly on the String tag, a
    StaticUint32 length L and at least L further bytes; it returns these L
    bytes as the string and the cursor after them.  The length prefix is
    the only bound: the string may hold any bytes. *)
Theorem string_wire_format (K : Registry) (b r s : list byte) :
  decodeString K b = ret (r, s, None) <->
  exists c1 c2 c3 c4,
    b = StringRawKind K :: StaticUint32RawKind K :: c1 :: c2 :: c3 :: c4
          :: s ++ r /\
    u8 c1 * 2 ^ 24 + u8 c2 * 2 ^ 16 + u8 c3 * 2 ^ 8 + u8 c4
    = Z.of_nat (length s).
Proof.
  rewrite decodeString_ok.
  split; intros (c1 & c2 & c3 & c4 & Hb & Hn); exists c1, c2, c3, c4;
    (split; [assumption|]); now rewrite be32_value in *.
Qed.

Lemma string_wire_format_witness :
  decodeString sampleRegistry [x04; x0a; x00; x00; x00; x02; x68; x69; x07]
  = ret ([x07], [x68; x69], None).
Proof.
  apply (proj2 (string_wire_format sampleRegistry
                  [x04; x0a; x00; x00; x00; x02; x68; x69; x07]
                  [x07] [x68; x69])).
  exists x00, x00, x00, x02. split; reflexivity.
Defined.

(** X14. [decodeError] succeeds exactly on the Error tag followed by a
    well-formed String; the value is then an error that carries the bytes
    of that string as its message (never [nil]), and the cursor is the one
    after the string. *)
Theorem error_wire_format (K : Registry) (b r : list byte)
  (v : option domain_error) :
  decodeError K b = ret (r, v, None) <->
  exists c1 c2 c3 c4 m,
    b = ErrorRawKind K :: StringRawKind K :: StaticUint32RawKind K
          :: c1 :: c2 :: c3 :: c4 :: m ++ r /\
    u8 c1 * 2 ^ 24 + u8 c2 * 2 ^ 16 + u8 c3 * 2 ^ 8 + u8 c4
    = Z.of_nat (length m) /\
    v = Some (Error m).
Proof.
  rewrite decodeError_ok. split.
  - intros (m & -> & Hs & Ht). apply decodeString_ok in Hs.
    destruct Hs as (c1 & c2 & c3 & c4 & Hb & Hn).
    exists c1, c2, c3, c4, m. rewrite <- be32_value.
    repeat split; try assumption.
    destruct b as [|t p]; [discriminate|].
    cbn [skipn] in Hb. cbn [nth_error] in Ht. now injection Ht as ->; subst p.
  - intros (c1 & c2 & c3 & c4 & m & -> & Hn & ->). exists m.
    repeat split. cbn [skipn]. apply decodeString_ok.
    exists c1, c2, c3, c4. now rewrite be32_value.
Qed.

Lemma error_wire_format_witness :
  decodeError sampleRegistry [x05; x04; x0a; x00; x00; x00; x01; x21]
  = ret ([], Some (Error [x21]), None).
Proof.
  apply (proj2 (error_wire_format sampleRegistry
                  [x05; x04; x0a; x00; x00; x00; x01; x21] []
                  (Some (Error [x21])))).
  exists x00, x00, x00, x01, [x21]. repeat split.
Defined.

(** ** Tags, kinds and short cursors *)


Lemma index_is_mismatch (b : list byte) (tag : byte) :
  b <> [] -> nth_error b 0 <> Some tag -> index_is b 0 tag = ret false.
Proof.
  intros Hb H. destruct b as [|t p]; [contradiction|].
  unfold index_is, index, bind, ret. cbn [nth_error].
  rewrite byte_eqb_neq; [reflexivity|]. intro E. apply H. now subst.
Qed.

Lemma len_pos_not_nil (n : Z) (b : list byte) :
  0 <= n -> (n <? len b) = true -> b <> [].
Proof.
  intros Hn H. apply Z.ltb_lt in H. destruct b; [|discriminate].
  unfold len in H. simpl in H. lia.
Qed.

Lemma guarded_mismatch (n : Z) (b : list byte) (tag : byte) :
  0 <= n -> nth_error b 0 <> Some tag ->
  and_then (n <? len b) (index_is b 0 tag) = ret false.
Proof.
  intros Hn H. unfold and_then. destruct (n <? len b) eqn:E; [|reflexivity].
  apply index_is_mismatch; [|assumption]. now apply (len_pos_not_nil n).
Qed.

Ltac mismatch_guarded :=
  rewrite guarded_mismatch by (assumption || lia); reflexivity.

Ltac mismatch_nested n :=
  destruct (n <? len _) eqn:?E; [|reflexivity];
  rewrite index_is_mismatch;
    [reflexivity|eapply (len_pos_not_nil n); [lia|eassumption]|assumption].

(** X15. Tag enforcement.  A decoder applied to a cursor that is empty or
    starts with another byte than its tag returns its own error, the zero
    value and the cursor as it was, without reading further; [decodeNil]
    reports [false] and leaves the cursor.  [decodeSlice] and [decodeMap]
    treat a kind byte that differs from the expected kind in the same
    way. *)
Theorem tag_mismatch_rejected (K : Registry) (b : list byte) :
  (nth_error b 0 <> Some (NilRawKind K) -> decodeNil K b = ret (b, false)) /\
  (nth_error b 0 <> Some (MapRawKind K) ->
   forall k v, decodeMap K b k v = ret (b, 0, Some InvalidMap)) /\
  (nth_error b 0 <> Some (SliceRawKind K) ->
   forall k, decodeSlice K b k = ret (b, 0, Some InvalidSlice)) /\
  (nth_error b 0 <> Some (StringRawKind K) ->
   decodeString K b = ret (b, emptyString, Some InvalidString)) /\
  (nth_error b 0 <> Some (ErrorRawKind K) ->
   decodeError K b = ret (b, None, Some InvalidError)) /\
  (nth_error b 0 <> Some (BoolRawKind K) ->
   decodeBool K b = ret (b, false, Some InvalidBool)) /\
  (nth_error b 0 <> Some (Uint8RawKind K) ->
   decodeUint8 K b = ret (b, 0, Some InvalidUint8)) /\
  (nth_error b 0 <> Some (Uint16RawKind K) ->
   decodeUint16 K b = ret (b, 0, Some InvalidUint16)) /\
  (nth_error b 0 <> Some (Uint32RawKind K) ->
   decodeUint32 K b = ret (b, 0, Some InvalidUint32)) /\
  (nth_error b 0 <> Some (StaticUint32RawKind K) ->
   decodeStaticUint32 K b = ret (b, 0, Some InvalidUint32)) /\
  (nth_error b 0 <> Some (Uint64RawKind K) ->
   decodeUint64 K b = ret (b, 0, Some InvalidUint64)) /\
  (nth_error b 0 <> Some (Int32RawKind K) ->
   decodeInt32 K b = ret (b, 0, Some InvalidInt32)) /\
  (nth_error b 0 <> Some (Int64RawKind K) ->
   decodeInt64 K b = ret (b, 0, Some InvalidInt64)) /\
  (nth_error b 0 <> Some (Float32RawKind K) ->
   decodeFloat32 K b = ret (b, 0, Some InvalidFloat32)) /\
  (nth_error b 0 <> Some (Float64RawKind K) ->
   decodeFloat64 K b = ret (b, 0, Some InvalidFloat64)) /\
  (forall k, nth_error b 1 <> Some k ->
             decodeSlice K b k = ret (b, 0, Some InvalidSlice)) /\
  (forall k v, nth_error b 1 <> Some k \/ nth_error b 2 <> Some v ->
               decodeMap K b k v = ret (b, 0, Some InvalidMap)).
Proof.
  repeat split.
  - intro H. unfold decodeNil. mismatch_guarded.
  - intros H k v. unfold decodeMap. mismatch_nested 2.
  - intros H k. unfold decodeSlice. mismatch_nested 1.
  - intro H. unfold decodeString. mismatch_nested 0.
  - intro H. unfold decodeError. mismatch_nested 0.
  - intro H. unfold decodeBool. mismatch_nested 1.
  - intro H. unfold decodeUint8. mismatch_nested 1.
  - intro H. unfold decodeUint16. mismatch_guarded.
  - intro H. unfold decodeUint32. mismatch_guarded.
  - intro H. unfold decodeStaticUint32. mismatch_guarded.
  - intro H. unfold decodeUint64. mismatch_guarded.
  - intro H. unfold decodeInt32. mismatch_guarded.
  - intro H. unfold decodeInt64. mismatch_guarded.
  - intro H. unfold decodeFloat32. mismatch_guarded.
  - intro H. unfold decodeFloat64. mismatch_guarded.
  - intros k H. unfold decodeSlice.
    destruct b as [|t [|k' p]]; run; try reflexivity.
    destruct (Byte.eqb t (SliceRawKind K)); [|reflexivity].
    rewrite byte_eqb_neq; [reflexivity|]. intro E. apply H. now subst.
  - intros k v H. unfold decodeMap.
    destruct b as [|t [|k' [|v' p]]]; run; try reflexivity.
    destruct (Byte.eqb t (MapRawKind K)); [|reflexivity].
    destruct (Byte.eqb k' k) eqn:Ek; [|reflexivity].
    apply byte_eqb_eq in Ek. subst k'.
    rewrite byte_eqb_neq; [reflexivity|]. intro E. subst v'.
    destruct H as [H|H]; now apply H.
Qed.

Lemma tag_mismatch_rejected_witness :
  decodeUint32 sampleRegistry [x04; x00; x00]
  = ret ([x04; x00; x00], 0, Some InvalidUint32).
Proof.
  apply (proj1 (proj2 (proj2 (proj2 (proj2 (proj2 (proj2 (proj2 (proj2
           (tag_mismatch_rejected sampleRegistry [x04; x00; x00])))))))))).
  simpl. discriminate.
Defined.

(** X16. A cursor shorter than the fixed part of an encoding is rejected
    with the decoder's error and returned as it was: fewer than two bytes
    for Bool, Uint8, Slice and the varint kinds; fewer than three for Map;
    fewer than five for StaticUint32 and Float32; fewer than nine for
    Float64. *)
Theorem short_cursor_rejected (K : Registry) (b : list byte) :
  ((length b < 2)%nat ->
   decodeBool K b = ret (b, false, Some InvalidBool) /\
   decodeUint8 K b = ret (b, 0, Some InvalidUint8) /\
   decodeUint16 K b = ret (b, 0, Some InvalidUint16) /\
   decodeUint32 K b = ret (b, 0, Some InvalidUint32) /\
   decodeUint64 K b = ret (b, 0, Some InvalidUint64) /\
   decodeInt32 K b = ret (b, 0, Some InvalidInt32) /\
   decodeInt64 K b = ret (b, 0, Some InvalidInt64) /\
   forall k, decodeSlice K b k = ret (b, 0, Some InvalidSlice)) /\
  ((length b < 3)%nat ->
   forall k v, decodeMap K b k v = ret (b, 0, Some InvalidMap)) /\
  ((length b < 5)%nat ->
   decodeStaticUint32 K b = ret (b, 0, Some InvalidUint32) /\
   decodeFloat32 K b = ret (b, 0, Some InvalidFloat32)) /\
  ((length b < 9)%nat ->
   decodeFloat64 K b = ret (b, 0, Some InvalidFloat64)).
Proof.
  repeat split.
  all: try (unfold decodeBool, decodeUint8, decodeUint16, decodeUint32,
            decodeUint64, decodeInt32, decodeInt64, decodeStaticUint32,
            decodeFloat32, decodeFloat64; guards;
            replace (_ <? length b)%nat with false
              by (symmetry; apply Nat.ltb_ge; lia);
            reflexivity).
  - intro k. unfold decodeSlice. guards.
    replace (_ <? length b)%nat with false
      by (symmetry; apply Nat.ltb_ge; lia).
    reflexivity.
  - intros H k v. unfold decodeMap. guards.
    replace (_ <? length b)%nat with false
      by (symmetry; apply Nat.ltb_ge; lia).
    reflexivity.
  - intro H. unfold decodeFloat64. guards.
    replace (_ <? length b)%nat with false
      by (symmetry; apply Nat.ltb_ge; lia).
    reflexivity.
Qed.

Lemma short_cursor_rejected_witness :
  decodeFloat64 sampleRegistry [x0f; x00; x00; x00; x00; x00; x00; x00]
  = ret ([x0f; x00; x00; x00; x00; x00; x00; x00], 0, Some InvalidFloat64).
Proof.
  apply (proj2 (proj2 (proj2 (short_cursor_rejected sampleRegistry
           [x0f; x00; x00; x00; x00; x00; x00; x00])))).
  simpl. lia.
Defined.

(** ** What a decode consumes *)

Lemma decodeStaticUint32_suffix (K : Registry) (b r : list byte) (n : Z)
  (e : option error) :
  decodeStaticUint32 K b = ret (r, n, e) ->
  (e <> None /\ r = b) \/
  (e = None /\ exists hdr, length hdr = 5%nat /\ b = hdr ++ r).
Proof.
  rewrite decodeStaticUint32_eq.
  destruct b as [|t [|c1 [|c2 [|c3 [|c4 p]]]]];
    try (intro H; injection H as <- <- <-; left; split;
         [discriminate|reflexivity]).
  destruct (Byte.eqb t (StaticUint32RawKind K)); intro H;
    injection H as <- <- <-.
  - right. split; [reflexivity|]. now exists [t; c1; c2; c3; c4].
  - left. split; [discriminate|reflexivity].
Qed.

Lemma decodeString_suffix (K : Registry) (b r s : list byte)
  (e : option error) :
  decodeString K b = ret (r, s, e) ->
  exists pre, b = pre ++ r /\ (e = None -> length pre = (6 + length s)%nat).
Proof.
  destruct e as [e|].
  2:{ intro H. apply decodeString_ok in H.
      destruct H as (c1 & c2 & c3 & c4 & -> & _).
      exists ([StringRawKind K; StaticUint32RawKind K; c1; c2; c3; c4] ++ s).
      split; [now rewrite <- app_assoc|].
      intros _. rewrite length_app. reflexivity. }
  destruct b as [|t p].
  { unfold decodeString. run. intro H. injection H as <- _ _.
    exists []. split; [reflexivity|discriminate]. }
  destruct (Byte.eqb t (StringRawKind K)) eqn:Et.
  2:{ unfold decodeString. run. rewrite Et. intro H. injection H as <- _ _.
      exists []. split; [reflexivity|discriminate]. }
  apply byte_eqb_eq in Et. subst t.
  destruct (decodeStaticUint32_total K p) as [(q & n & H)|H].
  - apply decodeStaticUint32_ok in H.
    destruct H as (c1 & c2 & c3 & c4 & -> & ->).
    rewrite decodeString_framed.
    destruct (be32 c1 c2 c3 c4 - 1 <? len q); [discriminate|].
    intro H. injection H as <- _ _.
    exists [StringRawKind K; StaticUint32RawKind K; c1; c2; c3; c4].
    split; [reflexivity|discriminate].
  - unfold decodeString. run. rewrite byte_eqb_refl, H. cbn [bind ret].
    intro E. injection E as <- _ _.
    exists [StringRawKind K]. split; [reflexivity|discriminate].
Qed.

(** X17. In every outcome the cursor a decoder returns is a suffix of the
    cursor it was given: no decoder invents or reorders bytes.  On success
    it has consumed exactly the encoding: 1 byte for a Nil marker, 2 for
    Bool and Uint8, 5 for StaticUint32 and Float32, 9 for Float64, 7 for a
    Slice header, 8 for a Map header, 6 plus the length of the text for a
    String and 7 plus it for an Error, and between 2 bytes and the tag
    plus the maximum byte count for a varint. *)
Theorem consumed_bytes (K : Registry) (b : list byte) :
  (forall r v, decodeNil K b = ret (r, v) ->
     exists pre, b = pre ++ r /\ length pre = (if v then 1 else 0)%nat) /\
  (forall k v r n e, decodeMap K b k v = ret (r, n, e) ->
     exists pre, b = pre ++ r /\ (e = None -> length pre = 8%nat)) /\
  (forall k r n e, decodeSlice K b k = ret (r, n, e) ->
     exists pre, b = pre ++ r /\ (e = None -> length pre = 7%nat)) /\
  (forall r s e, decodeString K b = ret (r, s, e) ->
     exists pre, b = pre ++ r /\
       (e = None -> length pre = (6 + length s)%nat)) /\
  (forall r v e, decodeError K b = ret (r, v, e) ->
     exists pre, b = pre ++ r /\
       (e = None ->
        exists m, v = Some (Error m) /\ length pre = (7 + length m)%nat)) /\
  (forall r v e, decodeBool K b = ret (r, v, e) ->
     exists pre, b = pre ++ r /\ (e = None -> length pre = 2%nat)) /\
  (forall r v e, decodeUint8 K b = ret (r, v, e) ->
     exists pre, b = pre ++ r /\ (e = None -> length pre = 2%nat)) /\
  (forall r v e, decodeStaticUint32 K b = ret (r, v, e) ->
     exists pre, b = pre ++ r /\ (e = None -> length pre = 5%nat)) /\
  (forall r v e, decodeFloat32 K b = ret (r, v, e) ->
     exists pre, b = pre ++ r /\ (e = None -> length pre = 5%nat)) /\
  (forall r v e, decodeFloat64 K b = ret (r, v, e) ->
     exists pre, b = pre ++ r /\ (e = None -> length pre = 9%nat)) /\
  (forall r v e, decodeUint16 K b = ret (r, v, e) ->
     exists pre, b = pre ++ r /\
       (e = None -> 2 <= length pre <= 1 + VarIntLen16)%nat) /\
  (forall r v e, decodeUint32 K b = ret (r, v, e) ->
     exists pre, b = pre ++ r /\
       (e = None -> 2 <= length pre <= 1 + VarIntLen32)%nat) /\
  (forall r v e, decodeUint64 K b = ret (r, v, e) ->
     exists pre, b = pre ++ r /\
       (e = None -> 2 <= length pre <= 1 + VarIntLen64)%nat) /\
  (forall r v e, decodeInt32 K b = ret (r, v, e) ->
     exists pre, b = pre ++ r /\
       (e = None -> 2 <= length pre <= 1 + VarIntLen32)%nat) /\
  (forall r v e, decodeInt64 K b = ret (r, v, e) ->
     exists pre, b = pre ++ r /\
       (e = None -> 2 <= length pre <= 1 + VarIntLen64)%nat).
Proof.
  assert (Hstatic : forall p r v e, decodeStaticUint32 K p = ret (r, v, e) ->
            exists pre, p = pre ++ r /\ (e = None -> length pre = 5%nat)).
  { intros p r v e H. apply decodeStaticUint32_suffix in H.
    destruct H as [[He ->]|[-> (hdr & Hl & ->)]].
    - exists []. split; [reflexivity|]. intro; contradiction.
    - now exists hdr. }
  assert (Hvar : forall tag w maxlen e1 e2 r v e, 0 <= w -> (1 <= maxlen)%nat ->
            varint_decode tag w maxlen e1 e2 b = ret (r, v, e) ->
            exists pre, b = pre ++ r /\
              (e = None -> 2 <= length pre <= 1 + maxlen)%nat).
  { intros tag w maxlen e1 e2 r v e Hw Hm H. destruct e as [e|].
    - apply dec_error_iff in H; try assumption. destruct H as (-> & _).
      exists []. split; [reflexivity|discriminate].
    - apply dec_success_iff in H; try assumption.
      destruct H as (conts & t & -> & _ & _ & Hl & _).
      exists (tag :: conts ++ [t]). split.
      + cbn [app]. now rewrite <- app_assoc.
      + intros _. cbn [length]. rewrite length_app. cbn [length]. lia. }
  assert (Hsvar : forall (sdec : list byte -> go (out Z)) (ts : byte) maxlen r v e,
            (forall r v e, sdec b = ret (r, v, Some e) -> r = b) ->
            (forall r v, sdec b = ret (r, v, None) ->
               exists conts t, b = ts :: conts ++ t :: r /\
                 (length conts < maxlen)%nat) ->
            sdec b = ret (r, v, e) ->
            exists pre, b = pre ++ r /\
              (e = None -> 2 <= length pre <= 1 + maxlen)%nat).
  { intros sdec ts maxlen r v e Herr Hok H. destruct e as [e|].
    - apply Herr in H. subst r.
      exists []. split; [reflexivity|discriminate].
    - apply Hok in H. destruct H as (conts & t & -> & Hl).
      exists (ts :: conts ++ [t]). split.
      + cbn [app]. now rewrite <- app_assoc.
      + intros _. cbn [length]. rewrite length_app. cbn [length]. lia. }
  repeat split.
  - intros r v. unfold decodeNil. destruct b as [|t p]; run.
    + intro H. injection H as <- <-. now exists [].
    + destruct (Byte.eqb t (NilRawKind K)); intro H; injection H as <- <-.
      * now exists [t].
      * now exists [].
  - intros k v r n e. unfold decodeMap.
    destruct b as [|t [|k' [|v' p]]]; run;
      try (intro H; injection H as <- <- <-; exists [];
           split; [reflexivity|discriminate]).
    destruct (Byte.eqb t (MapRawKind K));
      [destruct (Byte.eqb k' k); [destruct (Byte.eqb v' v)|]|];
      try (intro H; injection H as <- <- <-; exists [];
           split; [reflexivity|discriminate]).
    destruct (decodeStaticUint32 K p) as [[[r' n'] e']|] eqn:Hs;
      [|discriminate].
    apply Hstatic in Hs. destruct Hs as (pre & -> & Hl).
    destruct e' as [e'|]; intro H; injection H as <- <- <-.
    + exists (t :: k' :: v' :: pre). split; [reflexivity|discriminate].
    + exists (t :: k' :: v' :: pre). split; [reflexivity|].
      intros _. cbn [length]. now rewrite Hl.
  - intros k r n e. unfold decodeSlice.
    destruct b as [|t [|k' p]]; run;
      try (intro H; injection H as <- <- <-; exists [];
           split; [reflexivity|discriminate]).
    destruct (Byte.eqb t (SliceRawKind K));
      [destruct (Byte.eqb k' k)|];
      try (intro H; injection H as <- <- <-; exists [];
           split; [reflexivity|discriminate]).
    destruct (decodeStaticUint32 K p) as [[[r' n'] e']|] eqn:Hs;
      [|discriminate].
    apply Hstatic in Hs. destruct Hs as (pre & -> & Hl).
    destruct e' as [e'|]; intro H; injection H as <- <- <-.
    + exists (t :: k' :: pre). split; [reflexivity|discriminate].
    + exists (t :: k' :: pre). split; [reflexivity|].
      intros _. cbn [length]. now rewrite Hl.
  - intros r s e. apply decodeString_suffix.
  - intros r v e. unfold decodeError. destruct b as [|t p]; run.
    { intro H; injection H as <- <- <-. exists [].
      split; [reflexivity|discriminate]. }
    destruct (Byte.eqb t (ErrorRawKind K)).
    2:{ intro H; injection H as <- <- <-. exists [].
        split; [reflexivity|discriminate]. }
    destruct (decodeString K p) as [[[r' m] e']|] eqn:Hs; [|discriminate].
    apply decodeString_suffix in Hs. destruct Hs as (pre & -> & Hl).
    destruct e' as [e'|]; intro H; injection H as <- <- <-.
    + exists (t :: pre). split; [reflexivity|discriminate].
    + exists (t :: pre). split; [reflexivity|].
      intros _. exists m. split; [reflexivity|].
      cbn [length]. now rewrite Hl.
  - intros r v e. unfold decodeBool. destruct b as [|t [|c p]]; run;
      try (intro H; injection H as <- <- <-; exists [];
           split; [reflexivity|discriminate]).
    destruct (Byte.eqb t (BoolRawKind K)).
    + destruct (Byte.eqb c (trueBool K)); intro H; injection H as <- <- <-;
        now exists [t; c].
    + intro H; injection H as <- <- <-. exists [].
      split; [reflexivity|discriminate].
  - intros r v e. unfold decodeUint8. destruct b as [|t [|c p]]; run;
      try (intro H; injection H as <- <- <-; exists [];
           split; [reflexivity|discriminate]).
    destruct (Byte.eqb t (Uint8RawKind K)); intro H; injection H as <- <- <-.
    + now exists [t; c].
    + exists []. split; [reflexivity|discriminate].
  - intros r v e. apply Hstatic.
  - intros r v e. rewrite decodeFloat32_eq.
    destruct b as [|t [|c1 [|c2 [|c3 [|c4 p]]]]];
      try (intro H; injection H as <- <- <-; exists [];
           split; [reflexivity|discriminate]).
    destruct (Byte.eqb t (Float32RawKind K)); intro H;
      injection H as <- <- <-.
    + now exists [t; c1; c2; c3; c4].
    + exists []. split; [reflexivity|discriminate].
  - intros r v e. rewrite decodeFloat64_eq.
    destruct b as [|t [|c1 [|c2 [|c3 [|c4 [|c5 [|c6 [|c7 [|c8 p]]]]]]]]];
      try (intro H; injection H as <- <- <-; exists [];
           split; [reflexivity|discriminate]).
    destruct (Byte.eqb t (Float64RawKind K)); intro H;
      injection H as <- <- <-.
    + now exists [t; c1; c2; c3; c4; c5; c6; c7; c8].
    + exists []. split; [reflexivity|discriminate].
  - intros r v e. rewrite decodeUint16_as_loop.
    apply Hvar; [lia|unfold VarIntLen16; lia].
  - intros r v e. rewrite decodeUint32_as_loop.
    apply Hvar; [lia|unfold VarIntLen32; lia].
  - intros r v e. rewrite decodeUint64_as_loop.
    apply Hvar; [lia|unfold VarIntLen64; lia].
  - intros r v e.
    apply (Hsvar (decodeInt32 K) (Int32RawKind K)).
    + intros r' v' e' H.
      now apply (proj1 (signed_error_cursor K b r' v' e')) in H.
    + intros r' v' H.
      apply (sdec_success_iff (decodeInt32 K) (Int32RawKind K)
               (Uint32RawKind K) InvalidInt32 32 VarIntLen32
               InvalidUint32 InvalidUint32) in H;
        [|lia|unfold VarIntLen32; lia|apply decodeInt32_lockstep_loop
         |reflexivity|apply decodeInt32_other].
      destruct H as (conts & t & Hb & _ & _ & Hl & _). now exists conts, t.
  - intros r v e.
    apply (Hsvar (decodeInt64 K) (Int64RawKind K)).
    + intros r' v' e' H.
      now apply (proj2 (signed_error_cursor K b r' v' e')) in H.
    + intros r' v' H.
      apply (sdec_success_iff (decodeInt64 K) (Int64RawKind K)
               (Uint64RawKind K) InvalidInt64 64 VarIntLen64
               InvalidUint64 InvalidUint64) in H;
        [|lia|unfold VarIntLen64; lia|apply decodeInt64_lockstep_loop
         |reflexivity|apply decodeInt64_other].
      destruct H as (conts & t & Hb & _ & _ & Hl & _). now exists conts, t.
Qed.

Lemma consumed_bytes_witness :
  exists pre,
    [x01; x04; x09; x0a; x00; x00; x00; x02; x2a] = pre ++ [x2a] /\
    (@None error = None -> length pre = 8%nat).
Proof.
  apply (proj1 (proj2 (consumed_bytes sampleRegistry
                         [x01; x04; x09; x0a; x00; x00; x00; x02; x2a]))
           x04 x09 [x2a] 2 None).
  vm_compute. reflexivity.
Defined.

(** ** A value is decoded whatever follows it *)

Lemma decodeStaticUint32_extends (K : Registry) (b r x : list byte) (n : Z) :
  decodeStaticUint32 K b = ret (r, n, None) ->
  decodeStaticUint32 K (b ++ x) = ret (r ++ x, n, None).
Proof.
  rewrite !decodeStaticUint32_ok.
  intros (c1 & c2 & c3 & c4 & -> & ->). now exists c1, c2, c3, c4.
Qed.

Lemma decodeString_extends (K : Registry) (b r s x : list byte) :
  decodeString K b = ret (r, s, None) ->
  decodeString K (b ++ x) = ret (r ++ x, s, None).
Proof.
  rewrite !decodeString_ok.
  intros (c1 & c2 & c3 & c4 & -> & Hn). exists c1, c2, c3, c4.
  split; [|assumption]. cbn [app]. now rewrite <- app_assoc.
Qed.

(** X18. A successful decode does not depend on what follows the value:
    if a decoder succeeds on a cursor, it succeeds with the same value on
    that cursor followed by any further bytes, and returns its former
    remainder followed by these bytes.  So values written one after the
    other are decoded one after the other. *)
Theorem success_extends (K : Registry) (b x : list byte) :
  (forall r, decodeNil K b = ret (r, true) ->
     decodeNil K (b ++ x) = ret (r ++ x, true)) /\
  (forall k v r n, decodeMap K b k v = ret (r, n, None) ->
     decodeMap K (b ++ x) k v = ret (r ++ x, n, None)) /\
  (forall k r n, decodeSlice K b k = ret (r, n, None) ->
     decodeSlice K (b ++ x) k = ret (r ++ x, n, None)) /\
  (forall r s, decodeString K b = ret (r, s, None) ->
     decodeString K (b ++ x) = ret (r ++ x, s, None)) /\
  (forall r v, decodeError K b = ret (r, v, None) ->
     decodeError K (b ++ x) = ret (r ++ x, v, None)) /\
  (forall r v, decodeBool K b = ret (r, v, None) ->
     decodeBool K (b ++ x) = ret (r ++ x, v, None)) /\
  (forall r v, decodeUint8 K b = ret (r, v, None) ->
     decodeUint8 K (b ++ x) = ret (r ++ x, v, None)) /\
  (forall r v, decodeStaticUint32 K b = ret (r, v, None) ->
     decodeStaticUint32 K (b ++ x) = ret (r ++ x, v, None)) /\
  (forall r v, decodeFloat32 K b = ret (r, v, None) ->
     decodeFloat32 K (b ++ x) = ret (r ++ x, v, None)) /\
  (forall r v, decodeFloat64 K b = ret (r, v, None) ->
     decodeFloat64 K (b ++ x) = ret (r ++ x, v, None)) /\
  (forall r v, decodeUint16 K b = ret (r, v, None) ->
     decodeUint16 K (b ++ x) = ret (r ++ x, v, None)) /\
  (forall r v, decodeUint32 K b = ret (r, v, None) ->
     decodeUint32 K (b ++ x) = ret (r ++ x, v, None)) /\
  (forall r v, decodeUint64 K b = ret (r, v, None) ->
     decodeUint64 K (b ++ x) = ret (r ++ x, v, None)) /\
  (forall r v, decodeInt32 K b = ret (r, v, None) ->
     decodeInt32 K (b ++ x) = ret (r ++ x, v, None)) /\
  (forall r v, decodeInt64 K b = ret (r, v, None) ->
     decodeInt64 K (b ++ x) = ret (r ++ x, v, None)).
Proof.
  assert (Hvar : forall tag w maxlen e1 e2 r v, 0 <= w -> (1 <= maxlen)%nat ->
            varint_decode tag w maxlen e1 e2 b = ret (r, v, None) ->
            varint_decode tag w maxlen e1 e2 (b ++ x) = ret (r ++ x, v, None)).
  { intros tag w maxlen e1 e2 r v Hw Hm H.
    apply dec_success_iff in H; try assumption.
    destruct H as (conts & t & -> & Hf & Ht & Hl & ->).
    apply dec_success_iff; try assumption. exists conts, t.
    repeat split; try assumption.
    cbn [app]. now rewrite <- app_assoc. }
  repeat split.
  - intros r. unfold decodeNil. destruct b as [|t p]; cbn [app]; run; [discriminate|].
    destruct (Byte.eqb t (NilRawKind K)); [|discriminate].
    intro H. now injection H as <-.
  - intros k v r n. unfold decodeMap.
    destruct b as [|t [|k' [|v' p]]]; cbn [app]; run; try discriminate.
    destruct (Byte.eqb t (MapRawKind K));
      [destruct (Byte.eqb k' k); [destruct (Byte.eqb v' v)|]|];
      try discriminate.
    destruct (decodeStaticUint32 K p) as [[[r' n'] [e'|]]|] eqn:Hs;
      try discriminate.
    intro H. injection H as <- <-.
    now rewrite (decodeStaticUint32_extends K p r' x n').
  - intros k r n. unfold decodeSlice.
    destruct b as [|t [|k' p]]; cbn [app]; run; try discriminate.
    destruct (Byte.eqb t (SliceRawKind K));
      [destruct (Byte.eqb k' k)|]; try discriminate.
    destruct (decodeStaticUint32 K p) as [[[r' n'] [e'|]]|] eqn:Hs;
      try discriminate.
    intro H. injection H as <- <-.
    now rewrite (decodeStaticUint32_extends K p r' x n').
  - intros r s. apply decodeString_extends.
  - intros r v. rewrite !decodeError_ok.
    intros (m & -> & Hs & Ht). exists m. split; [reflexivity|].
    destruct b as [|t p]; [discriminate|]. cbn [skipn app nth_error] in *.
    split; [|assumption]. now apply decodeString_extends.
  - intros r v. unfold decodeBool. destruct b as [|t [|c p]]; cbn [app]; run;
      try discriminate.
    destruct (Byte.eqb t (BoolRawKind K)); [|discriminate].
    destruct (Byte.eqb c (trueBool K)); intro H; now injection H as <- <-.
  - intros r v. unfold decodeUint8. destruct b as [|t [|c p]]; cbn [app]; run;
      try discriminate.
    destruct (Byte.eqb t (Uint8RawKind K)); [|discriminate].
    intro H; now injection H as <- <-.
  - intros r v. apply decodeStaticUint32_extends.
  - intros r v. rewrite !decodeFloat32_eq.
    destruct b as [|t [|c1 [|c2 [|c3 [|c4 p]]]]]; try discriminate.
    cbn [app]. destruct (Byte.eqb t (Float32RawKind K)); [|discriminate].
    intro H; now injection H as <- <-.
  - intros r v. rewrite !decodeFloat64_eq.
    destruct b as [|t [|c1 [|c2 [|c3 [|c4 [|c5 [|c6 [|c7 [|c8 p]]]]]]]]];
      try discriminate.
    cbn [app]. destruct (Byte.eqb t (Float64RawKind K)); [|discriminate].
    intro H; now injection H as <- <-.
  - intros r v. rewrite !decodeUint16_as_loop.
    apply Hvar; [lia|unfold VarIntLen16; lia].
  - intros r v. rewrite !decodeUint32_as_loop.
    apply Hvar; [lia|unfold VarIntLen32; lia].
  - intros r v. rewrite !decodeUint64_as_loop.
    apply Hvar; [lia|unfold VarIntLen64; lia].
  - intros r v H.
    apply (sdec_success_iff (decodeInt32 K) (Int32RawKind K)
             (Uint32RawKind K) InvalidInt32 32 VarIntLen32
             InvalidUint32 InvalidUint32) in H;
      [|lia|unfold VarIntLen32; lia|apply decodeInt32_lockstep_loop
       |reflexivity|apply decodeInt32_other].
    destruct H as (conts & t & -> & Hf & Ht & Hl & ->).
    apply (sdec_success_iff (decodeInt32 K) (Int32RawKind K)
             (Uint32RawKind K) InvalidInt32 32 VarIntLen32
             InvalidUint32 InvalidUint32);
      [lia|unfold VarIntLen32; lia|apply decodeInt32_lockstep_loop
      |reflexivity|apply decodeInt32_other|].
    exists conts, t. repeat split; try assumption.
    cbn [app]. now rewrite <- app_assoc.
  - intros r v H.
    apply (sdec_success_iff (decodeInt64 K) (Int64RawKind K)
             (Uint64RawKind K) InvalidInt64 64 VarIntLen64
             InvalidUint64 InvalidUint64) in H;
      [|lia|unfold VarIntLen64; lia|apply decodeInt64_lockstep_loop
       |reflexivity|apply decodeInt64_other].
    destruct H as (conts & t & -> & Hf & Ht & Hl & ->).
    apply (sdec_success_iff (decodeInt64 K) (Int64RawKind K)
             (Uint64RawKind K) InvalidInt64 64 VarIntLen64
             InvalidUint64 InvalidUint64);
      [lia|unfold VarIntLen64; lia|apply decodeInt64_lockstep_loop
      |reflexivity|apply decodeInt64_other|].
    exists conts, t. repeat split; try assumption.
    cbn [app]. now rewrite <- app_assoc.
Qed.

Lemma success_extends_witness :
  decodeUint32 sampleRegistry ([x09; xac; x02] ++ [x06; x01])
  = ret ([] ++ [x06; x01], 300, None).
Proof.
  apply (proj1 (proj2 (proj2 (proj2 (proj2 (proj2 (proj2 (proj2 (proj2
           (proj2 (proj2 (proj2
             (success_extends sampleRegistry [x09; xac; x02]
                [x06; x01]))))))))))))).
  vm_compute. reflexivity.
Defined.

(** ** [decodeBytes]: what is written, and where *)

Lemma firstn_store (o : nat) (arr data tail : list byte) :
  (o <= length arr)%nat ->
  firstn o (firstn o arr ++ data ++ tail) = firstn o arr.
Proof.
  intro H. rewrite firstn_app, length_firstn.
  replace (o - Nat.min o (length arr))%nat with 0%nat by lia.
  cbn [firstn]. rewrite app_nil_r. rewrite firstn_firstn.
  now rewrite Nat.min_id.
Qed.

Lemma skipn_store (o : nat) (arr data tail : list byte) :
  (o <= length arr)%nat ->
  skipn (o + length data) (firstn o arr ++ data ++ tail) = tail.
Proof.
  intro H. rewrite app_assoc.
  replace (o + length data)%nat with (length (firstn o arr ++ data))
    by (rewrite length_app, length_firstn; lia).
  now rewrite skipn_app, Nat.sub_diag, skipn_all.
Qed.

Section DecodeBytesStore.

Variable growcap : nat -> nat -> nat.
Variable K : Registry.

Variables (h : Mem.heap) (b dst : Mem.slice).
Variables (c1 c2 c3 c4 : byte) (payload rest : list byte).

Hypothesis wf_b : Mem.wf h b.
Hypothesis wf_dst : Mem.wf h dst.
Hypothesis encoding :
  Mem.view h b
  = BytesRawKind K :: StaticUint32RawKind K :: c1 :: c2 :: c3 :: c4
      :: payload ++ rest.
Hypothesis size : be32 c1 c2 c3 c4 = Z.of_nat (length payload).

Let b1 : Mem.slice :=
  Mem.mkSlice (Mem.s_base b) (Mem.s_off b + 1) (Mem.s_len b - 1)
    (Mem.s_cap b - 1).
Let b2 : Mem.slice :=
  Mem.mkSlice (Mem.s_base b1) (Mem.s_off b1 + 5) (Mem.s_len b1 - 5)
    (Mem.s_cap b1 - 5).
Let src : Mem.slice :=
  Mem.mkSlice (Mem.s_base b2) (Mem.s_off b2 + 0) (length payload - 0)
    (Mem.s_cap b2 - 0).
Let after : Mem.slice :=
  Mem.mkSlice (Mem.s_base b2) (Mem.s_off b2 + length payload)
    (Mem.s_len b2 - length payload) (Mem.s_cap b2 - length payload).

Lemma after_view : Mem.view h after = rest.
Proof.
  destruct (payload_header K h b c1 c2 c3 c4 payload rest wf_b encoding)
    as (W2 & V2 & _ & _).
  change (Mem.wf h b2) in W2. change (Mem.view h b2 = payload ++ rest) in V2.
  pose proof (view_length h b2 W2) as Hl. rewrite V2, length_app in Hl.
  unfold after.
  rewrite (reslice_view h b2 (length payload) (Mem.s_len b2)) by lia.
  rewrite V2, skipn_app, Nat.sub_diag, skipn_all. cbn [skipn app].
  apply firstn_all2. lia.
Qed.

Lemma input_base : exists a, Mem.s_base b = Some a /\ (a < length h)%nat.
Proof.
  pose proof (input_length K h b c1 c2 c3 c4 payload rest wf_b encoding) as Hl.
  destruct wf_b as [Hc Hb].
  destruct (Mem.s_base b) as [a|]; [exists a; tauto|lia].
Qed.

(** The store after a successful run, by the branch taken: unchanged, the
    payload written at the start of the destination, or one array added. *)
Lemma decodeBytes_store_shape :
  exists h' v,
    Mem.decodeBytes growcap K h b dst = ret (h', (after, v, None)) /\
    (h' = h \/
     (exists a, Mem.s_base dst = Some a /\ (a < length h)%nat /\
                (Mem.s_off dst + length payload
                 <= length (nth a h []))%nat /\
                h' = Mem.store h a (Mem.s_off dst) payload) \/
     (exists arr, (Mem.s_len dst < length payload)%nat /\
                  (Mem.is_nil dst = true \/
                   (Mem.s_cap dst < length payload)%nat) /\
                  h' = h ++ [arr])).
Proof.
  destruct (payload_header K h b c1 c2 c3 c4 payload rest wf_b encoding)
    as (W2 & V2 & Vs & _).
  change (Mem.wf h b2) in W2. change (Mem.view h b2 = payload ++ rest) in V2.
  change (Mem.view h src = payload) in Vs.
  assert (Hsrc : Mem.s_len src = length payload) by (unfold src; cbn; lia).
  rewrite (decodeBytes_prefix growcap K h b dst c1 c2 c3 c4 payload rest
             wf_b encoding size).
  match goal with
  | |- exists h' v, ?run = _ /\ _ =>
      change run with
        (r <- (if Mem.slen dst <? Z.of_nat (length payload) then
                 if Mem.is_nil dst then
                   let '(h, dst) := Mem.make h (length payload) in
                   ret (Mem.copy h dst src, dst)
                 else
                   dst0 <- Mem.reslice dst 0 0 ;;
                   ret (Mem.append growcap h dst0 src)
               else
                 dst0 <- Mem.reslice_from dst 0 ;;
                 ret (Mem.copy h dst0 src, dst)) ;;
         let '(h, dst) := r in
         ret (h, (after, dst, @None error)))
  end.
  destruct wf_dst as [Hdc Hdb].
  destruct (Mem.slen dst <? Z.of_nat (length payload)) eqn:Elen.
  - apply Z.ltb_lt in Elen. unfold Mem.slen in Elen.
    destruct (Mem.is_nil dst) eqn:Enil.
    + cbn [Mem.make bind ret].
      set (h1 := h ++ [repeat x00 (length payload)]).
      assert (Vs1 : Mem.view h1 src = payload).
      { rewrite <- Vs. unfold Mem.view, Mem.array.
        destruct input_base as (a & Hb & Ha).
        unfold src, b2, b1. cbn [Mem.s_base]. rewrite Hb. unfold h1.
        now rewrite app_nth1. }
      unfold Mem.copy. cbn [Mem.s_base Mem.s_len Mem.s_off].
      rewrite Hsrc, Nat.min_id, Vs1, firstn_all.
      eexists _, _. split; [reflexivity|]. right; right.
      exists payload. split; [lia|]. split; [now left|].
      unfold Mem.store, h1.
      rewrite nth_error_app2, Nat.sub_diag by lia. cbn [nth_error].
      rewrite firstn_app, Nat.sub_diag, firstn_all. cbn [firstn].
      rewrite (skipn_all2 (n := S (length h)))
        by (rewrite length_app; cbn [length]; lia).
      rewrite (skipn_all2 (n := 0 + length payload))
        by (rewrite repeat_length; lia).
      cbn [app]. now rewrite !app_nil_r.
    + unfold Mem.is_nil in Enil.
      destruct (Mem.s_base dst) as [a|] eqn:Ebase; [|discriminate].
      destruct Hdb as [Ha Hcap].
      rewrite reslice_ok by lia. cbn [bind ret]. unfold Mem.append.
      cbn [Mem.s_len Mem.s_cap Mem.s_base Mem.s_off]. rewrite Vs, Ebase.
      replace (0 - 0 + length payload)%nat with (length payload) by lia.
      rewrite Nat.sub_0_r, Nat.add_0_r.
      destruct (length payload <=? Mem.s_cap dst)%nat eqn:Ecap.
      * apply Nat.leb_le in Ecap. rewrite Nat.add_0_r.
        eexists _, _. split; [reflexivity|]. right; left.
        exists a. repeat split; try assumption. lia.
      * apply Nat.leb_gt in Ecap.
        eexists _, _. split; [reflexivity|]. right; right.
        eexists. split; [lia|]. split; [right; lia|reflexivity].
  - apply Z.ltb_ge in Elen. unfold Mem.slen in Elen.
    unfold Mem.reslice_from. rewrite reslice_ok by lia. cbn [bind ret].
    unfold Mem.copy. cbn [Mem.s_len Mem.s_base Mem.s_off].
    rewrite Hsrc, Vs, Nat.sub_0_r, Nat.add_0_r.
    replace (Nat.min (Mem.s_len dst) (length payload)) with (length payload)
      by lia.
    rewrite firstn_all.
    destruct (Mem.s_base dst) as [a|] eqn:Ebase.
    + destruct Hdb as [Ha Hcap].
      eexists _, _. split; [reflexivity|]. right; left.
      exists a. repeat split; try assumption. lia.
    + eexists _, _. split; [reflexivity|]. now left.
Qed.

(** Arrays other than the destination's are as they were. *)
Lemma other_arrays_kept (h' : Mem.heap) (r v : Mem.slice) (a : nat) :
  Mem.decodeBytes growcap K h b dst = ret (h', (r, v, None)) ->
  (a < length h)%nat -> Mem.s_base dst <> Some a ->
  nth a h' [] = nth a h [].
Proof.
  intros Hrun Ha Hne.
  destruct decodeBytes_store_shape as (h1 & v1 & Hrun1 & Hshape).
  rewrite Hrun in Hrun1. injection Hrun1 as E1 _ _. subst h1.
  destruct Hshape as [->|[(a0 & Hb & Ha0 & Hfit & ->)|(arr & _ & _ & ->)]].
  - reflexivity.
  - apply store_nth_other. intros ->. now apply Hne.
  - now apply app_nth1.
Qed.

(** The cursor after the payload, in a store that kept the input's array. *)
Lemma unaliased_rest (h' : Mem.heap) :
  (forall a, Mem.s_base b = Some a -> nth a h' [] = nth a h []) ->
  Mem.view h' after = rest.
Proof.
  intro Hkept. rewrite <- after_view.
  destruct input_base as (a & Hb & Ha).
  unfold Mem.view, Mem.array, after, b2, b1. cbn [Mem.s_base]. rewrite Hb.
  now rewrite (Hkept a Hb).
Qed.

End DecodeBytesStore.

Section DecodeBytesUse.

Variable growcap : nat -> nat -> nat.
Variable K : Registry.

Variables (h : Mem.heap) (b dst : Mem.slice).
Variables (c1 c2 c3 c4 : byte) (payload rest : list byte).

Hypothesis wf_b : Mem.wf h b.
Hypothesis wf_dst : Mem.wf h dst.
Hypothesis encoding :
  Mem.view h b
  = BytesRawKind K :: StaticUint32RawKind K :: c1 :: c2 :: c3 :: c4
      :: payload ++ rest.
Hypothesis size : be32 c1 c2 c3 c4 = Z.of_nat (length payload).

(** X19. A successful [decodeBytes] writes nowhere but into the first L
    bytes of the destination (L the payload length): every array of the
    store other than the destination's is unchanged, the destination's
    array is unchanged before the slice and from its L-th byte on, and no
    array is removed. *)
Theorem decodeBytes_frame (h' : Mem.heap) (r v : Mem.slice) :
  Mem.decodeBytes growcap K h b dst = ret (h', (r, v, None)) ->
  (length h <= length h')%nat /\
  forall a, (a < length h)%nat ->
    (Mem.s_base dst <> Some a -> nth a h' [] = nth a h []) /\
    firstn (Mem.s_off dst) (nth a h' []) = firstn (Mem.s_off dst) (nth a h [])
    /\
    skipn (Mem.s_off dst + length payload) (nth a h' [])
    = skipn (Mem.s_off dst + length payload) (nth a h []).
Proof.
  intro Hrun.
  destruct (decodeBytes_store_shape growcap K h b dst c1 c2 c3 c4 payload
              rest wf_b wf_dst encoding size)
    as (h1 & v1 & Hrun1 & Hshape).
  rewrite Hrun in Hrun1. injection Hrun1 as E1 _ _. subst h1.
  destruct Hshape as [->|[(a0 & Hb & Ha0 & Hfit & ->)|(arr & _ & _ & ->)]].
  - split; [lia|]. intros a Ha. repeat split.
  - split; [rewrite store_length; lia|]. intros a Ha.
    destruct (Nat.eq_dec a a0) as [->|Hne].
    + split; [intro E; congruence|].
      rewrite store_nth_same by assumption. split.
      * apply firstn_store. lia.
      * apply skipn_store. lia.
    + rewrite store_nth_other by assumption. repeat split.
  - split; [rewrite length_app; lia|]. intros a Ha.
    rewrite app_nth1 by assumption. repeat split.
Qed.

(** X20. When the cursor and the destination lie in different arrays, the
    cursor returned by a successful [decodeBytes] reads exactly the bytes
    that follow the payload. *)
Theorem decodeBytes_cursor_unaliased (h' : Mem.heap) (r v : Mem.slice) :
  Mem.s_base b <> Mem.s_base dst ->
  Mem.decodeBytes growcap K h b dst = ret (h', (r, v, None)) ->
  Mem.view h' r = rest.
Proof.
  intros Hne Hrun.
  destruct (decodeBytes_store_shape growcap K h b dst c1 c2 c3 c4 payload
              rest wf_b wf_dst encoding size)
    as (h1 & v1 & Hrun1 & _).
  rewrite Hrun in Hrun1. injection Hrun1 as E1 E2 E3. subst h1 r v1.
  apply (unaliased_rest growcap K h b c1 c2 c3 c4 payload rest wf_b encoding).
  intros a Hb.
  destruct (input_base growcap K h b c1 c2 c3 c4 payload rest wf_b encoding)
    as (a' & Hb' & Ha).
  assert (a' = a) by congruence. subst a'.
  apply (other_arrays_kept growcap K h b dst c1 c2 c3 c4 payload rest
           wf_b wf_dst encoding size h' _ v a Hrun Ha).
  intro E. apply Hne. now rewrite Hb.
Qed.

End DecodeBytesUse.

Section DecodeBytesModes.

Variable growcap : nat -> nat -> nat.
Variable K : Registry.

Variables (h : Mem.heap) (b : Mem.slice).
Variables (c1 c2 c3 c4 : byte) (payload rest : list byte).

Hypothesis wf_b : Mem.wf h b.
Hypothesis encoding :
  Mem.view h b
  = BytesRawKind K :: StaticUint32RawKind K :: c1 :: c2 :: c3 :: c4
      :: payload ++ rest.
Hypothesis size : be32 c1 c2 c3 c4 = Z.of_nat (length payload).

Lemma nil_wf : Mem.wf h Mem.nil_slice.
Proof. split; reflexivity. Qed.

(** X21. Without a destination ([ret == nil]) a well-formed Bytes value
    decodes to exactly its payload, and the cursor returned reads the
    bytes after the payload.  A payload that is not empty is copied into
    a new array: the store gains one array, at an address that was not in
    use before the call, the slice returned is the whole of that array
    (offset 0, length and capacity the payload length), and every array
    of the caller, the input among them, is left as it was.  With an
    empty payload nothing is allocated and the slice returned is [nil]. *)
Theorem decodeBytes_no_destination :
  exists h' r v,
    Mem.decodeBytes growcap K h b Mem.nil_slice = ret (h', (r, v, None)) /\
    Mem.view h' v = payload /\
    Mem.view h' r = rest /\
    firstn (length h) h' = h /\
    (payload <> [] ->
     length h' = S (length h) /\
     v = Mem.mkSlice (Some (length h)) 0 (length payload) (length payload) /\
     Mem.s_base v <> Mem.s_base b /\
     forall a, (a < length h)%nat -> Mem.s_base v <> Some a) /\
    (payload = [] -> h' = h /\ v = Mem.nil_slice).
Proof.
  destruct (decodeBytes_success growcap K h b Mem.nil_slice c1 c2 c3 c4
              payload rest wf_b nil_wf encoding size)
    as (h' & r & v & Hrun & _ & Wv & Hv & Hlen & Hsame & Hplace).
  exists h', r, v. split; [assumption|].
  destruct (decodeBytes_store_shape growcap K h b Mem.nil_slice c1 c2 c3 c4
              payload rest wf_b nil_wf encoding size)
    as (h1 & v1 & Hrun1 & Hshape).
  rewrite Hrun in Hrun1. injection Hrun1 as E1 E2 _. subst h1.
  destruct (input_base growcap K h b c1 c2 c3 c4 payload rest wf_b encoding)
    as (ab & Hab & Hlt).
  assert (Hkept : firstn (length h) h' = h).
  { destruct Hshape as [->|[(a0 & Hb & _)|(arr & _ & _ & ->)]].
    - apply firstn_all.
    - discriminate.
    - rewrite firstn_app, Nat.sub_diag, firstn_all. cbn [firstn].
      apply app_nil_r. }
  split; [|split; [|split; [assumption|split]]].
  - rewrite <- Hv. symmetry. apply firstn_all2.
    rewrite (view_length h' v Wv), Hlen. cbn [Mem.s_len Mem.nil_slice]. lia.
  - rewrite E2.
    apply (unaliased_rest growcap K h b c1 c2 c3 c4 payload rest wf_b
             encoding).
    intros a Hb. assert (ab = a) by congruence. subst ab.
    apply (other_arrays_kept growcap K h b Mem.nil_slice c1 c2 c3 c4 payload
             rest wf_b nil_wf encoding size h' r v a Hrun Hlt).
    discriminate.
  - intro Hne.
    assert (Hpos : (0 < length payload)%nat)
      by (destruct payload; [congruence|cbn [length]; lia]).
    cbn [Mem.s_len Mem.nil_slice] in Hlen, Hplace.
    specialize (Hplace Hpos). cbn [Mem.is_nil Mem.s_base orb] in Hplace.
    destruct Hplace as [Hbase _].
    assert (Hh : length h' = S (length h)).
    { destruct Hshape as [->|[(a0 & Hb & _)|(arr & _ & _ & ->)]].
      - destruct Wv as [_ Wb]. rewrite Hbase in Wb. lia.
      - discriminate.
      - rewrite length_app. cbn [length]. lia. }
    assert (Hvl : Mem.s_len v = length payload) by lia.
    split; [assumption|]. split; [|split].
    + revert Hrun.
      rewrite (decodeBytes_prefix growcap K h b Mem.nil_slice c1 c2 c3 c4
                 payload rest wf_b encoding size).
      replace (Mem.slen Mem.nil_slice <? Z.of_nat (length payload))
        with true
        by (symmetry; apply Z.ltb_lt; unfold Mem.slen;
            cbn [Mem.s_len Mem.nil_slice]; lia).
      cbn [Mem.is_nil Mem.s_base Mem.nil_slice Mem.make bind ret].
      intro H. injection H as _ _ H. now symmetry.
    + rewrite Hbase, Hab. intro F. injection F as F. lia.
    + intros a Ha. rewrite Hbase. intro F. injection F as F. lia.
  - intros ->. cbn [length] in Hsame.
    rewrite (Hsame ltac:(cbn [Mem.s_len Mem.nil_slice]; lia)).
    split; [|reflexivity].
    destruct Hshape as [->|[(a0 & Hb & _)|(arr & Hlt0 & _)]].
    + reflexivity.
    + discriminate.
    + cbn [Mem.s_len Mem.nil_slice length] in Hlt0. lia.
Qed.

(** X22. With a non-nil destination that is not longer than the payload
    and has the capacity for it, [decodeBytes] allocates nothing: the
    slice returned is the destination resized to the payload length, at
    the same place of the same array, and it reads exactly the payload. *)
Theorem decodeBytes_reuses_destination (dst : Mem.slice) :
  Mem.wf h dst ->
  Mem.is_nil dst = false ->
  (Mem.s_len dst <= length payload <= Mem.s_cap dst)%nat ->
  exists h' r v,
    Mem.decodeBytes growcap K h b dst = ret (h', (r, v, None)) /\
    Mem.view h' v = payload /\
    Mem.s_base v = Mem.s_base dst /\ Mem.s_off v = Mem.s_off dst /\
    Mem.s_len v = length payload /\
    length h' = length h.
Proof.
  intros wf_dst Hnil Hfit.
  destruct (decodeBytes_success growcap K h b dst c1 c2 c3 c4
              payload rest wf_b wf_dst encoding size)
    as (h' & r & v & Hrun & _ & Wv & Hv & Hlen & Hsame & Hplace).
  exists h', r, v. split; [assumption|].
  assert (Hl : Mem.s_len v = length payload) by lia.
  split.
  { rewrite <- Hv. symmetry. apply firstn_all2.
    rewrite (view_length h' v Wv). lia. }
  destruct (decodeBytes_store_shape growcap K h b dst c1 c2 c3 c4
              payload rest wf_b wf_dst encoding size)
    as (h1 & v1 & Hrun1 & Hshape).
  rewrite Hrun in Hrun1. injection Hrun1 as E1 _ _. subst h1.
  assert (Hh : length h' = length h).
  { destruct Hshape as [->|[(a0 & _ & _ & _ & ->)|(arr & Hlt & Hc & _)]].
    - reflexivity.
    - apply store_length.
    - destruct Hc as [Hc|Hc]; [congruence|lia]. }
  destruct (Nat.eq_dec (Mem.s_len dst) (length payload)) as [E|E].
  - rewrite (Hsame ltac:(lia)) in *. repeat split; assumption.
  - specialize (Hplace ltac:(lia)). rewrite Hnil in Hplace.
    replace (Mem.s_cap dst <? length payload)%nat with false in Hplace
      by (symmetry; apply Nat.ltb_ge; lia).
    cbn [orb] in Hplace. destruct Hplace as (Hb & Ho & _).
    repeat split; assumption.
Qed.

End DecodeBytesModes.

(** ** Concrete runs of [decodeBytes] *)

Lemma decodeBytes_frame_witness :
  (2 <= 2)%nat /\
  forall a, (a < 2)%nat ->
    (Some 1%nat <> Some a ->
     nth a [[x03; x0a; x00; x00; x00; x01; x2a; x63]; [x2a; xff; xee]] []
     = nth a [[x03; x0a; x00; x00; x00; x01; x2a; x63]; [xff; xff; xee]] [])
    /\
    firstn 0 (nth a [[x03; x0a; x00; x00; x00; x01; x2a; x63];
                     [x2a; xff; xee]] [])
    = firstn 0 (nth a [[x03; x0a; x00; x00; x00; x01; x2a; x63];
                       [xff; xff; xee]] [])
    /\
    skipn (0 + 1) (nth a [[x03; x0a; x00; x00; x00; x01; x2a; x63];
                          [x2a; xff; xee]] [])
    = skipn (0 + 1) (nth a [[x03; x0a; x00; x00; x00; x01; x2a; x63];
                            [xff; xff; xee]] []).
Proof.
  apply (decodeBytes_frame (fun _ n => n) sampleRegistry
           [[x03; x0a; x00; x00; x00; x01; x2a; x63]; [xff; xff; xee]]
           (Mem.mkSlice (Some 0%nat) 0 8 8) (Mem.mkSlice (Some 1%nat) 0 2 3)
           x00 x00 x00 x01 [x2a] [x63]
           ltac:(unfold Mem.wf; simpl; lia)
           ltac:(unfold Mem.wf; simpl; lia)
           ltac:(reflexivity) ltac:(reflexivity)
           [[x03; x0a; x00; x00; x00; x01; x2a; x63]; [x2a; xff; xee]]
           (Mem.mkSlice (Some 0%nat) 7 1 1) (Mem.mkSlice (Some 1%nat) 0 2 3)).
  vm_compute. reflexivity.
Defined.

Lemma decodeBytes_cursor_unaliased_witness :
  Mem.view [[x03; x0a; x00; x00; x00; x01; x2a; x63]; [x2a; xff; xee]]
    (Mem.mkSlice (Some 0%nat) 7 1 1)
  = [x63].
Proof.
  apply (decodeBytes_cursor_unaliased (fun _ n => n) sampleRegistry
           [[x03; x0a; x00; x00; x00; x01; x2a; x63]; [xff; xff; xee]]
           (Mem.mkSlice (Some 0%nat) 0 8 8) (Mem.mkSlice (Some 1%nat) 0 2 3)
           x00 x00 x00 x01 [x2a] [x63]
           ltac:(unfold Mem.wf; simpl; lia)
           ltac:(unfold Mem.wf; simpl; lia)
           ltac:(reflexivity) ltac:(reflexivity)
           [[x03; x0a; x00; x00; x00; x01; x2a; x63]; [x2a; xff; xee]]
           (Mem.mkSlice (Some 0%nat) 7 1 1) (Mem.mkSlice (Some 1%nat) 0 2 3)).
  - simpl. discriminate.
  - vm_compute. reflexivity.
Defined.

Lemma decodeBytes_no_destination_witness :
  exists h' r v,
    Mem.decodeBytes (fun _ n => n) sampleRegistry
      [[x03; x0a; x00; x00; x00; x01; x2a; x63]]
      (Mem.mkSlice (Some 0%nat) 0 8 8) Mem.nil_slice
    = ret (h', (r, v, None)) /\
    Mem.view h' v = [x2a] /\ Mem.view h' r = [x63] /\
    firstn 1 h' = [[x03; x0a; x00; x00; x00; x01; x2a; x63]] /\
    ([x2a] <> [] ->
     length h' = 2%nat /\
     v = Mem.mkSlice (Some 1%nat) 0 1 1 /\
     Mem.s_base v <> Some 0%nat /\
     forall a, (a < 1)%nat -> Mem.s_base v <> Some a) /\
    ([x2a] = [] ->
     h' = [[x03; x0a; x00; x00; x00; x01; x2a; x63]] /\ v = Mem.nil_slice).
Proof.
  apply (decodeBytes_no_destination (fun _ n => n) sampleRegistry
           [[x03; x0a; x00; x00; x00; x01; x2a; x63]]
           (Mem.mkSlice (Some 0%nat) 0 8 8) x00 x00 x00 x01 [x2a] [x63]
           ltac:(unfold Mem.wf; simpl; lia)
           ltac:(reflexivity) ltac:(reflexivity)).
Defined.

Lemma decodeBytes_reuses_destination_witness :
  exists h' r v,
    Mem.decodeBytes (fun _ n => n) sampleRegistry
      [[x03; x0a; x00; x00; x00; x02; x2a; x63]; [xff; xee; xdd]]
      (Mem.mkSlice (Some 0%nat) 0 8 8) (Mem.mkSlice (Some 1%nat) 1 0 2)
    = ret (h', (r, v, None)) /\
    Mem.view h' v = [x2a; x63] /\
    Mem.s_base v = Some 1%nat /\ Mem.s_off v = 1%nat /\
    Mem.s_len v = 2%nat /\ length h' = 2%nat.
Proof.
  apply (decodeBytes_reuses_destination (fun _ n => n) sampleRegistry
           [[x03; x0a; x00; x00; x00; x02; x2a; x63]; [xff; xee; xdd]]
           (Mem.mkSlice (Some 0%nat) 0 8 8) x00 x00 x00 x02 [x2a; x63] []
           ltac:(unfold Mem.wf; simpl; lia)
           ltac:(reflexivity) ltac:(reflexivity)
           (Mem.mkSlice (Some 1%nat) 1 0 2)).
  - unfold Mem.wf; simpl; lia.
  - reflexivity.
  - simpl. lia.
Defined.

(** *** The width of [int] *)

Lemma int64_of_uint32 (n : Z) :
  0 <= n < 2 ^ 32 -> sint 64 n = n /\ sint 64 (sint 64 n - 1) = n - 1.
Proof.
  intro Hn.
  assert (E : sint 64 n = n)
    by (apply sint_small; [lia|change (2 ^ (64 - 1)) with (2 ^ 63); lia]).
  split; [exact E|]. rewrite E.
  apply sint_small; [lia|change (2 ^ (64 - 1)) with (2 ^ 63); lia].
Qed.

(** With a 32-bit [int] a length above 2^31 becomes negative, and stays
    negative when 1 is subtracted. *)
Lemma int32_of_uint32 (n : Z) :
  2 ^ 31 < n < 2 ^ 32 ->
  sint 32 n = n - 2 ^ 32 /\ sint 32 (sint 32 n - 1) = n - 2 ^ 32 - 1.
Proof.
  intro Hn.
  assert (E : sint 32 n = n - 2 ^ 32).
  { unfold sint. change (2 ^ (32 - 1)) with (2 ^ 31).
    replace (n + 2 ^ 31) with (n - 2 ^ 31 + 1 * 2 ^ 32) by lia.
    rewrite Z.mod_add by lia. rewrite Z.mod_small by lia. lia. }
  split; [exact E|]. rewrite E.
  apply sint_small; [lia|change (2 ^ (32 - 1)) with (2 ^ 31); lia].
Qed.

(** The decoders written for a 64-bit [int] are the instances at width 64
    of the decoders with the width as a parameter. *)
Lemma decodeString_int_64 (K : Registry) (b : list byte) :
  decodeString_int 64 K b = decodeString K b.
Proof.
  unfold decodeString_int, decodeString.
  destruct (0 <? len b); [|reflexivity].
  destruct (index_is b 0 (StringRawKind K)) as [[|]|]; cbn [bind];
    try reflexivity.
  destruct (slice_from b 1) as [b1|]; cbn [bind]; [|reflexivity].
  destruct (decodeStaticUint32_total K b1) as [(r & n & H)|H]; rewrite H;
    cbn [bind ret]; [|reflexivity].
  apply decodeStaticUint32_ok in H. destruct H as (c1 & c2 & c3 & c4 & _ & ->).
  destruct (int64_of_uint32 _ (be32_range c1 c2 c3 c4)) as [_ ->].
  reflexivity.
Qed.

Lemma decodeError_int_64 (K : Registry) (b : list byte) :
  decodeError_int 64 K b = decodeError K b.
Proof.
  unfold decodeError_int, decodeError.
  destruct (0 <? len b); [|reflexivity].
  destruct (index_is b 0 (ErrorRawKind K)) as [[|]|]; cbn [bind];
    try reflexivity.
  destruct (slice_from b 1) as [b1|]; cbn [bind]; [|reflexivity].
  now rewrite decodeString_int_64.
Qed.

Lemma decodeStaticUint32_store_range (K : Registry) (h : Mem.heap)
  (b r : Mem.slice) (n : Z) :
  Mem.decodeStaticUint32 K h b = ret (r, n, None) -> 0 <= n < 2 ^ 32.
Proof.
  unfold Mem.decodeStaticUint32.
  destruct (and_then (4 <? Mem.slen b)
              (Mem.index_is h b 0 (StaticUint32RawKind K))) as [[|]|];
    cbn [bind]; try discriminate.
  destruct (Mem.reslice_from b 5); cbn [bind]; [|discriminate].
  destruct (Mem.index h b 4) as [b4|]; cbn [bind]; [|discriminate].
  destruct (Mem.index h b 3) as [b3|]; cbn [bind]; [|discriminate].
  destruct (Mem.index h b 2) as [b2|]; cbn [bind]; [|discriminate].
  destruct (Mem.index h b 1) as [b1|]; cbn [bind]; [|discriminate].
  intro H. injection H as _ <-. apply be32_range.
Qed.

Lemma decodeBytes_int_64 (growcap : nat -> nat -> nat) (K : Registry)
  (h : Mem.heap) (b dst : Mem.slice) :
  decodeBytes_int 64 growcap K h b dst = Mem.decodeBytes growcap K h b dst.
Proof.
  unfold decodeBytes_int, Mem.decodeBytes.
  destruct (and_then (0 <? Mem.slen b)
              (Mem.index_is h b 0 (BytesRawKind K))) as [[|]|];
    cbn [bind]; try reflexivity.
  destruct (Mem.reslice_from b 1) as [b1|]; cbn [bind]; [|reflexivity].
  destruct (Mem.decodeStaticUint32 K h b1) as [[[b2 n] [e|]]|] eqn:E;
    cbn [bind]; try reflexivity.
  apply decodeStaticUint32_store_range in E.
  destruct (int64_of_uint32 n E) as [-> ->]. reflexivity.
Qed.

(** With a 32-bit [int] and a length prefix above 2^31, [int(size)-1] is
    negative, the guard [len(b) > int(size)-1] holds, and [b[size:]] is
    out of range. *)
Lemma decodeString_int_32_panics (K : Registry) (c1 c2 c3 c4 : byte)
  (p : list byte) :
  2 ^ 31 < be32 c1 c2 c3 c4 -> len p < 2 ^ 31 ->
  decodeString_int 32 K
    (StringRawKind K :: StaticUint32RawKind K :: c1 :: c2 :: c3 :: c4 :: p)
  = panic.
Proof.
  intros Hbig Hlen. pose proof (be32_range c1 c2 c3 c4) as Hr.
  unfold decodeString_int. run. rewrite byte_eqb_refl.
  rewrite decodeStaticUint32_eq, byte_eqb_refl. unfold ret. cbv beta iota.
  destruct (int32_of_uint32 (be32 c1 c2 c3 c4)) as [_ ->]; [lia|].
  replace (be32 c1 c2 c3 c4 - 2 ^ 32 - 1 <? len p) with true
    by (symmetry; apply Z.ltb_lt; unfold len in *; lia).
  replace (Z.to_nat (be32 c1 c2 c3 c4) <=? length p)%nat with false
    by (symmetry; apply Nat.leb_gt; unfold len in *; lia).
  reflexivity.
Qed.

(** X23. Where [int] has 64 bits, only the five varint decoders can index
    a cursor out of range.  Every other decoder returns on every input:
    [decodeNil], [decodeStaticUint32], [decodeMap], [decodeSlice],
    [decodeBool], [decodeUint8], [decodeFloat32] and [decodeFloat64],
    which compare the length with a constant, whatever the width of
    [int]; [decodeString], [decodeError] and [decodeBytes] (on a cursor
    and a destination that point into the store) as instances at width 64
    of the decoders with the width as a parameter.  Where [int] has 32
    bits the last three panic: for a length prefix above 2^31 the
    conversion [int(size)] is negative, the guard holds and [b[size:]] is
    out of range. *)
Theorem non_varint_decoders_return (growcap : nat -> nat -> nat)
  (K : Registry) (bs : list byte) (h : Mem.heap) (b dst : Mem.slice) :
  Mem.wf h b -> Mem.wf h dst ->
  ((exists o, decodeNil K bs = ret o) /\
   (exists o, decodeStaticUint32 K bs = ret o) /\
   (forall k v, exists o, decodeMap K bs k v = ret o) /\
   (forall k, exists o, decodeSlice K bs k = ret o) /\
   (exists o, decodeBool K bs = ret o) /\
   (exists o, decodeUint8 K bs = ret o) /\
   (exists o, decodeFloat32 K bs = ret o) /\
   (exists o, decodeFloat64 K bs = ret o)) /\
  (decodeString_int 64 K bs = decodeString K bs /\
   decodeError_int 64 K bs = decodeError K bs /\
   decodeBytes_int 64 growcap K h b dst = Mem.decodeBytes growcap K h b dst
   /\
   (exists o, decodeString_int 64 K bs = ret o) /\
   (exists o, decodeError_int 64 K bs = ret o) /\
   (exists o, decodeBytes_int 64 growcap K h b dst = ret o)) /\
  ((forall c1 c2 c3 c4 p,
      2 ^ 31 < u8 c1 * 2 ^ 24 + u8 c2 * 2 ^ 16 + u8 c3 * 2 ^ 8 + u8 c4 ->
      len p < 2 ^ 31 ->
      decodeString_int 32 K
        (StringRawKind K :: StaticUint32RawKind K :: c1 :: c2 :: c3 :: c4
           :: p) = panic /\
      decodeError_int 32 K
        (ErrorRawKind K :: StringRawKind K :: StaticUint32RawKind K
           :: c1 :: c2 :: c3 :: c4 :: p) = panic) /\
   decodeBytes_int 32 growcap K
     [[BytesRawKind K; StaticUint32RawKind K; x80; x00; x00; x01]]
     (Mem.mkSlice (Some 0%nat) 0 6 6) Mem.nil_slice
   = panic).
Proof.
  intros Wb Wd.
  destruct (fixed_decoders_total K bs)
    as (H1 & H2 & H3 & H4 & H5 & H6 & H7 & H8 & H9 & H10).
  split; [repeat (split; [assumption|]); assumption|].
  split.
  - rewrite decodeString_int_64, decodeError_int_64, decodeBytes_int_64.
    repeat (split; [reflexivity || assumption|]).
    now apply decodeBytes_total.
  - split.
    + intros c1 c2 c3 c4 p Hbig Hlen. rewrite <- be32_value in Hbig.
      pose proof (decodeString_int_32_panics K c1 c2 c3 c4 p Hbig Hlen) as Hs.
      split; [exact Hs|].
      unfold decodeError_int. run. rewrite byte_eqb_refl.
      now rewrite Hs.
    + unfold decodeBytes_int, Mem.decodeStaticUint32, Mem.reslice_from,
        Mem.reslice, Mem.index_is, Mem.index, and_then, bind, ret.
      cbn. rewrite !byte_eqb_refl. reflexivity.
Qed.

Lemma non_varint_decoders_return_witness :
  (exists o, decodeString_int 64 sampleRegistry [x04; x0a; x00; x00] = ret o)
  /\
  (exists o,
     decodeBytes_int 64 (fun _ n => n) sampleRegistry
       [[x03; x0a; x00; x00; x00; x09; x2a]; [xff]]
       (Mem.mkSlice (Some 0%nat) 0 7 7) (Mem.mkSlice (Some 1%nat) 0 1 1)
     = ret o) /\
  decodeString_int 32 sampleRegistry [x04; x0a; x80; x00; x00; x01] = panic.
Proof.
  destruct (non_varint_decoders_return (fun _ n => n) sampleRegistry
              [x04; x0a; x00; x00]
              [[x03; x0a; x00; x00; x00; x09; x2a]; [xff]]
              (Mem.mkSlice (Some 0%nat) 0 7 7)
              (Mem.mkSlice (Some 1%nat) 0 1 1)
              ltac:(unfold Mem.wf; simpl; lia)
              ltac:(unfold Mem.wf; simpl; lia))
    as (_ & (_ & _ & _ & Hs & _ & Hb) & (H32 & _)).
  split; [exact Hs|]. split; [exact Hb|].
  apply (H32 x80 x00 x00 x01 []); reflexivity.
Defined.

Lemma decodeBytes_length_exact_witness :
  Mem.s_len (Mem.mkSlice (Some 1%nat) 0 2 3) = 1%nat <-> (2 <= 1)%nat.
Proof.
  apply (decodeBytes_length_exact (fun _ n => n) sampleRegistry
           [[x03; x0a; x00; x00; x00; x01; x2a; x63]; [xff; xff; xee]]
           [[x03; x0a; x00; x00; x00; x01; x2a; x63]; [x2a; xff; xee]]
           (Mem.mkSlice (Some 0%nat) 0 8 8) (Mem.mkSlice (Some 1%nat) 0 2 3)
           (Mem.mkSlice (Some 0%nat) 7 1 1) (Mem.mkSlice (Some 1%nat) 0 2 3)
           x00 x00 x00 x01 [x2a] [x63]).
  - unfold Mem.wf; simpl; lia.
  - unfold Mem.wf; simpl; lia.
  - reflexivity.
  - reflexivity.
  - vm_compute. reflexivity.
Defined.

(** X25. At the level of the store: on a cursor that is empty or starts
    with another byte than the Bytes tag, [decodeBytes] returns
    [InvalidBytes] and [nil], the cursor as it was, and writes nothing,
    whatever the destination. *)
Theorem decodeBytes_tag_mismatch (growcap : nat -> nat -> nat)
  (K : Registry) (h : Mem.heap) (b dst : Mem.slice) :
  Mem.wf h b ->
  nth_error (Mem.view h b) 0 <> Some (BytesRawKind K) ->
  Mem.decodeBytes growcap K h b dst
  = ret (h, (b, Mem.nil_slice, Some InvalidBytes)).
Proof.
  intros Wb H. pose proof (view_length h b Wb) as Hl.
  unfold Mem.decodeBytes, Mem.index_is. rewrite (slen_ltb 0).
  destruct (0 <? Mem.s_len b)%nat eqn:E; [|reflexivity].
  apply Nat.ltb_lt in E. rewrite index_view by assumption.
  destruct (Mem.view h b) as [|t p]; [simpl in Hl; lia|].
  cbn [and_then nth_error bind ret].
  rewrite byte_eqb_neq; [reflexivity|]. intro Et. apply H. now subst.
Qed.

Lemma decodeBytes_tag_mismatch_witness :
  Mem.decodeBytes (fun _ n => n) sampleRegistry
    [[x04; x0a; x00; x00; x00; x00]; [xff]]
    (Mem.mkSlice (Some 0%nat) 0 6 6) (Mem.mkSlice (Some 1%nat) 0 1 1)
  = ret ([[x04; x0a; x00; x00; x00; x00]; [xff]],
         (Mem.mkSlice (Some 0%nat) 0 6 6, Mem.nil_slice, Some InvalidBytes)).
Proof.
  apply (decodeBytes_tag_mismatch (fun _ n => n) sampleRegistry).
  - unfold Mem.wf; simpl; lia.
  - simpl. discriminate.
Defined.

(** ** Encodings that are not minimal *)

Lemma padded_value (l : list byte) (t : byte) (s : Z) :
  u8 t < continuation ->
  varint_value (l ++ [byte_of (u8 t + 128); x00]) s
  = varint_value (l ++ [t]) s.
Proof.
  intro Ht. revert s. induction l as [|c l IH]; intro s.
  - cbn [app varint_value]. pose proof (u8_range t) as Hr.
    unfold continuation in Ht. rewrite u8_byte_of by lia.
    change 127 with (Z.ones 7). rewrite !Z.land_ones by lia.
    change (2 ^ 7) with 128.
    replace ((u8 t + 128) mod 128) with (u8 t mod 128)
      by (replace (u8 t + 128) with (u8 t + 1 * 128) by lia;
          now rewrite Z.mod_add by lia).
    change (u8 x00) with 0. rewrite Z.mod_0_l by lia.
    now rewrite Z.shiftl_0_l, !Z.lor_0_r.
  - cbn [app varint_value]. now rewrite IH.
Qed.

(** X26. The decoders do not require the shortest encoding.  A varint
    whose last group is moved into a continuation byte and followed by a
    0x00 byte decodes to the same value as the shorter varint, as long as
    the byte count stays within the maximum: distinct inputs can decode to
    one value. *)
Theorem varint_padding_accepted (K : Registry) (conts rest : list byte)
  (t : byte) :
  Forall continues conts -> u8 t < continuation ->
  ((length conts + 2 <= VarIntLen16)%nat ->
   decodeUint16 K (Uint16RawKind K :: conts ++ byte_of (u8 t + 128)
                     :: x00 :: rest)
   = decodeUint16 K (Uint16RawKind K :: conts ++ t :: rest)) /\
  ((length conts + 2 <= VarIntLen32)%nat ->
   decodeUint32 K (Uint32RawKind K :: conts ++ byte_of (u8 t + 128)
                     :: x00 :: rest)
   = decodeUint32 K (Uint32RawKind K :: conts ++ t :: rest)) /\
  ((length conts + 2 <= VarIntLen64)%nat ->
   decodeUint64 K (Uint64RawKind K :: conts ++ byte_of (u8 t + 128)
                     :: x00 :: rest)
   = decodeUint64 K (Uint64RawKind K :: conts ++ t :: rest)).
Proof.
  intros Hc Ht. pose proof (u8_range t) as Hr.
  assert (Hpad : continues (byte_of (u8 t + 128))).
  { unfold continues, continuation in *. rewrite u8_byte_of; lia. }
  assert (Hc' : Forall continues (conts ++ [byte_of (u8 t + 128)])).
  { apply Forall_app. split; [assumption|now constructor]. }
  assert (Hz : u8 x00 < continuation) by reflexivity.
  assert (Happ : forall tag,
            tag :: conts ++ byte_of (u8 t + 128) :: x00 :: rest
            = tag :: (conts ++ [byte_of (u8 t + 128)]) ++ x00 :: rest).
  { intro tag. now rewrite <- app_assoc. }
  repeat split; intro Hn; rewrite Happ.
  - rewrite decodeUint16_value, decodeUint16_value; try assumption.
    + rewrite <- app_assoc. cbn [app]. now rewrite padded_value.
    + lia.
    + rewrite length_app. cbn [length]. lia.
  - rewrite decodeUint32_value, decodeUint32_value; try assumption.
    + rewrite <- app_assoc. cbn [app]. now rewrite padded_value.
    + lia.
    + rewrite length_app. cbn [length]. lia.
  - rewrite decodeUint64_value, decodeUint64_value; try assumption.
    + rewrite <- app_assoc. cbn [app]. now rewrite padded_value.
    + lia.
    + rewrite length_app. cbn [length]. lia.
Qed.

Lemma varint_padding_accepted_witness :
  decodeUint32 sampleRegistry
    (Uint32RawKind sampleRegistry :: [xac] ++ byte_of (u8 x02 + 128)
       :: x00 :: [x07])
  = decodeUint32 sampleRegistry
      (Uint32RawKind sampleRegistry :: [xac] ++ x02 :: [x07]).
Proof.
  apply (proj1 (proj2 (varint_padding_accepted sampleRegistry [xac] [x07] x02
                         ltac:(repeat constructor; unfold continues;
                               vm_compute; discriminate)
                         ltac:(reflexivity)))).
  unfold VarIntLen32. simpl. lia.
Defined.
